(** * Job orchestration pipeline and structured-response extraction

  A shallow embedding of the JavaScript sources:
  - [parseAIResponse] (PlanningEngine, the platform agents, CodeModernizer),
  - [JobManager] ([createJob], [getJob], [updateJob], [deleteJob],
    [listJobs], [cleanupOldJobs]),
  - [PlanningEngine.analyzeDescription], [PlanningEngine.analyzeExistingCode]
    and [CodeModernizer.modernizeCode] around [parseAIResponse],
  - [CodeGenerator.generateMultiPlatformApp],
  - the asynchronous runners [generateAppAsync], [analyzeCodeAsync],
    [modernizeCodeAsync],
  - the status routes (GET and DELETE on a job id) and
    [calculateEstimatedTime].

  [JobManager] and [Pipeline] describe the program while no two accesses
  of the file of a job overlap.  [JobFiles] and [Overlap] describe it with
  the two steps of [fs.writeJson] apart: between them the file holds no
  record, and [getJob] answers [null].

  JavaScript strings are sequences of UTF-16 code units; they are modelled
  as lists of [N].  Property names, job identifiers and platform names are
  kept as [string] so that objects used as dictionaries become [gmap]s. *)

From Stdlib Require Import ZArith NArith List Ascii String Lia Bool.
From stdpp Require Import base option list gmap strings fin_maps sorting.

Set Warnings "-register-all".
Local Open Scope Z_scope.

(* ===================================================================== *)
(** * JavaScript strings *)
(* ===================================================================== *)

Module JsString.

(** A string value: its UTF-16 code units. *)
Definition jsstring := list N.

(** A literal of the source, code unit by code unit. *)
Definition js (s : string) : jsstring :=
  List.map N_of_ascii (list_ascii_of_string s).

Definition len (s : jsstring) : Z := Z.of_nat (length s).

(** [s.substring(start, finish)]: both indices are clamped to
    [0 .. s.length] and swapped when [start > finish]. *)
Definition clamp (s : jsstring) (i : Z) : Z := Z.min (Z.max i 0) (len s).

Definition substring (s : jsstring) (start finish : Z) : jsstring :=
  let a := clamp s start in
  let b := clamp s finish in
  let from := Z.min a b in
  let to := Z.max a b in
  take (Z.to_nat (to - from)) (drop (Z.to_nat from) s).

(** [s.indexOf(c)] for a one-unit search string: the least index holding
    [c], or [-1]. *)
Fixpoint indexOf_from (c : N) (s : jsstring) (i : Z) : Z :=
  match s with
  | [] => -1
  | x :: s' => if N.eqb x c then i else indexOf_from c s' (i + 1)
  end.

Definition indexOf (s : jsstring) (c : N) : Z := indexOf_from c s 0.

(** [s.lastIndexOf(c)]: the greatest index holding [c], or [-1]. *)
Fixpoint lastIndexOf_from (c : N) (s : jsstring) (i : Z) (found : Z) : Z :=
  match s with
  | [] => found
  | x :: s' =>
      lastIndexOf_from c s' (i + 1) (if N.eqb x c then i else found)
  end.

Definition lastIndexOf (s : jsstring) (c : N) : Z :=
  lastIndexOf_from c s 0 (-1).

(** The class [\s] of regular expressions, which is also what [trim]
    strips: WhiteSpace and LineTerminator code units. *)
Definition is_space (c : N) : bool :=
  let c := Z.of_N c in
  ((9 <=? c) && (c <=? 13))
  || (c =? 32) || (c =? 160) || (c =? 5760)
  || ((8192 <=? c) && (c <=? 8202))
  || (c =? 8232) || (c =? 8233) || (c =? 8239) || (c =? 8287)
  || (c =? 12288) || (c =? 65279).

Fixpoint trimStart (s : jsstring) : jsstring :=
  match s with
  | c :: s' => if is_space c then trimStart s' else s
  | [] => []
  end.

Definition trimEnd (s : jsstring) : jsstring := rev (trimStart (rev s)).

Definition trim (s : jsstring) : jsstring := trimEnd (trimStart s).

(** Truthiness of a string: the empty string is falsy. *)
Definition truthy (s : jsstring) : bool :=
  match s with [] => false | _ => true end.

Fixpoint strip_prefix (p s : jsstring) : option jsstring :=
  match p, s with
  | [], _ => Some s
  | _ :: _, [] => None
  | x :: p', y :: s' => if N.eqb x y then strip_prefix p' s' else None
  end.

(** Not starting with white space. *)
Definition no_leading_space (s : jsstring) : Prop :=
  match s with c :: _ => is_space c = false | [] => True end.

End JsString.

Export JsString.

(* ===================================================================== *)
(** * JSON values and [JSON.parse] *)
(* ===================================================================== *)

Module JSON.

(** Parsed values.  A number keeps its exact decimal value
    [mantissa / 10 ^ scale] with the least possible [scale] (the engine
    rounds it to a double, which none of the code below observes).  An
    object keeps its members in source order. *)
Inductive json :=
| JNull
| JBool (b : bool)
| JNumber (mantissa : Z) (scale : nat)
| JString (s : jsstring)
| JArray (items : list json)
| JObject (members : list (jsstring * json)).

Definition is_json_space (c : N) : bool :=
  N.eqb c 32 || N.eqb c 9 || N.eqb c 10 || N.eqb c 13.

Fixpoint skip_ws (s : jsstring) : jsstring :=
  match s with
  | c :: s' => if is_json_space c then skip_ws s' else s
  | [] => []
  end.

Definition digit_of (c : N) : option Z :=
  if (48 <=? c)%N && (c <=? 57)%N then Some (Z.of_N c - 48) else None.

Definition hex_of (c : N) : option N :=
  if (48 <=? c)%N && (c <=? 57)%N then Some (c - 48)%N
  else if (97 <=? c)%N && (c <=? 102)%N then Some (c - 87)%N
  else if (65 <=? c)%N && (c <=? 70)%N then Some (c - 55)%N
  else None.

(** The characters of a string literal after its opening quote, up to and
    including the closing quote. *)
Fixpoint parse_chars (s : jsstring) (acc : jsstring)
  : option (jsstring * jsstring) :=
  match s with
  | [] => None
  | 34%N :: rest => Some (rev acc, rest)
  | 92%N :: rest =>
      match rest with
      | 34%N :: r => parse_chars r (34%N :: acc)
      | 92%N :: r => parse_chars r (92%N :: acc)
      | 47%N :: r => parse_chars r (47%N :: acc)
      | 98%N :: r => parse_chars r (8%N :: acc)
      | 102%N :: r => parse_chars r (12%N :: acc)
      | 110%N :: r => parse_chars r (10%N :: acc)
      | 114%N :: r => parse_chars r (13%N :: acc)
      | 116%N :: r => parse_chars r (9%N :: acc)
      | 117%N :: a :: b :: c :: d :: r =>
          match hex_of a, hex_of b, hex_of c, hex_of d with
          | Some x, Some y, Some z, Some w =>
              parse_chars r ((((x * 16 + y) * 16 + z) * 16 + w)%N :: acc)
          | _, _, _, _ => None
          end
      | _ => None
      end
  | c :: rest =>
      if (c <? 32)%N then None else parse_chars rest (c :: acc)
  end.

(** A maximal run of decimal digits: its value, its length, the rest. *)
Fixpoint parse_digits (s : jsstring) (acc : Z) (n : nat)
  : Z * nat * jsstring :=
  match s with
  | c :: s' =>
      match digit_of c with
      | Some d => parse_digits s' (acc * 10 + d) (S n)
      | None => (acc, n, s)
      end
  | [] => (acc, n, s)
  end.

(** Remove the trailing zeros of a decimal fraction. *)
Fixpoint normalize (m : Z) (scale : nat) : Z * nat :=
  match scale with
  | O => (m, O)
  | S k => if (m mod 10 =? 0) then normalize (m / 10) k else (m, scale)
  end.

Definition make_number (neg : bool) (digits : Z) (fraction : nat) (exp : Z)
  : json :=
  let m := if neg then - digits else digits in
  let shift := exp - Z.of_nat fraction in
  if 0 <=? shift then JNumber (m * 10 ^ shift) 0
  else let '(m', k) := normalize m (Z.to_nat (- shift)) in JNumber m' k.

Definition parse_exponent (s : jsstring) : option (Z * jsstring) :=
  match s with
  | c :: s' =>
      if N.eqb c 101 || N.eqb c 69 then
        let '(neg, s'') :=
          match s' with
          | 45%N :: r => (true, r)
          | 43%N :: r => (false, r)
          | _ => (false, s')
          end in
        match parse_digits s'' 0 0 with
        | (_, O, _) => None
        | (e, _, r) => Some (if neg then - e else e, r)
        end
      else Some (0, s)
  | [] => Some (0, s)
  end.

Definition parse_fraction (s : jsstring) (int : Z)
  : option (Z * nat * jsstring) :=
  match s with
  | 46%N :: s' =>
      match parse_digits s' int 0 with
      | (_, O, _) => None
      | (d, n, r) => Some (d, n, r)
      end
  | _ => Some (int, O, s)
  end.

Definition parse_number (s : jsstring) : option (json * jsstring) :=
  let '(neg, s1) :=
    match s with 45%N :: r => (true, r) | _ => (false, s) end in
  match s1 with
  | [] => None
  | c :: r =>
      match digit_of c with
      | None => None
      | Some d =>
          let '(int, s2) :=
            if N.eqb c 48 then (0, r)
            else let '(v, _, r') := parse_digits r d 0 in (v, r') in
          match parse_fraction s2 int with
          | None => None
          | Some (digits, fraction, s3) =>
              match parse_exponent s3 with
              | None => None
              | Some (e, s4) =>
                  Some (make_number neg digits fraction e, s4)
              end
          end
      end
  end.

(** Recursive descent; every recursive call has consumed at least one
    code unit, so [length s] units of fuel always suffice. *)
Fixpoint parse_value (fuel : nat) (s : jsstring)
  : option (json * jsstring) :=
  match fuel with
  | O => None
  | S fuel =>
      let parse_elements :=
        fix elements (n : nat) (s : jsstring) (acc : list json)
          : option (json * jsstring) :=
          match n with
          | O => None
          | S n =>
              match parse_value fuel s with
              | None => None
              | Some (v, r) =>
                  match skip_ws r with
                  | 44%N :: r' => elements n (skip_ws r') (v :: acc)
                  | 93%N :: r' => Some (JArray (rev (v :: acc)), r')
                  | _ => None
                  end
              end
          end in
      let parse_members :=
        fix members (n : nat) (s : jsstring) (acc : list (jsstring * json))
          : option (json * jsstring) :=
          match n with
          | O => None
          | S n =>
              match s with
              | 34%N :: r =>
                  match parse_chars r [] with
                  | None => None
                  | Some (k, r1) =>
                      match skip_ws r1 with
                      | 58%N :: r2 =>
                          match parse_value fuel (skip_ws r2) with
                          | None => None
                          | Some (v, r3) =>
                              match skip_ws r3 with
                              | 44%N :: r4 =>
                                  members n (skip_ws r4) ((k, v) :: acc)
                              | 125%N :: r4 =>
                                  Some (JObject (rev ((k, v) :: acc)), r4)
                              | _ => None
                              end
                          end
                      | _ => None
                      end
                  end
              | _ => None
              end
          end in
      match s with
      | 110%N :: 117%N :: 108%N :: 108%N :: r => Some (JNull, r)
      | 116%N :: 114%N :: 117%N :: 101%N :: r => Some (JBool true, r)
      | 102%N :: 97%N :: 108%N :: 115%N :: 101%N :: r =>
          Some (JBool false, r)
      | 34%N :: r =>
          match parse_chars r [] with
          | Some (str, r') => Some (JString str, r')
          | None => None
          end
      | 91%N :: r =>
          match skip_ws r with
          | 93%N :: r' => Some (JArray [], r')
          | r' => parse_elements (length r') r' []
          end
      | 123%N :: r =>
          match skip_ws r with
          | 125%N :: r' => Some (JObject [], r')
          | r' => parse_members (length r') r' []
          end
      | _ => parse_number s
      end
  end.

(** [JSON.parse(text)] as a partial function: [None] where the engine
    throws a [SyntaxError]. *)
Definition parse (text : jsstring) : option json :=
  match parse_value (S (length text)) (skip_ws text) with
  | Some (v, r) => match skip_ws r with [] => Some v | _ => None end
  | None => None
  end.

End JSON.

Export JSON.

(* ===================================================================== *)
(** * Outcomes of calls that may throw, and the logger *)
(* ===================================================================== *)

(** A call either returns a value or throws an [Error]; only the message
  of the error is ever read by the code. *)
Inductive outcome (A : Type) :=
| Return (a : A)
| Throw (message : jsstring).

Arguments Return {A} a.
Arguments Throw {A} message.

Definition returned {A} (o : outcome A) : option A :=
match o with Return a => Some a | Throw _ => None end.

Definition thrown {A} (o : outcome A) : option jsstring :=
match o with Return _ => None | Throw m => Some m end.

Inductive log_level := Info | Warn | Error.

(** An entry handed to the logger: its level and its string-valued
  properties. *)
Record log_entry := LogEntry {
level : log_level;
properties : list (string * jsstring)
}.


(* ===================================================================== *)
(** * parseAIResponse *)
(* ===================================================================== *)

Module Extractor.

(** ** The regular expression of the fenced block

    Three backticks, an optional [json] tag, [\s*], a lazy capture of
    any code units, [\s*], three backticks.  The matchers below are
    written in continuation-passing style and follow the backtracking
    order of the engine: a greedy quantifier tries the longest
    repetition first, a lazy one the shortest. *)

Definition matcher (R : Type) :=
  jsstring -> (jsstring -> option R) -> option R.

Definition lit {R} (p : jsstring) : matcher R :=
  fun s k => match strip_prefix p s with Some s' => k s' | None => None end.

(** [(?:p)?], greedy. *)
Definition opt {R} (m : matcher R) : matcher R :=
  fun s k => match m s k with Some r => Some r | None => k s end.

(** [\s*], greedy. *)
Fixpoint spaces {R} (s : jsstring) (k : jsstring -> option R) : option R :=
  match s with
  | c :: s' =>
      if is_space c then
        match spaces s' k with Some r => Some r | None => k s end
      else k s
  | [] => k s
  end.

(** [([\s\S]*?)], lazy; the continuation receives the capture. *)
Fixpoint lazy_any {R} (s : jsstring) (acc : jsstring)
  (k : jsstring -> jsstring -> option R) : option R :=
  match k (rev acc) s with
  | Some r => Some r
  | None =>
      match s with
      | c :: s' => lazy_any s' (c :: acc) k
      | [] => None
      end
  end.

Definition backticks : jsstring := js "```".

(** The end of the expression, after the capture: [\s*] and the closing
    backticks.  The match returns the capture. *)
Definition closing (capture : jsstring) (s4 : jsstring) : option jsstring :=
  spaces s4 (fun s5 => lit backticks s5 (fun _ => Some capture)).

(** A match of the whole expression starting exactly at [s]; the result
    is the capture group. *)
Definition fence_at (s : jsstring) : option jsstring :=
  lit backticks s (fun s1 =>
  opt (lit (js "json")) s1 (fun s2 =>
  spaces s2 (fun s3 =>
  lazy_any s3 [] (fun capture s4 => closing capture s4)))).

(** [responseText.match(re)]: the leftmost start position that matches.
    [None] is the [null] result; [Some c] has [c] as group 1. *)
Fixpoint fence_match (s : jsstring) : option jsstring :=
  match fence_at s with
  | Some c => Some c
  | None => match s with _ :: s' => fence_match s' | [] => None end
  end.

Section WithEngine.

(** The message of the [SyntaxError] that [JSON.parse] throws on a text
    is chosen by the engine. *)
Variable syntax_message : jsstring -> jsstring.

Definition JSON_parse (text : jsstring) : outcome json :=
  match JSON.parse text with
  | Some v => Return v
  | None => Throw (syntax_message text)
  end.

(** The condition [jsonMatch && jsonMatch[1]]: a match whose first group
    is not the empty string. *)
Definition fenced (jsonMatch : option jsstring) : option jsstring :=
  match jsonMatch with
  | Some group1 => if truthy group1 then Some group1 else None
  | None => None
  end.

(** The inner [try] block: tiers 2, 3 and the final [throw]. *)
Definition repair (responseText : jsstring) : outcome json :=
  let jsonMatch := fence_match responseText in
  match fenced jsonMatch with
  | Some group1 => JSON_parse (trim group1)
  | None =>
      let firstBrace := indexOf responseText 123 in
      let lastBrace := lastIndexOf responseText 125 in
      if negb (firstBrace =? -1) && negb (lastBrace =? -1)
         && (lastBrace >? firstBrace)
      then JSON_parse (substring responseText firstBrace (lastBrace + 1))
      else Throw (js "Could not extract JSON from AI response: "
                    ++ substring responseText 0 200)
  end.

(** [parseAIResponse(responseText)]: the entries it logs, in order, and
    its outcome. *)
Definition parseAIResponse (responseText : jsstring)
  : list log_entry * outcome json :=
  match JSON_parse responseText with
  | Return v => ([], Return v)
  | Throw initialError =>
      let warned :=
        LogEntry Warn
          [("message"%string,
            js "Could not parse AI response directly, trying to trim...");
           ("error"%string, initialError)] in
      match repair responseText with
      | Return v => ([warned], Return v)
      | Throw repairError =>
          ([warned;
            LogEntry Error
              [("message"%string, js "Could not fix AI response");
               ("originalError"%string, initialError);
               ("repairError"%string, repairError);
               ("responseSample"%string, substring responseText 0 500)]],
           Throw (js "Could not process AI response: " ++ repairError))
      end
  end.

End WithEngine.

End Extractor.

(* ===================================================================== *)
(** * The tiers as the specification words them *)
(* ===================================================================== *)

Module ExtractSpec.

Import Extractor.

(** Tier 1: parse the entire input directly. *)
Definition tier1 (text : jsstring) : option json := JSON.parse text.

(** Tier 2: search for a fenced block; if found, parse its interior. *)
Definition tier2 (text : jsstring) : option json :=
  match fence_match text with
  | Some interior => JSON.parse interior
  | None => None
  end.

(** Tier 3: the substring from the first opening brace to the last closing
    brace, inclusive, parsed. *)
Definition tier3 (text : jsstring) : option json :=
  let first := indexOf text 123 in
  let last := lastIndexOf text 125 in
  if (0 <=? first) && (first <? last)
  then JSON.parse (substring text first (last + 1))
  else None.

(** Strict precedence, first success wins. *)
Definition extract (text : jsstring) : option json :=
  match tier1 text with
  | Some v => Some v
  | None =>
      match tier2 text with
      | Some v => Some v
      | None => tier3 text
      end
  end.

End ExtractSpec.

(* ===================================================================== *)
(** * JobManager *)
(* ===================================================================== *)

Module JobManager.

(** A job record is the JSON object kept in [jobs/<id>.json], property by
    property; the jobs directory holds one record per job id. *)
Abbreviation Job := (gmap string json).
Abbreviation store := (gmap string Job).

Definition text (s : string) : json := JString (js s).
Definition number (n : Z) : json := JNumber n 0.

(** Object spread [{...a, ...b}]: a property of [b] overrides the one of
    [a]. *)
Definition spread (a b : Job) : Job := b ∪ a.

(** [createJob(jobId, jobData)]; the two time stamps are the two readings
    of the clock.  The record is written to the job's file whether or not
    the file exists. *)
Definition createJob (st : store) (jobId : string) (jobData : Job)
    (createdAt updatedAt : jsstring) : store * outcome Job :=
  let job :=
    <["updatedAt" := JString updatedAt]>
      (<["createdAt" := JString createdAt]>
         (spread {["id" := text jobId]} jobData)) in
  (<[jobId := job]> st, Return job).

(** [getJob(jobId)] while no write of the file is under way: [None] is
    the [null] result. *)
Definition getJob (st : store) (jobId : string) : option Job := st !! jobId.

Definition not_found (jobId : string) : jsstring :=
  js "Job " ++ js jobId ++ js " not found".

(** [{...job, ...updates, updatedAt: now}] *)
Definition merge (job updates : Job) (now : jsstring) : Job :=
  <["updatedAt" := JString now]> (spread job updates).

(** [updateJob(jobId, updates)] suspends twice: until the record has been
    read, and until the merged record has been written.  The first half
    reads and merges, the second half writes; here nothing reads or writes
    the file while it is being written. *)
Definition updateJob_read (st : store) (jobId : string) (updates : Job)
    (now : jsstring) : outcome Job :=
  match getJob st jobId with
  | None => Throw (not_found jobId)
  | Some job => Return (merge job updates now)
  end.

Definition updateJob_write (st : store) (jobId : string) (updatedJob : Job)
  : store :=
  <[jobId := updatedJob]> st.

(** The call when nothing else runs between its two halves. *)
Definition updateJob (st : store) (jobId : string) (updates : Job)
    (now : jsstring) : store * outcome Job :=
  match updateJob_read st jobId updates now with
  | Return updatedJob => (updateJob_write st jobId updatedJob, Return updatedJob)
  | Throw m => (st, Throw m)
  end.

(** A property of the record stored under an id. *)
Definition lookup_field (st : store) (jobId k : string) : option json :=
  st !! jobId ≫= (.!! k).

End JobManager.

Export JobManager.

(* ===================================================================== *)
(** * The status and the progress of a job *)
(* ===================================================================== *)

Module Status.

(** [job.status === name] *)
Definition is_status (j : Job) (name : string) : bool :=
  match j !! "status" with
  | Some (JString s) => bool_decide (s = js name)
  | _ => false
  end.

Definition terminal (j : Job) : bool :=
  is_status j "completed" || is_status j "failed" || is_status j "cancelled".

(** [job.progress || 0] for the values this program stores: an absent or
    falsy property counts as 0, an integer as itself; [None] for any other
    value. *)
Definition progress_or_0 (j : Job) : option Z :=
  match j !! "progress" with
  | None | Some JNull | Some (JBool false) | Some (JString []) => Some 0
  | Some (JNumber n O) => Some n
  | Some _ => None
  end.

End Status.

(* ===================================================================== *)
(** * Objects used as dictionaries *)
(* ===================================================================== *)

Module JsObject.

(** The properties that an object literal inherits from
    [Object.prototype].  A look-up [obj[name]] finds them when [obj] has no
    property of its own under [name]; each of them is a function, or an
    object for [__proto__], and so counts as true in a condition. *)
Definition Object_prototype : list string :=
  ["constructor"; "__defineGetter__"; "__defineSetter__"; "hasOwnProperty";
   "__lookupGetter__"; "__lookupSetter__"; "isPrototypeOf";
   "propertyIsEnumerable"; "toString"; "valueOf"; "__proto__";
   "toLocaleString"]%string.

Definition inherited (name : string) : bool :=
  bool_decide (name ∈ Object_prototype).

End JsObject.

(* ===================================================================== *)
(** * CodeGenerator.generateMultiPlatformApp *)
(* ===================================================================== *)

Module CodeGenerator.

Import JsObject.

(** What an agent's [generateCode] returns. *)
Record code := Code {
  files : list jsstring;
  structure : json
}.

(** An entry of [results]: [{success: true, files, structure}] or
    [{success: false, error}]. *)
Inductive platform_result :=
| Generated (files : list jsstring) (structure : json)
| NotGenerated (error : jsstring).

Definition success (r : platform_result) : bool :=
  match r with Generated _ _ => true | NotGenerated _ => false end.

(** The keys of [this.agents]. *)
Definition agents : list string := ["ios"; "android"; "web"; "backend"]%string.

(** [this.agents[platform]]: one of the four agents, a property that
    the object inherits, or [undefined]. *)
Inductive agent_value :=
| Agent
| Inherited
| Undefined.

Definition agent_of (platform : string) : agent_value :=
  if bool_decide (platform ∈ agents) then Agent
  else if inherited platform then Inherited
  else Undefined.

(** The condition [if (this.agents[platform])]. *)
Definition has_agent (platform : string) : bool :=
  match agent_of platform with Undefined => false | _ => true end.

(** The collaborators: the file system and the four agents; and the
    message of the [TypeError] that the engine throws when what is called
    is not a function. *)
Record collaborators := Collaborators {
  ensureDir : string -> outcome unit;
  generateCode : string -> outcome code;
  generateDocumentation : outcome unit;
  not_a_function : jsstring
}.

Definition outputDir (jobId : string) : string := ("generated/" ++ jobId)%string.

Definition platformDir (jobId platform : string) : string :=
  (outputDir jobId ++ "/" ++ platform)%string.

Definition not_supported (platform : string) : jsstring :=
  js "Platform " ++ js platform ++ js " not supported".

(** The callback of [platforms.map] runs synchronously up to its first
    [await]: where [this.agents[platform]] counts as false it runs to its
    end and sets the entry at once. *)
Definition started (platforms : list string)
  : gmap string platform_result :=
  foldl (fun results platform =>
           if has_agent platform then results
           else <[platform := NotGenerated (not_supported platform)]> results)
        ∅ platforms.

(** The callbacks that are suspended after [platforms.map]. *)
Definition suspended (platforms : list string) : list string :=
  filter (fun platform => has_agent platform = true) platforms.

(** [this.agents[platform].generateCode(planningData, platformDir)]: an
    inherited property has no [generateCode]. *)
Definition call_generateCode (env : collaborators) (platform : string)
  : outcome code :=
  match agent_of platform with
  | Agent => generateCode env platform
  | _ => Throw (not_a_function env)
  end.

(** One suspended callback runs to its end: it either sets its entry of
    [results] or rejects. *)
Definition settle_one (env : collaborators) (jobId platform : string)
    (results : gmap string platform_result)
  : outcome (gmap string platform_result) :=
  match ensureDir env (platformDir jobId platform) with
  | Throw m => Throw m
  | Return _ =>
      match call_generateCode env platform with
      | Throw m => Throw m
      | Return code =>
          Return (<[platform := Generated (files code) (structure code)]> results)
      end
  end.

(** [await Promise.all(generationPromises)], the callbacks settling in the
    order [order]: the first rejection rejects the whole at once, with the
    callbacks after it in [order] still in flight.  The second component
    counts them. *)
Fixpoint promise_all (env : collaborators) (jobId : string)
    (order : list string) (results : gmap string platform_result)
  : outcome (gmap string platform_result) * nat :=
  match order with
  | [] => (Return results, O)
  | platform :: rest =>
      match settle_one env jobId platform results with
      | Throw m => (Throw m, length rest)
      | Return results' => promise_all env jobId rest results'
      end
  end.

(** The value of a successful call. *)
Record generation := Generation {
  g_jobId : string;
  g_outputDir : string;
  g_results : gmap string platform_result;
  g_downloadUrl : string
}.

(** [generateMultiPlatformApp(planningData, jobId)] for the platforms of
    [planningData], the suspended callbacks settling in the order [order].
    The [catch] block logs and throws the error again.  The second
    component is the number of callbacks still in flight when the call
    settles. *)
Definition generateMultiPlatformApp (env : collaborators)
    (platforms : list string) (jobId : string) (order : list string)
  : outcome generation * nat :=
  match ensureDir env (outputDir jobId) with
  | Throw m => (Throw m, O)
  | Return _ =>
      match promise_all env jobId order (started platforms) with
      | (Throw m, in_flight) => (Throw m, in_flight)
      | (Return results, in_flight) =>
          match generateDocumentation env with
          | Throw m => (Throw m, in_flight)
          | Return _ =>
              (Return {| g_jobId := jobId;
                         g_outputDir := outputDir jobId;
                         g_results := results;
                         g_downloadUrl := "/api/download/" ++ jobId |},
               in_flight)
          end
      end
  end.

(** The entry that the specification asks for: the outcome of the
    platform's own generation, a failure being recorded in the entry. *)
Definition expected_result (env : collaborators) (platform : string)
  : platform_result :=
  if bool_decide (platform ∈ agents) then
    match generateCode env platform with
    | Return code => Generated (files code) (structure code)
    | Throw m => NotGenerated m
    end
  else NotGenerated (not_supported platform).

(** The orders in which the suspended callbacks can settle. *)
Definition settle_order (platforms order : list string) : Prop :=
  order ≡ₚ suspended platforms.

End CodeGenerator.

(** ** Inputs of the examples on the generation *)

Module GenerationExamples.

Import CodeGenerator.

(** Two platforms: the first agent gets its code, the second one's model
    call fails. *)
Definition one_fails : collaborators :=
  {| ensureDir := fun _ => Return tt;
     generateCode := fun platform =>
       if String.eqb platform "android"
       then Throw (js "Could not process AI response: Unexpected token")
       else Return (Code [js "App.swift"] (JObject []));
     generateDocumentation := Return tt;
     not_a_function :=
       js "this.agents[platform].generateCode is not a function" |}.

(** All agents succeed. *)
Definition all_succeed : collaborators :=
  {| ensureDir := fun _ => Return tt;
     generateCode := fun _ => Return (Code [js "App.swift"] (JObject []));
     generateDocumentation := Return tt;
     not_a_function :=
       js "this.agents[platform].generateCode is not a function" |}.

End GenerationExamples.

(* ===================================================================== *)
(** * The asynchronous runners and the cancellation route *)
(* ===================================================================== *)

(** The steps below are those of [JobManager]: a read or a write of the
    file of the job is one step, and no two of them overlap. *)

Module Pipeline.

Import Status.

(** The body of a runner's [try] block: updates of the job record and
    calls to collaborators, each awaited.  The updates of an [Update] are
    built when the statement is reached, from the time then. *)
Inductive prog :=
| Done
| Update (updates : jsstring -> Job) (next : prog)
| Work (name : string) (next : json -> prog).

Definition fields (l : list (string * json)) : Job := list_to_map l.

(** [generateAppAsync].  The value of [analyzeDescription] stands for the
    planning data after the preferences and the platforms are set in it. *)
Definition generateAppAsync : prog :=
  Update (fun _ => fields [("status", text "planning")]) (
  Work "analyzeDescription" (fun planningData =>
  Update (fun _ => fields [("status", text "generating");
                           ("planningData", planningData);
                           ("progress", number 25)]) (
  Work "generateMultiPlatformApp" (fun generationResult =>
  Update (fun _ => fields [("status", text "packaging");
                           ("progress", number 80)]) (
  Work "packageGeneratedCode" (fun packagedResult =>
  Update (fun now => fields [("status", text "completed");
                             ("progress", number 100);
                             ("result", packagedResult);
                             ("completedAt", JString now)])
  Done)))))).

Definition array_length (v : json) : json :=
  match v with
  | JArray items => number (Z.of_nat (length items))
  | _ => JNull
  end.

(** [analyzeCodeAsync] *)
Definition analyzeCodeAsync : prog :=
  Update (fun _ => fields [("status", text "extracting");
                           ("progress", number 10)]) (
  Work "extractCodeFiles" (fun extractedFiles =>
  Update (fun _ => fields [("status", text "analyzing");
                           ("progress", number 30)]) (
  Work "analyzeExistingCode" (fun analysis =>
  Update (fun _ => fields [("status", text "generating_recommendations");
                           ("progress", number 70)]) (
  Work "generateRecommendations" (fun recommendations =>
  Update (fun now =>
            fields [("status", text "completed");
                    ("progress", number 100);
                    ("result",
                     JObject [(js "analysis", analysis);
                              (js "recommendations", recommendations);
                              (js "files_analyzed", array_length extractedFiles)]);
                    ("completedAt", JString now)])
  Done)))))).

(** [modernizeCodeAsync] *)
Definition modernizeCodeAsync : prog :=
  Update (fun _ => fields [("status", text "extracting");
                           ("progress", number 10)]) (
  Work "extractCodeFiles" (fun extractedFiles =>
  Update (fun _ => fields [("status", text "analyzing");
                           ("progress", number 25)]) (
  Work "analyzeExistingCode" (fun analysis =>
  Update (fun _ => fields [("status", text "modernizing");
                           ("progress", number 50)]) (
  Work "modernizeCode" (fun modernizedCode =>
  Update (fun _ => fields [("status", text "packaging");
                           ("progress", number 85)]) (
  Work "packageModernizedCode" (fun packagedResult =>
  Update (fun now => fields [("status", text "completed");
                             ("progress", number 100);
                             ("result", packagedResult);
                             ("completedAt", JString now)])
  Done)))))))).

(** Where a runner is suspended. *)
Inductive runner :=
| Reading (in_catch : bool) (updates : Job) (next : prog)
| Writing (in_catch : bool) (updatedJob : Job) (next : prog)
| Working (name : string) (next : json -> prog)
| Finished
| Rejected (message : jsstring).

(** Run on from [p] to the next [await]. *)
Definition resume (p : prog) (now : jsstring) : runner :=
  match p with
  | Done => Finished
  | Update updates next => Reading false (updates now) next
  | Work name next => Working name next
  end.

(** The [catch] block: one update, awaited. *)
Definition caught (message : jsstring) (now : jsstring) : runner :=
  Reading true
    (fields [("status", text "failed");
             ("error", JString message);
             ("failedAt", JString now)])
    Done.

(** What the runner awaits completes: [result] is the outcome of the
    collaborator when it is one that was awaited. *)
Definition runner_step (jobId : string) (st : store) (r : runner)
    (now : jsstring) (result : outcome json) : store * runner :=
  match r with
  | Reading in_catch updates next =>
      match updateJob_read st jobId updates now with
      | Return updatedJob => (st, Writing in_catch updatedJob next)
      | Throw m => (st, if in_catch then Rejected m else caught m now)
      end
  | Writing in_catch updatedJob next =>
      (updateJob_write st jobId updatedJob,
       if in_catch then Finished else resume next now)
  | Working _ next =>
      match result with
      | Return v => (st, resume (next v) now)
      | Throw m => (st, caught m now)
      end
  | Finished | Rejected _ => (st, r)
  end.

(** Where the handler of [DELETE /api/status/:jobId] is suspended. *)
Inductive cancel :=
| Checking
| CReading (updates : Job)
| CWriting (updatedJob : Job)
| Responded (code : Z).

Definition cancel_step (jobId : string) (st : store) (c : cancel)
    (now : jsstring) : store * cancel :=
  match c with
  | Checking =>
      match getJob st jobId with
      | None => (st, Responded 404)
      | Some job =>
          if is_status job "completed" || is_status job "failed"
          then (st, Responded 400)
          else (st, CReading (fields [("status", text "cancelled");
                                      ("cancelledAt", JString now)]))
      end
  | CReading updates =>
      match updateJob_read st jobId updates now with
      | Return updatedJob => (st, CWriting updatedJob)
      | Throw _ => (st, Responded 500)
      end
  | CWriting updatedJob => (updateJob_write st jobId updatedJob, Responded 200)
  | Responded _ => (st, c)
  end.

(** One job: its store, its runner, and the cancellation requests
    received so far. *)
Record system := System {
  jobs : store;
  run : runner;
  requests : list cancel
}.

(** What can happen next: what the runner awaits completes, a
    cancellation request arrives, or what the [i]-th request awaits
    completes. *)
Inductive event :=
| Runner (now : jsstring) (result : outcome json)
| Request
| Cancel (i : nat) (now : jsstring).

Definition step (jobId : string) (s : system) (e : event) : system :=
  match e with
  | Runner now result =>
      let '(st, r) := runner_step jobId (jobs s) (run s) now result in
      {| jobs := st; run := r; requests := requests s |}
  | Request =>
      {| jobs := jobs s; run := run s; requests := requests s ++ [Checking] |}
  | Cancel i now =>
      match requests s !! i with
      | None => s
      | Some c =>
          let '(st, c') := cancel_step jobId (jobs s) c now in
          {| jobs := st; run := run s; requests := <[i := c']> (requests s) |}
      end
  end.

(** The states after each event of a schedule. *)
Fixpoint trace (jobId : string) (s : system) (sched : list event)
  : list system :=
  match sched with
  | [] => []
  | e :: sched => let s' := step jobId s e in s' :: trace jobId s' sched
  end.

Definition exec (jobId : string) (s : system) (sched : list event) : system :=
  foldl (step jobId) s sched.

(** The route handler creates the job and calls the runner, which runs to
    its first [await]. *)
Definition start (p : prog) (st : store) (jobId : string) (jobData : Job)
    (now : jsstring) : system :=
  {| jobs := fst (createJob st jobId jobData now now);
     run := resume p now;
     requests := [] |}.

(** The stored record of the job. *)
Definition record (jobId : string) (s : system) : Job :=
  default ∅ (jobs s !! jobId).

Definition is_runner_event (e : event) : bool :=
  match e with Runner _ _ => true | _ => false end.

(** Where a runner is suspended, without the record it is about to
    write. *)
Definition control (r : runner) : runner :=
  match r with
  | Writing in_catch _ next => Writing in_catch ∅ next
  | _ => r
  end.

(** The collaborator a runner is waiting for. *)
Definition working_on (r : runner) : option string :=
  match r with Working name _ => Some name | _ => None end.

End Pipeline.

(* ===================================================================== *)
(** * The job files when accesses overlap *)
(* ===================================================================== *)

Module JobFiles.

(** [fs.writeJson] opens the file, which empties it, and writes the text
    of the record once the file is open; [getJob] answers [null] whenever
    [fs.readJson] fails.  A file that is read between the two steps of a
    write holds no record, and so may one that two writes have been
    written to since it was last emptied: each text is written from the
    start of the file, so the second one is laid over the first one, and
    what sticks out of the first one stays.  The text of a record is an
    object followed by a line feed: with more than a line feed sticking
    out, what the file holds is the text of no record.

    [content] is the record that [fs.readJson] finds, [None] when the
    text is not that of a record; [written] tells that a text has been
    written since the file was last emptied. *)
Record file := File {
  content : option Job;
  written : bool
}.

Abbreviation disk := (gmap string file).

(** A file that holds the text of one record, and a file that has just
    been opened for writing. *)
Definition whole (job : Job) : file := {| content := Some job; written := true |}.

Definition truncated : file := {| content := None; written := false |}.

(** A jobs directory in which no write is under way. *)
Definition on_disk (st : store) : disk := whole <$> st.

(** [createJob(jobId, jobData)], nothing else touching the file between
    the two steps of its write. *)
Definition createJob (d : disk) (jobId : string) (jobData : Job)
    (createdAt updatedAt : jsstring) : disk * outcome Job :=
  let job :=
    <["updatedAt" := JString updatedAt]>
      (<["createdAt" := JString createdAt]>
         (spread {["id" := text jobId]} jobData)) in
  (<[jobId := whole job]> d, Return job).

(** [getJob(jobId)]: [None] is the [null] result, for a file that does
    not exist and for one that does not hold a record. *)
Definition getJob (d : disk) (jobId : string) : option Job :=
  d !! jobId ≫= content.

(** [updateJob(jobId, updates)] up to the call of [fs.writeJson]. *)
Definition updateJob_read (d : disk) (jobId : string) (updates : Job)
    (now : jsstring) : outcome Job :=
  match getJob d jobId with
  | None => Throw (not_found jobId)
  | Some job => Return (merge job updates now)
  end.

(** [fs.writeJson], first step: the file is opened and emptied. *)
Definition writeJson_open (d : disk) (jobId : string) : disk :=
  <[jobId := truncated]> d.

(** The text of [updatedJob] laid over what the file holds: over an empty
    file it is the whole text; over a text written by another call in the
    meantime, [covers] tells whether it hides all of it, its last line
    feed apart. *)
Definition overlay (f : file) (updatedJob : Job) (covers : bool) : file :=
  if written f && negb covers
  then {| content := None; written := true |}
  else whole updatedJob.

(** [fs.writeJson], second step: the text is written from the start of
    the file.  (The file exists from the first step on: nothing here
    removes it.) *)
Definition writeJson_write (d : disk) (jobId : string) (updatedJob : Job)
    (covers : bool) : disk :=
  match d !! jobId with
  | Some f => <[jobId := overlay f updatedJob covers]> d
  | None => d
  end.

(** The call when nothing else touches the file from its read to the end
    of its write. *)
Definition updateJob (d : disk) (jobId : string) (updates : Job)
    (now : jsstring) : disk * outcome Job :=
  match updateJob_read d jobId updates now with
  | Return updatedJob =>
      (writeJson_write (writeJson_open d jobId) jobId updatedJob true,
       Return updatedJob)
  | Throw m => (d, Throw m)
  end.

(** ** Two calls in flight *)

Record call := Call {
  call_id : string;
  call_updates : Job;
  call_now : jsstring
}.

(** Where a call is: before its read, after it with the merged record,
    after the file has been opened, or settled. *)
Inductive call_state :=
| Called
| Merged (updatedJob : Job)
| Opened (updatedJob : Job)
| Settled (result : outcome Job).

(** The pending step of a call completes. *)
Definition advance (d : disk) (c : call) (s : call_state) (covers : bool)
  : disk * call_state :=
  match s with
  | Called =>
      match updateJob_read d (call_id c) (call_updates c) (call_now c) with
      | Return u => (d, Merged u)
      | Throw m => (d, Settled (Throw m))
      end
  | Merged u => (writeJson_open d (call_id c), Opened u)
  | Opened u => (writeJson_write d (call_id c) u covers, Settled (Return u))
  | Settled _ => (d, s)
  end.

(** Which of the two calls moves next. *)
Inductive turn := First | Second.

(** A schedule names the call that moves and, for the step that writes a
    text, whether the text hides what it is laid over. *)
Fixpoint interleave (a b : call) (sched : list (turn * bool))
    (d : disk) (sa sb : call_state) : disk * call_state * call_state :=
  match sched with
  | [] => (d, sa, sb)
  | (First, covers) :: sched =>
      let '(d', sa') := advance d a sa covers in interleave a b sched d' sa' sb
  | (Second, covers) :: sched =>
      let '(d', sb') := advance d b sb covers in interleave a b sched d' sa sb'
  end.

Definition settled (s : call_state) : bool :=
  match s with Settled _ => true | _ => false end.

(** A property of the record that a file holds. *)
Definition file_field (d : disk) (jobId k : string) : option json :=
  getJob d jobId ≫= (.!! k).

(** A property of the record a settled call has returned. *)
Definition settled_field (s : call_state) (k : string) : option json :=
  match s with
  | Settled (Return r) => r !! k
  | _ => None
  end.

End JobFiles.

(** ** Two calls of [updateJob] on one job *)

Module Overlaps.

Import JobFiles.

Section SameJob.

Variables (jobId : string) (job ua ub : Job) (ta tb : jsstring).

(** The records a call can write: its updates merged over the original
    record, or over what the other call wrote. *)
Let a_first := merge job ua ta.
Let b_first := merge job ub tb.
Let a_second := merge b_first ua ta.
Let b_second := merge a_first ub tb.

(** A text that is not that of a record: one text laid over a longer
    one. *)
Let mixed : file := {| content := None; written := true |}.

(** A call whose read found no record. *)
Let lost : call_state := Settled (Throw (not_found jobId)).

(** The states that two calls on one job can be in: the file and where
    each call is. *)
Inductive reachable : file -> call_state -> call_state -> Prop :=
| r_start : reachable (whole job) Called Called
| r_a_read : reachable (whole job) (Merged a_first) Called
| r_b_read : reachable (whole job) Called (Merged b_first)
| r_both_read : reachable (whole job) (Merged a_first) (Merged b_first)
| r_a_open : reachable truncated (Opened a_first) Called
| r_b_open : reachable truncated Called (Opened b_first)
| r_a_open_b_lost : reachable truncated (Opened a_first) lost
| r_b_open_a_lost : reachable truncated lost (Opened b_first)
| r_a_done_b_lost :
    reachable (whole a_first) (Settled (Return a_first)) lost
| r_b_done_a_lost :
    reachable (whole b_first) lost (Settled (Return b_first))
| r_a_done : reachable (whole a_first) (Settled (Return a_first)) Called
| r_b_done : reachable (whole b_first) Called (Settled (Return b_first))
| r_a_done_b_read :
    reachable (whole a_first) (Settled (Return a_first)) (Merged b_second)
| r_b_done_a_read :
    reachable (whole b_first) (Merged a_second) (Settled (Return b_first))
| r_a_done_b_open :
    reachable truncated (Settled (Return a_first)) (Opened b_second)
| r_b_done_a_open :
    reachable truncated (Opened a_second) (Settled (Return b_first))
| r_a_then_b :
    reachable (whole b_second) (Settled (Return a_first)) (Settled (Return b_second))
| r_b_then_a :
    reachable (whole a_second) (Settled (Return a_second)) (Settled (Return b_first))
| r_a_open_b_stale : reachable truncated (Opened a_first) (Merged b_first)
| r_b_open_a_stale : reachable truncated (Merged a_first) (Opened b_first)
| r_a_done_b_stale :
    reachable (whole a_first) (Settled (Return a_first)) (Merged b_first)
| r_b_done_a_stale :
    reachable (whole b_first) (Merged a_first) (Settled (Return b_first))
| r_a_done_b_reopen :
    reachable truncated (Settled (Return a_first)) (Opened b_first)
| r_b_done_a_reopen :
    reachable truncated (Opened a_first) (Settled (Return b_first))
| r_both_open : reachable truncated (Opened a_first) (Opened b_first)
| r_a_landed : reachable (whole a_first) (Settled (Return a_first)) (Opened b_first)
| r_b_landed : reachable (whole b_first) (Opened a_first) (Settled (Return b_first))
| r_b_last :
    reachable (whole b_first) (Settled (Return a_first)) (Settled (Return b_first))
| r_a_last :
    reachable (whole a_first) (Settled (Return a_first)) (Settled (Return b_first))
| r_mixed :
    reachable mixed (Settled (Return a_first)) (Settled (Return b_first)).

End SameJob.

(** What a call has done to the file of its own job. *)
Definition file_after (j : Job) (u : Job) (t : jsstring) (s : call_state) : file :=
  match s with
  | Opened _ => truncated
  | Settled _ => whole (merge j u t)
  | _ => whole j
  end.

Definition on_track (j u : Job) (t : jsstring) (s : call_state) : Prop :=
  s = Called \/ s = Merged (merge j u t) \/ s = Opened (merge j u t) \/
  s = Settled (Return (merge j u t)).

End Overlaps.

(* ===================================================================== *)
(** * The status route: the answer and its estimate *)
(* ===================================================================== *)

Module Estimate.

Import JsObject Status JobFiles.

(** The table [baseEstimates], in seconds. *)
Definition baseEstimates : list (string * Z) :=
  [("generate", 8 * 60); ("analyze", 5 * 60); ("modernize", 10 * 60)]%string.

(** What [baseEstimates[job.type] || 5 * 60] gives: a number of seconds,
    or a value that is no number. *)
Inductive base :=
| Seconds (n : Z)
| Other.

(** [baseEstimates[key]]: an entry of the table, a property that the
    table inherits, or [undefined] (here [None]). *)
Definition baseEstimates_at (key : jsstring) : option base :=
  match List.find (fun e => bool_decide (js (fst e) = key)) baseEstimates with
  | Some e => Some (Seconds (snd e))
  | None =>
      if bool_decide (key ∈ js <$> Object_prototype) then Some Other else None
  end.

(** [baseEstimates[job.type] || 5 * 60] for a job whose type is a string
    or is not set (the key is then [undefined], which the table does not
    have); [None] for a type of any other kind. *)
Definition baseTime (j : Job) : option base :=
  match j !! "type" with
  | None => Some (Seconds (5 * 60))
  | Some (JString t) => Some (default (Seconds (5 * 60)) (baseEstimates_at t))
  | Some _ => None
  end.

(** [Math.ceil(a / 100)] on an integer [a]. *)
Definition ceil_div100 (a : Z) : Z := - ((- a) / 100).

(** [Number.MAX_SAFE_INTEGER]: up to it the product and the rounded
    quotient of the source's numbers are those of the integers. *)
Definition MAX_SAFE_INTEGER : Z := 2 ^ 53 - 1.

(** What [calculateEstimatedTime] returns: a number of seconds, or
    [NaN]. *)
Inductive estimate :=
| Secs (n : Z)
| NaN.

(** [calculateEstimatedTime(job)]; [None] where the type or the progress
    is of a kind that is not covered, or the product is no safe integer. *)
Definition calculateEstimatedTime (j : Job) : option estimate :=
  if terminal j then Some (Secs 0)
  else
    match baseTime j with
    | Some Other => Some NaN
    | Some (Seconds baseTime) =>
        match progress_or_0 j with
        | Some progress =>
            let remainingProgress := 100 - progress in
            if Z.abs (baseTime * remainingProgress) <=? MAX_SAFE_INTEGER
            then Some (Secs (ceil_div100 (baseTime * remainingProgress)))
            else None
        | None => None
        end
    | None => None
    end.




(** A job whose type is not set, or is a string that is no name of a
    property that every object inherits. *)
Definition plain_type (j : Job) : Prop :=
  j !! "type" = None \/
  exists t, j !! "type" = Some (JString t) /\ t ∉ js <$> Object_prototype.

(** The seconds of an estimate that is a number. *)
Definition seconds (e : estimate) : option Z :=
  match e with Secs n => Some n | NaN => None end.

End Estimate.

(* ===================================================================== *)
(** * Predicates used in the proofs *)
(* ===================================================================== *)

(** ** What the records of a job hold while its runner runs *)

Module Invariants.

Import Pipeline Status.

(** Neither completed nor failed. *)
Definition unfinished (j : Job) : Prop :=
  is_status j "completed" = false /\ is_status j "failed" = false.

(** A record of a job whose run is still going on. *)
Definition calm (j : Job) : Prop :=
  j !! "result" = None /\ j !! "error" = None /\ unfinished j.

(** The three kinds of updates the runners and the route issue. *)
Definition stage_update (u : Job) : Prop :=
  is_Some (u !! "status") /\ unfinished u /\
  u !! "result" = None /\ u !! "error" = None.

Definition final_update (u : Job) : Prop :=
  is_status u "completed" = true /\ is_Some (u !! "result") /\
  u !! "error" = None.

(** A body whose updates are stage updates up to a last one that
    completes the job. *)
Inductive staged : prog -> Prop :=
| staged_done : staged Done
| staged_final u : (forall now, final_update (u now)) -> staged (Update u Done)
| staged_update u k :
    (forall now, stage_update (u now)) -> staged k -> staged (Update u k)
| staged_work n k : (forall v, staged (k v)) -> staged (Work n k).

(** A body whose updates set the progress to checkpoints that never go
    down, starting from [lo]; an update that leaves the progress alone
    comes before any checkpoint. *)
Inductive climbs : Z -> prog -> Prop :=
| climbs_done lo : climbs lo Done
| climbs_set lo c u k :
    (forall now, u now !! "progress" = Some (number c)) ->
    lo <= c <= 100 -> climbs c k -> climbs lo (Update u k)
| climbs_keep u k :
    (forall now, u now !! "progress" = None) ->
    climbs 0 k -> climbs 0 (Update u k)
| climbs_work lo n k : (forall v, climbs lo (k v)) -> climbs lo (Work n k).

End Invariants.

(* ===================================================================== *)
(** * Inputs of the examples *)
(* ===================================================================== *)

Module Examples.

Import Extractor Pipeline.

(** An engine, and literals written with an apostrophe wherever the text
    has a double quote. *)
Definition engine_message (text : jsstring) : jsstring :=
  js "Unexpected token in JSON".

Definition newline : string := String (ascii_of_nat 10) EmptyString.

Definition jsq (s : string) : jsstring :=
  (fun c => if N.eqb c 39 then 34%N else c) <$> js s.

(** A fenced block that does not parse, followed by a well-formed value. *)
Definition fenced_then_braces : jsstring :=
  jsq ("```" ++ newline ++ "not json" ++ newline ++ "``` {'a': 1}").

(** The fourth case of the source's own test. *)
Definition plain_text : jsstring :=
  js "This is not JSON at all, just plain text.".

(** A finished job and a second creation under its id. *)
Definition finished_job : Job :=
  list_to_map [("id", text "J1"); ("type", text "generate");
               ("status", text "completed"); ("progress", number 100);
               ("result", JObject [])].

Definition second_data : Job :=
  list_to_map [("type", text "analyze"); ("status", text "extracting")].

Definition running_job : Job :=
  list_to_map [("id", text "J1"); ("type", text "generate");
               ("status", text "generating"); ("progress", number 25)].


(** A generation request. *)
Definition request_data : Job :=
  fields [("type", text "generate");
          ("description", text "A simple to-do list app");
          ("status", text "planning")].

Definition created : system :=
  start generateAppAsync ∅ "J1" request_data (js "t0").

(** The first update of the runner: the status [planning] is stored and
    the planning stage starts. *)
Definition first_update : list event :=
  [Runner (js "t1") (Return JNull); Runner (js "t1") (Return JNull)].

(** A cancellation request, handled from its arrival to its answer. *)
Definition cancellation : list event :=
  [Request; Cancel 0 (js "t2"); Cancel 0 (js "t2"); Cancel 0 (js "t2")].

(** The planning stage returns and the second update is made. *)
Definition second_update : list event :=
  [Runner (js "t3") (Return (JObject []));
   Runner (js "t3") (Return JNull); Runner (js "t3") (Return JNull)].

(** The rest of the run. *)
Definition last_updates : list event :=
  [Runner (js "t4") (Return (JObject []));
   Runner (js "t4") (Return JNull); Runner (js "t4") (Return JNull);
   Runner (js "t5") (Return (JObject []));
   Runner (js "t5") (Return JNull); Runner (js "t5") (Return JNull)].

(** A whole run, and the same run with the job cancelled while the
    planning stage is in flight. *)
Definition run_on : list event :=
  first_update ++ second_update ++ last_updates.

Definition cancelled_run : list event :=
  first_update ++ cancellation ++ second_update ++ last_updates.

(** The planning stage fails. *)
Definition planning_fails : list event :=
  first_update ++
  [Runner (js "t3") (Throw (js "Planning analysis failed: rate limited"));
   Runner (js "t4") (Return JNull); Runner (js "t4") (Return JNull)].

End Examples.

(* ===================================================================== *)
(** * How a run ends: shapes of runners and schedules *)
(* ===================================================================== *)

Module RunShape.

Import Pipeline Status.

(** A body whose last update stores the status [completed], every update
    before it storing some status. *)
Inductive closes : prog -> Prop :=
| closes_final u :
    (forall now, is_status (u now) "completed" = true) -> closes (Update u Done)
| closes_update u k :
    (forall now, is_Some (u now !! "status")) -> closes k -> closes (Update u k)
| closes_work name k : (forall v, closes (k v)) -> closes (Work name k).

(** Nothing is under way: the runner has returned and no cancellation
    request is past its check of the status. *)
Definition quiet (s : system) : Prop :=
  (run s = Finished \/ exists m, run s = Rejected m) /\
  Forall (fun c => c = Checking \/ exists code, c = Responded code) (requests s).

(** The completions that a runner awaits, one after the other and with
    nothing in between; the [i]-th one happens at [clock i].  The
    completion of a read or of a write carries no value. *)
Definition completions (clock : nat -> jsstring) (results : list (outcome json))
  : list event :=
  imap (fun i result => Runner (clock (S i)) result) results.

(** What a stage awaits: the read and the write of its update, then its
    collaborator. *)
Definition stage (result : outcome json) : list (outcome json) :=
  [Return JNull; Return JNull; result].

End RunShape.

Module RunExamples.

Import Pipeline Examples.

(** A job whose generation stage is in flight, and a job at rest after
    its run. *)
Definition generating : system :=
  {| jobs := {["J1" := running_job]};
     run := Working "generateMultiPlatformApp" (fun _ => Done);
     requests := [] |}.

Definition at_rest : system :=
  {| jobs := {["J1" := finished_job]}; run := Finished; requests := [] |}.

End RunExamples.

(** ** Inputs of the examples on job files *)

Module FileExamples.

Import JobFiles Examples.

(** The update of the cancellation route and a progress report, both on
    the job [J1]. *)
Definition cancel_call : call :=
  Call "J1"
    (list_to_map [("status", text "cancelled"); ("cancelledAt", text "t2")])
    (js "t2").

Definition progress_call : call :=
  Call "J1" (list_to_map [("progress", number 80)]) (js "t3").

Definition running : disk := {["J1" := whole running_job]}.


(** One call after the other. *)
Definition in_turn : disk * call_state * call_state :=
  interleave cancel_call progress_call
    [(First, true); (First, true); (First, true);
     (Second, true); (Second, true); (Second, true)]
    running Called Called.

(** Both calls read; then the first one writes, then the second one. *)
Definition racing : disk * call_state * call_state :=
  interleave cancel_call progress_call
    [(First, true); (Second, true); (First, true); (First, true);
     (Second, true); (Second, true)]
    running Called Called.

(** Both calls read, both open the file, and both write their text: the
    shorter text of the progress report is laid over the longer one of the
    cancellation. *)
Definition overlapping : disk * call_state * call_state :=
  interleave cancel_call progress_call
    [(First, true); (Second, true); (First, true); (Second, true);
     (First, true); (Second, false)]
    running Called Called.

(** The progress report reads; the cancellation is made from its read to
    the end of its write; then the progress report writes. *)
Definition cancelled_between : disk * call_state * call_state :=
  interleave cancel_call progress_call
    [(Second, true); (First, true); (First, true); (First, true)]
    running Called Called.

Definition stale_write : disk * call_state * call_state :=
  interleave cancel_call progress_call
    [(Second, true); (First, true); (First, true); (First, true);
     (Second, true); (Second, true)]
    running Called Called.

End FileExamples.

(* ===================================================================== *)
(** * The runners and the cancellation route when file accesses overlap *)
(* ===================================================================== *)

Module Overlap.

Import Status JobFiles.
Import Pipeline(prog(..), fields, generateAppAsync, analyzeCodeAsync,
                modernizeCodeAsync).

(** Where a runner is suspended: in [updateJob] before the read, before
    the file is opened or before the text is written, or on a
    collaborator. *)
Inductive runner :=
| Reading (in_catch : bool) (updates : Job) (next : prog)
| Opening (in_catch : bool) (updatedJob : Job) (next : prog)
| Writing (in_catch : bool) (updatedJob : Job) (next : prog)
| Working (name : string) (next : json -> prog)
| Finished
| Rejected (message : jsstring).

(** Run on from [p] to the next [await]. *)
Definition resume (p : prog) (now : jsstring) : runner :=
  match p with
  | Done => Finished
  | Update updates next => Reading false (updates now) next
  | Work name next => Working name next
  end.

(** The [catch] block: one update, awaited. *)
Definition caught (message : jsstring) (now : jsstring) : runner :=
  Reading true
    (fields [("status", text "failed");
             ("error", JString message);
             ("failedAt", JString now)])
    Done.

(** What the runner awaits completes: [result] is the outcome of the
    collaborator when it is one that was awaited, [covers] tells whether
    a text that is written hides what it is laid over. *)
Definition runner_step (jobId : string) (d : disk) (r : runner)
    (now : jsstring) (result : outcome json) (covers : bool) : disk * runner :=
  match r with
  | Reading in_catch updates next =>
      match updateJob_read d jobId updates now with
      | Return updatedJob => (d, Opening in_catch updatedJob next)
      | Throw m => (d, if in_catch then Rejected m else caught m now)
      end
  | Opening in_catch updatedJob next =>
      (writeJson_open d jobId, Writing in_catch updatedJob next)
  | Writing in_catch updatedJob next =>
      (writeJson_write d jobId updatedJob covers,
       if in_catch then Finished else resume next now)
  | Working _ next =>
      match result with
      | Return v => (d, resume (next v) now)
      | Throw m => (d, caught m now)
      end
  | Finished | Rejected _ => (d, r)
  end.

(** Where the handler of [DELETE /api/status/:jobId] is suspended. *)
Inductive cancel :=
| Checking
| CReading (updates : Job)
| COpening (updatedJob : Job)
| CWriting (updatedJob : Job)
| Responded (code : Z).

Definition cancel_step (jobId : string) (d : disk) (c : cancel)
    (now : jsstring) (covers : bool) : disk * cancel :=
  match c with
  | Checking =>
      match getJob d jobId with
      | None => (d, Responded 404)
      | Some job =>
          if is_status job "completed" || is_status job "failed"
          then (d, Responded 400)
          else (d, CReading (fields [("status", text "cancelled");
                                     ("cancelledAt", JString now)]))
      end
  | CReading updates =>
      match updateJob_read d jobId updates now with
      | Return updatedJob => (d, COpening updatedJob)
      | Throw _ => (d, Responded 500)
      end
  | COpening updatedJob => (writeJson_open d jobId, CWriting updatedJob)
  | CWriting updatedJob =>
      (writeJson_write d jobId updatedJob covers, Responded 200)
  | Responded _ => (d, c)
  end.

(** One job: the jobs directory, the job's runner, and the cancellation
    requests received so far. *)
Record system := System {
  jobs : disk;
  run : runner;
  requests : list cancel
}.

(** What can happen next: what the runner awaits completes, a
    cancellation request arrives, or what the [i]-th request awaits
    completes. *)
Inductive event :=
| Runner (now : jsstring) (result : outcome json) (covers : bool)
| Request
| Cancel (i : nat) (now : jsstring) (covers : bool).

Definition step (jobId : string) (s : system) (e : event) : system :=
  match e with
  | Runner now result covers =>
      let '(d, r) := runner_step jobId (jobs s) (run s) now result covers in
      {| jobs := d; run := r; requests := requests s |}
  | Request =>
      {| jobs := jobs s; run := run s; requests := requests s ++ [Checking] |}
  | Cancel i now covers =>
      match requests s !! i with
      | None => s
      | Some c =>
          let '(d, c') := cancel_step jobId (jobs s) c now covers in
          {| jobs := d; run := run s; requests := <[i := c']> (requests s) |}
      end
  end.

(** The states after each event of a schedule. *)
Fixpoint trace (jobId : string) (s : system) (sched : list event)
  : list system :=
  match sched with
  | [] => []
  | e :: sched => let s' := step jobId s e in s' :: trace jobId s' sched
  end.

Definition exec (jobId : string) (s : system) (sched : list event) : system :=
  foldl (step jobId) s sched.

(** The route handler creates the job and calls the runner, which runs to
    its first [await]. *)
Definition start (p : prog) (d : disk) (jobId : string) (jobData : Job)
    (now : jsstring) : system :=
  {| jobs := fst (createJob d jobId jobData now now);
     run := resume p now;
     requests := [] |}.

(** The record that [getJob] finds. *)
Definition record (jobId : string) (s : system) : option Job :=
  getJob (jobs s) jobId.

Definition is_runner_event (e : event) : bool :=
  match e with Runner _ _ _ => true | _ => false end.

(** Where a runner is suspended, without the record it is about to
    write. *)
Definition control (r : runner) : runner :=
  match r with
  | Opening in_catch _ next => Opening in_catch ∅ next
  | Writing in_catch _ next => Writing in_catch ∅ next
  | _ => r
  end.

(** The collaborator a runner is waiting for. *)
Definition working_on (r : runner) : option string :=
  match r with Working name _ => Some name | _ => None end.

(** The runner is about to read the job's file. *)
Definition reading (r : runner) : bool :=
  match r with Reading _ _ _ => true | _ => false end.

(** [getJob] finds a record. *)
Definition found (jobId : string) (s : system) : bool :=
  match record jobId s with Some _ => true | None => false end.

(** Every read of the runner in a schedule finds a record in the file. *)
Fixpoint reads_find_record (jobId : string) (s : system) (sched : list event)
  : bool :=
  match sched with
  | [] => true
  | e :: sched =>
      (negb (is_runner_event e && reading (run s)) || found jobId s)
      && reads_find_record jobId (step jobId s e) sched
  end.

(** The message with which the runner enters its [catch] block at an
    event, if it does: the message of the collaborator that failed, or
    that of [updateJob] when its read finds no record. *)
Definition catch_at (jobId : string) (s : system) (e : event)
  : option jsstring :=
  match e, run s with
  | Runner _ (Throw m) _, Working _ _ => Some m
  | Runner _ _ _, Reading false _ _ =>
      match record jobId s with
      | None => Some (not_found jobId)
      | Some _ => None
      end
  | _, _ => None
  end.

Fixpoint catches (jobId : string) (s : system) (sched : list event)
  : list jsstring :=
  match sched with
  | [] => []
  | e :: sched =>
      option_list (catch_at jobId s e) ++ catches jobId (step jobId s e) sched
  end.

End Overlap.

(** ** What the files of a job hold while its runner runs *)

Module OverlapInvariants.

Import Status JobFiles Overlap.
Import Pipeline(prog(..)).
Import Invariants(unfinished, calm, stage_update, final_update, staged(..),
                  climbs(..)).
Import RunShape(closes(..)).

(** What a record must hold: a completed job its result and no error, a
    failed job no result and one of the messages [caught] as its error,
    and no job both a result and an error. *)
Definition sound (caught : list jsstring) (j : Job) : Prop :=
  (is_status j "completed" = true ->
     is_Some (j !! "result") /\ j !! "error" = None) /\
  (is_status j "failed" = true ->
     j !! "result" = None /\
     exists m, j !! "error" = Some (JString m) /\ m ∈ caught) /\
  (j !! "result" = None \/ j !! "error" = None).

(** The update of a [catch] block. *)
Definition failed_update (caught : list jsstring) (u : Job) : Prop :=
  is_status u "failed" = true /\ u !! "result" = None /\
  exists m, u !! "error" = Some (JString m) /\ m ∈ caught.

Definition active (r : runner) : Prop :=
  match r with Finished | Rejected _ => False | _ => True end.

Definition runner_ok (caught : list jsstring) (r : runner) : Prop :=
  match r with
  | Reading false u k =>
      (stage_update u /\ staged k) \/ (final_update u /\ k = Done)
  | Reading true u _ => failed_update caught u
  | Opening false u k | Writing false u k =>
      (calm u /\ staged k) \/ (sound caught u /\ k = Done)
  | Opening true u _ | Writing true u _ => sound caught u
  | Working _ k => forall v, staged (k v)
  | Finished | Rejected _ => True
  end.

Definition request_ok (running : Prop) (c : cancel) : Prop :=
  match c with
  | CReading u => stage_update u
  | COpening u | CWriting u =>
      unfinished u /\ (u !! "result" = None \/ u !! "error" = None) /\
      (running -> calm u)
  | _ => True
  end.

Definition event_ok (e : event) : Prop :=
  match e with Runner _ (Throw m) _ => m <> [] | _ => True end.

Definition invariant (caught : list jsstring) (jobId : string) (s : system)
  : Prop :=
  (forall j, record jobId s = Some j ->
     sound caught j /\ (active (run s) -> calm j)) /\
  runner_ok caught (run s) /\
  Forall (request_ok (active (run s))) (requests s).

Definition runner_level (lo : Z) (alone : Prop) (r : runner) : Prop :=
  match r with
  | Reading false u k =>
      (exists c, u !! "progress" = Some (number c) /\ lo <= c <= 100 /\ climbs c k)
      \/ (u !! "progress" = None /\ lo = 0 /\ climbs 0 k)
  | Reading true u _ => u !! "progress" = None /\ terminal u = true
  | Opening false u k | Writing false u k =>
      exists c, progress_or_0 u = Some c /\ lo <= c <= 100 /\ climbs c k
  | Opening true u _ | Writing true u _ =>
      terminal u = true /\
      exists n, progress_or_0 u = Some n /\ 0 <= n <= lo /\ (alone -> n = lo)
  | Working _ k => forall v, climbs lo (k v)
  | Finished | Rejected _ => True
  end.

Definition request_level (lo : Z) (c : cancel) : Prop :=
  match c with
  | CReading u => u !! "progress" = None /\ terminal u = true
  | COpening u | CWriting u =>
      terminal u = true /\ exists n, progress_or_0 u = Some n /\ 0 <= n <= lo
  | _ => True
  end.

(** [lo] is the last checkpoint that the runner has written. *)
Definition level (jobId : string) (lo : Z) (s : system) : Prop :=
  0 <= lo <= 100 /\
  (forall j, record jobId s = Some j ->
     exists n, progress_or_0 j = Some n /\ 0 <= n <= lo /\
       (terminal j = false -> n = lo) /\ (requests s = [] -> n = lo)) /\
  runner_level lo (requests s = []) (run s) /\
  Forall (request_level lo) (requests s).

(** The progress of the records found in the states of a list: of those
    that are not terminal, and of all of them.  A state whose file holds
    no record shows no progress. *)
Definition nonterminal_progress (jobId : string) (l : list system) : list Z :=
  omap (fun s => record jobId s ≫= fun j =>
                 if terminal j then None else progress_or_0 j) l.

Definition all_progress (jobId : string) (l : list system) : list Z :=
  omap (fun s => record jobId s ≫= progress_or_0) l.

(** A runner whose last update, still to come, stores a terminal status. *)
Definition ending (r : runner) : Prop :=
  match r with
  | Reading false u k | Opening false u k | Writing false u k =>
      (k = Done /\ terminal u = true) \/ (is_Some (u !! "status") /\ closes k)
  | Reading true u _ | Opening true u _ | Writing true u _ => terminal u = true
  | Working _ k => forall v, closes (k v)
  | Finished | Rejected _ => True
  end.

Definition request_ending (c : cancel) : Prop :=
  match c with
  | CReading u | COpening u | CWriting u => terminal u = true
  | _ => True
  end.

Definition ends_terminal (jobId : string) (s : system) : Prop :=
  ending (run s) /\
  (run s = Finished -> forall j, record jobId s = Some j -> terminal j = true) /\
  Forall request_ending (requests s).

(** A runner that is past its [try] block: in its [catch] block, or
    settled. *)
Definition past_try (r : runner) : Prop :=
  match r with
  | Working _ _ | Reading false _ _ | Opening false _ _ | Writing false _ _ =>
      False
  | _ => True
  end.


(** Nothing but the runner has the file in hand: the file holds a record,
    or it is the runner that has emptied it. *)
Definition lonely (jobId : string) (s : system) : Prop :=
  match run s with
  | Writing _ _ _ => jobs s !! jobId = Some truncated
  | _ => is_Some (record jobId s)
  end.

End OverlapInvariants.

(** ** Inputs of the examples with overlapping file accesses *)

Module OverlapExamples.

Import JobFiles Overlap.
Import Pipeline(generateAppAsync).
Import Examples(request_data).

Definition created : system :=
  start generateAppAsync ∅ "J1" request_data (js "t0").

(** The three steps of an update of the runner. *)
Definition update_at (now : string) : list event :=
  [Runner (js now) (Return JNull) true; Runner (js now) (Return JNull) true;
   Runner (js now) (Return JNull) true].

(** A stage returns [v] and the next update is made. *)
Definition stage_at (now : string) (v : json) : list event :=
  Runner (js now) (Return v) true :: update_at now.

(** A cancellation request, handled from its arrival to its answer. *)
Definition cancellation : list event :=
  [Request; Cancel 0 (js "t2") true; Cancel 0 (js "t2") true;
   Cancel 0 (js "t2") true; Cancel 0 (js "t2") true].

(** A whole run, and the same run with the job cancelled while the
    planning stage is in flight. *)
Definition run_on : list event :=
  update_at "t1" ++ stage_at "t3" (JObject []) ++ stage_at "t4" (JObject [])
  ++ stage_at "t5" (JObject []).

Definition cancelled_run : list event :=
  update_at "t1" ++ cancellation ++ stage_at "t3" (JObject [])
  ++ stage_at "t4" (JObject []) ++ stage_at "t5" (JObject []).

(** The planning stage fails. *)
Definition planning_fails : list event :=
  update_at "t1" ++
  Runner (js "t3") (Throw (js "Planning analysis failed: rate limited")) true
  :: update_at "t4".

(** The job is cancelled during the generation stage; the handler has
    read the record, with the progress 25, when the stage returns and the
    runner writes the progress 80; then the handler writes its record, and
    the run goes on to its end. *)
Definition late_cancellation : list event :=
  update_at "t1" ++ stage_at "t3" (JObject []) ++
  [Request; Cancel 0 (js "t4") true; Cancel 0 (js "t4") true] ++
  stage_at "t5" (JObject []) ++
  [Cancel 0 (js "t6") true; Cancel 0 (js "t6") true] ++
  stage_at "t7" (JObject []).

(** The planning stage returns while the handler of a cancellation
    request is between the two steps of its write: the runner's read
    finds no record. *)
Definition torn_read : list event :=
  update_at "t1" ++
  [Request; Cancel 0 (js "t2") true; Cancel 0 (js "t2") true;
   Cancel 0 (js "t2") true;
   Runner (js "t3") (Return (JObject [])) true;
   Runner (js "t3") (Return JNull) true;
   Cancel 0 (js "t3") true].


End OverlapExamples.

(** ** Inputs of the examples on the failure report *)

Module ReportExamples.




End ReportExamples.

(** ** The estimate along a run *)

Module Pace.

Import Pipeline Status Estimate.






(** The estimates that the status route gives in the states of a list,
    where they are numbers. *)
Definition estimates (jobId : string) (l : list system) : list Z :=
  omap (fun s => calculateEstimatedTime (record jobId s) ≫= seconds) l.

End Pace.

(* ===================================================================== *)
(** * JobManager: the jobs directory *)
(* ===================================================================== *)

Module JobDirectory.

Import Status.

(** [deleteJob(jobId)]: [fs.remove] of the job's file, which does nothing
    when the file is not there. *)
Definition deleteJob (st : store) (jobId : string) : store := delete jobId st.

(** The name of a job's file in the jobs directory: [<jobId>.json]. *)
Definition job_file (jobId : string) : string := jobId +:+ ".json".

(** [file.endsWith('.json')], with the job id that the name starts with
    when it does. *)
Definition job_of_file (file : string) : option string :=
  let name := list_ascii_of_string file in
  let n := (length name - 5)%nat in
  if decide (drop n name = list_ascii_of_string ".json")
  then Some (string_of_list_ascii (take n name))
  else None.

Definition endsWith_json (file : string) : bool :=
  bool_decide (is_Some (job_of_file file)).

(** [array.slice(start, end)] for integers. *)
Definition slice {A} (l : list A) (start stop : Z) : list A :=
  let len := Z.of_nat (length l) in
  let k := if start <? 0 then Z.max (len + start) 0 else Z.min start len in
  let final := if stop <? 0 then Z.max (len + stop) 0 else Z.min stop len in
  take (Z.to_nat (final - k)) (drop (Z.to_nat k) l).

(** The value that [listJobs] returns. *)
Record job_list := JobList {
  l_jobs : list Job;
  l_total : Z;
  l_limit : Z;
  l_offset : Z
}.

(** The jobs directory and the directory of the generated archives, by
    path. *)
Record disk := Disk {
  jobs_dir : store;
  generated : gset jsstring
}.

Section WithFiles.

(** What [fs.readdir] gives for the jobs directory; the message of the
    error of [fs.readJson] for a file that cannot be read; the time value
    of [new Date(v)], [None] when it is [NaN]; the path
    [path.join('./generated', `${id}.zip`)]. *)
Variable files : list string.
Variable read_error : string -> jsstring.
Variable Date_value : option json -> option Z.
Variable zip_path : option json -> jsstring.

Definition readJson (st : store) (file : string) : outcome Job :=
  match job_of_file file ≫= (st !!.) with
  | Some job => Return job
  | None => Throw (read_error file)
  end.

(** The loop of [listJobs]: the files of the page are read in turn, and
    the first one that cannot be read ends the call. *)
Fixpoint read_all (st : store) (page : list string) : outcome (list Job) :=
  match page with
  | [] => Return []
  | file :: page =>
      match readJson st file with
      | Throw m => Throw m
      | Return job =>
          match read_all st page with
          | Throw m => Throw m
          | Return jobs => Return (job :: jobs)
          end
      end
  end.

(** [new Date(b.createdAt) - new Date(a.createdAt)]; a [NaN] counts as 0
    in a sort. *)
Definition by_creation (a b : Job) : Z :=
  match Date_value (b !! "createdAt"), Date_value (a !! "createdAt") with
  | Some tb, Some ta => tb - ta
  | _, _ => 0
  end.

(** [Array.prototype.sort] is stable: an element goes before the first
    one that the comparison puts it strictly before or level with, among
    those that came after it. *)
Fixpoint sort_insert (a : Job) (sorted : list Job) : list Job :=
  match sorted with
  | [] => [a]
  | b :: rest =>
      if by_creation a b <=? 0 then a :: sorted else b :: sort_insert a rest
  end.

Definition sort (jobs : list Job) : list Job := foldr sort_insert [] jobs.

(** The creation date of a job can be read; [a] is not older than [b]. *)
Definition dated (job : Job) : Prop := is_Some (Date_value (job !! "createdAt")).

Definition newest_first (a b : Job) : Prop := by_creation a b <= 0.

Definition listJobs (st : store) (limit offset : Z) : outcome job_list :=
  let jobFiles := List.filter endsWith_json files in
  match read_all st (slice jobFiles offset (offset + limit)) with
  | Throw m => Throw m
  | Return jobs =>
      Return {| l_jobs := sort jobs;
                l_total := Z.of_nat (length jobFiles);
                l_limit := limit;
                l_offset := offset |}
  end.

(** [jobAge > maxAge && (job.status === 'completed' || job.status ===
    'failed')]; a comparison with [NaN] is false. *)
Definition expired (now maxAge : Z) (job : Job) : bool :=
  match Date_value (job !! "createdAt") with
  | Some created => bool_decide (maxAge < now - created)
  | None => false
  end && (is_status job "completed" || is_status job "failed").

(** The loop of [cleanupOldJobs] over what is left of the listing. *)
Fixpoint cleanup (now maxAge : Z) (listing : list string) (d : disk)
    (cleaned : Z) : disk * outcome Z :=
  match listing with
  | [] => (d, Return cleaned)
  | file :: listing =>
      match job_of_file file with
      | None => cleanup now maxAge listing d cleaned
      | Some jobId =>
          match jobs_dir d !! jobId with
          | None => (d, Throw (read_error file))
          | Some job =>
              if expired now maxAge job
              then cleanup now maxAge listing
                     {| jobs_dir := delete jobId (jobs_dir d);
                        generated := generated d ∖ {[ zip_path (job !! "id") ]} |}
                     (cleaned + 1)
              else cleanup now maxAge listing d cleaned
          end
      end
  end.

Definition cleanupOldJobs (d : disk) (now maxAge : Z) : disk * outcome Z :=
  cleanup now maxAge files d 0.

(** What [fs.readdir] gives for a directory that holds the files of the
    jobs of [st], and maybe files of other names: every name once, and
    the file of every job. *)
Definition lists (st : store) : Prop :=
  NoDup files /\
  forall jobId, job_file jobId ∈ files <-> is_Some (st !! jobId).

End WithFiles.

(** The default maximal age: seven days, in milliseconds. *)
Definition week : Z := 7 * 24 * 60 * 60 * 1000.

End JobDirectory.

Module DirectoryExamples.

Import JobDirectory.

(** A jobs directory with two jobs and a file that is not one: a
    generation finished long ago and an analysis cancelled long ago. *)
Definition epoch (v : option json) : option Z :=
  match v with
  | Some (JNumber ms O) => Some ms
  | _ => None
  end.

Definition old_finished : Job :=
  list_to_map [("id", text "J1"); ("type", text "generate");
               ("status", text "completed"); ("createdAt", number 1000)].

Definition old_cancelled : Job :=
  list_to_map [("id", text "J2"); ("type", text "analyze");
               ("status", text "cancelled"); ("createdAt", number 2000)].

Definition two_jobs : store :=
  <["J1" := old_finished]> (<["J2" := old_cancelled]> ∅).

Definition two_files : list string := ["J1.json"; "notes.txt"; "J2.json"].

Definition unreadable (file : string) : jsstring := js "ENOENT: " ++ js file.

Definition archive (id : option json) : jsstring :=
  match id with
  | Some (JString s) => js "generated/" ++ s ++ js ".zip"
  | _ => js "generated/undefined.zip"
  end.

Definition two_jobs_disk : disk :=
  {| jobs_dir := two_jobs; generated := {[ js "generated/J1.zip" ]} |}.

End DirectoryExamples.

(* ===================================================================== *)
(** * The answers of a model that the fallbacks are written for *)
(* ===================================================================== *)

Module Responses.

Import Extractor.

(** The shapes of the answers of a model that the fallbacks of
    [parseAIResponse] are written for. *)

Definition white (ws : jsstring) : Prop := Forall (fun c => is_space c = true) ws.

(** The tag of a fence is [json] or nothing; with no tag, what follows
    the backticks must not be taken for one. *)
Definition fence_tag (tag rest : jsstring) : Prop :=
  tag = js "json" \/ (tag = [] /\ strip_prefix (js "json") rest = None).

(** Prose, then a fenced block around [body], then anything. *)
Definition fenced_text (pre tag ws1 body ws2 post : jsstring) : jsstring :=
  pre ++ backticks ++ tag ++ ws1 ++ body ++ ws2 ++ backticks ++ post.

(** Prose, then an object literal, then prose. *)
Definition braced_text (pre inner post : jsstring) : jsstring :=
  pre ++ [123%N] ++ inner ++ [125%N] ++ post.

End Responses.

Module ResponseExamples.

Import Examples Responses.

(** An answer with a remark before and after a fenced block. *)
Definition remark_before : jsstring := js ("Here is the specification:" ++ newline).
Definition remark_after : jsstring := js (newline ++ "Let me know if you need more.").
Definition app_object : jsstring := jsq "{'app_name': 'test-app'}".

Definition answer_with_block : jsstring :=
  fenced_text remark_before (js "json") (js newline) app_object (js newline)
    remark_after.

(** An answer with the object between two remarks, and no fence. *)
Definition answer_with_braces : jsstring :=
  braced_text remark_before (jsq "'app_name': 'test-app'") remark_after.

End ResponseExamples.

(* ===================================================================== *)
(** * The services around parseAIResponse *)
(* ===================================================================== *)

Module Services.

Import Extractor.

(** The value of a member of a parsed object: the last one of that name. *)
Definition member (members : list (jsstring * json)) (name : string)
  : option json :=
  snd <$> List.find (fun m => bool_decide (fst m = js name)) (rev members).

Section WithEngine.

(** The messages of the engine's errors: of [JSON.parse] on a text, of
    reading a property of [null], and of [Object.keys] on [undefined] or
    [null]. *)
Variable syntax_message : jsstring -> jsstring.
Variable cannot_read : string -> jsstring.
Variable cannot_convert : jsstring.

(** [value.name], for a parsed value and a name that no prototype
    defines: [None] is [undefined]. *)
Definition read (value : json) (name : string) : outcome (option json) :=
  match value with
  | JNull => Throw (cannot_read name)
  | JObject members => Return (member members name)
  | _ => Return None
  end.

(** [Object.keys(value)] is defined but for [undefined] and [null]. *)
Definition Object_keys_defined (value : option json) : outcome unit :=
  match value with
  | None | Some JNull => Throw cannot_convert
  | Some _ => Return tt
  end.

(** The body of a [try] block whose [catch] throws a new error with the
    message of the caught one after [prefix]. *)
Definition wrap {A} (prefix : string) (body : outcome A) : outcome A :=
  match body with
  | Return a => Return a
  | Throw m => Throw (js prefix ++ m)
  end.

(** [PlanningEngine.analyzeDescription]: [completion] is the outcome of
    the request to the model, with the text of its answer.  The entry
    logged after the parse reads [planningData.features] and
    [planningData.platforms]. *)
Definition analyzeDescription (completion : outcome jsstring) : outcome json :=
  wrap "Planning analysis failed: "
    match completion with
    | Throw m => Throw m
    | Return text =>
        match snd (parseAIResponse syntax_message text) with
        | Throw m => Throw m
        | Return planningData =>
            match read planningData "features" with
            | Throw m => Throw m
            | Return _ =>
                match read planningData "platforms" with
                | Throw m => Throw m
                | Return _ => Return planningData
                end
            end
        end
    end.

(** [PlanningEngine.analyzeExistingCode] *)
Definition analyzeExistingCode (completion : outcome jsstring) : outcome json :=
  wrap "Code analysis failed: "
    match completion with
    | Throw m => Throw m
    | Return text => snd (parseAIResponse syntax_message text)
    end.

(** [CodeModernizer.modernizeCode]: the entry logged after the parse
    counts [Object.keys(modernizedResult.files)]. *)
Definition modernizeCode (completion : outcome jsstring) : outcome json :=
  wrap "Modernization failed: "
    match completion with
    | Throw m => Throw m
    | Return text =>
        match snd (parseAIResponse syntax_message text) with
        | Throw m => Throw m
        | Return modernizedResult =>
            match read modernizedResult "files" with
            | Throw m => Throw m
            | Return files =>
                match Object_keys_defined files with
                | Throw m => Throw m
                | Return _ => Return modernizedResult
                end
            end
        end
    end.

End WithEngine.

End Services.

(* ===================================================================== *)
(** * Facts about strings *)
(* ===================================================================== *)

Module JsStringFacts.

Lemma len_nonneg (s : jsstring) : 0 <= len s.
Proof. unfold len. lia. Qed.

Lemma clamp_range (s : jsstring) (i : Z) : 0 <= clamp s i <= len s.
Proof. unfold clamp. pose proof (len_nonneg s). lia. Qed.

(** A substring that starts at index 0 is a prefix of the string. *)
Lemma substring_0_prefix (s : jsstring) (n : Z) :
  substring s 0 n `prefix_of` s.
Proof.
  unfold substring.
  pose proof (clamp_range s n) as Hn.
  assert (clamp s 0 = 0) as -> by (unfold clamp; pose proof (len_nonneg s); lia).
  rewrite Z.min_l by lia. rewrite Z.max_r by lia.
  simpl. rewrite drop_0. exists (drop (Z.to_nat (clamp s n - 0)) s).
  by rewrite take_drop.
Qed.

(** ... of at most [n] code units. *)
Lemma substring_0_length (s : jsstring) (n : Z) :
  0 <= n -> len (substring s 0 n) <= n.
Proof.
  intros Hn. unfold substring, len.
  pose proof (clamp_range s n) as Hc.
  assert (clamp s 0 = 0) as -> by (unfold clamp; pose proof (len_nonneg s); lia).
  rewrite Z.min_l by lia. rewrite Z.max_r by lia.
  rewrite length_take.
  assert (clamp s n <= n) by (unfold clamp; lia). lia.
Qed.

(** A string that neither starts nor ends with white space is left alone
    by [trim]. *)
Lemma trimStart_id (s : jsstring) : no_leading_space s -> trimStart s = s.
Proof. destruct s as [|c s]; simpl; [done|]. by intros ->. Qed.

Lemma trim_id (s : jsstring) :
  no_leading_space s -> no_leading_space (rev s) -> trim s = s.
Proof.
  intros Hs He. unfold trim, trimEnd.
  rewrite (trimStart_id s Hs), (trimStart_id _ He). apply rev_involutive.
Qed.

End JsStringFacts.

(* ===================================================================== *)
(** * Facts about the fenced-block expression *)
(* ===================================================================== *)

Module FenceFacts.

Import Extractor JsStringFacts.

Local Arguments closing : simpl never.

(** Whether the tail matches does not depend on the capture it returns. *)
Lemma closing_result (a : jsstring) (s r : jsstring) :
  closing a s = Some r -> r = a.
Proof.
  unfold closing. induction s as [|c s IH]; simpl.
  - unfold lit. destruct (strip_prefix _ _); congruence.
  - destruct (is_space c).
    + destruct (spaces s _) eqn:E.
      * intros [= <-]. by apply IH.
      * unfold lit. destruct (strip_prefix _ _); congruence.
    + unfold lit. destruct (strip_prefix _ _); congruence.
Qed.

Lemma closing_any (a b : jsstring) (s : jsstring) :
  is_Some (closing a s) -> closing b s = Some b.
Proof.
  unfold closing. induction s as [|c s IH]; simpl.
  - unfold lit. destruct (strip_prefix _ _); [done|]. by intros [? [=]].
  - destruct (is_space c).
    + destruct (spaces s (fun s5 => lit backticks s5 (fun _ => Some a))) eqn:E.
      * intros _. rewrite IH; [done|]. by eexists.
      * destruct (spaces s (fun s5 => lit backticks s5 (fun _ => Some b))) eqn:E'.
        -- apply (closing_result b) in E'. by subst.
        -- unfold lit. destruct (strip_prefix _ _); [done|]. by intros [? [=]].
    + unfold lit. destruct (strip_prefix _ _); [done|]. by intros [? [=]].
Qed.

(** One more white-space unit in front of a matching tail still matches. *)
Lemma closing_space (a : jsstring) (c : N) (s : jsstring) :
  is_space c = true -> is_Some (closing a s) -> is_Some (closing a (c :: s)).
Proof.
  intros Hc Hs. unfold closing in *. simpl. rewrite Hc.
  destruct Hs as [r ->]. by eexists.
Qed.

Lemma lazy_any_eq {R} (s acc : jsstring) (k : jsstring -> jsstring -> option R) :
  lazy_any s acc k =
    match k (rev acc) s with
    | Some r => Some r
    | None =>
        match s with
        | c :: s' => lazy_any s' (c :: acc) k
        | [] => None
        end
    end.
Proof. by destruct s. Qed.

Lemma closing_nil (a : jsstring) : closing a [] = None.
Proof. reflexivity. Qed.

(** The lazy capture stops at the first split whose tail matches. *)
Lemma lazy_any_sound (s acc g : jsstring) :
  lazy_any s acc (fun capture s4 => closing capture s4) = Some g ->
  exists c rest,
    s = c ++ rest /\ g = rev acc ++ c /\ is_Some (closing g rest) /\
    forall c1 x c2, c = c1 ++ x :: c2 ->
      closing (rev acc ++ c1) (x :: c2 ++ rest) = None.
Proof.
  revert acc. induction s as [|x s IH]; intros acc; rewrite lazy_any_eq.
  - by rewrite closing_nil.
  - destruct (closing (rev acc) (x :: s)) eqn:E.
    + intros [= <-]. pose proof (closing_result _ _ _ E) as ->.
      exists [], (x :: s).
      split_and!; [done | by rewrite app_nil_r | by eexists |].
      intros c1 y c2 H. by destruct c1.
    + intros H. destruct (IH _ H) as (c & rest & -> & -> & Hok & Hmin).
      exists (x :: c), rest.
      split_and!; [done | by rewrite cons_middle, app_assoc | done |].
      intros c1 y c2 Hc. destruct c1 as [|z c1]; simpl in Hc.
      * injection Hc as <- <-. by rewrite app_nil_r.
      * injection Hc as <- ->.
        specialize (Hmin c1 y c2 eq_refl).
        simpl in Hmin. by rewrite <- app_assoc in Hmin.
Qed.

Lemma lazy_any_complete (c rest acc : jsstring) :
  is_Some (closing (rev acc ++ c) rest) ->
  is_Some (lazy_any (c ++ rest) acc (fun capture s4 => closing capture s4)).
Proof.
  revert acc. induction c as [|x c IH]; intros acc H; rewrite lazy_any_eq.
  - rewrite app_nil_r in H. simpl app. destruct H as [r ->]. by eexists.
  - simpl app. destruct (closing (rev acc) (x :: c ++ rest)); [by eexists|].
    apply IH. simpl. by rewrite <- app_assoc.
Qed.

(** The capture never ends with white space: one unit earlier the tail
    would already have matched. *)
Lemma lazy_any_no_trailing_space (s g : jsstring) :
  lazy_any s [] (fun capture s4 => closing capture s4) = Some g ->
  no_leading_space (rev g).
Proof.
  intros H. destruct (lazy_any_sound _ _ _ H) as (c & rest & -> & -> & Hok & Hmin).
  simpl in *. destruct (rev c) as [|x rc] eqn:E; [done|]. simpl.
  destruct (is_space x) eqn:Hx; [|done]. exfalso.
  assert (c = rev rc ++ [x]) as Hc.
  { rewrite <- (rev_involutive c), E. done. }
  specialize (Hmin (rev rc) x [] Hc). simpl in Hmin.
  assert (is_Some (closing (rev rc) (x :: rest))) as [r Hr].
  { apply closing_space; [done|].
    rewrite (closing_any c (rev rc)); [by eexists | done]. }
  congruence.
Qed.

Lemma lit_backticks_head {R} (x : N) (s : jsstring) (k : jsstring -> option R) :
  is_Some (lit backticks (x :: s) k) -> x = 96%N.
Proof.
  unfold lit. change backticks with (96%N :: js "``"). cbn [strip_prefix].
  destruct (N.eqb_spec 96 x); [done|]. by intros [? [=]].
Qed.

(** A closing fence does not start with white space. *)
Lemma closing_cons_space (a : jsstring) (x : N) (s : jsstring) :
  is_space x = true -> is_Some (closing a (x :: s)) -> is_Some (closing a s).
Proof.
  intros Hx [r Hr]. unfold closing in *. cbn [spaces] in Hr. rewrite Hx in Hr.
  destruct (spaces s _) eqn:E; [by eexists|]. exfalso.
  assert (x = 96%N) as -> by (eapply lit_backticks_head; by eexists).
  discriminate Hx.
Qed.

Lemma spaces_fallback {R} (s : jsstring) (k : jsstring -> option R) :
  is_Some (k s) -> is_Some (spaces s k).
Proof.
  intros [r Hr]. destruct s as [|x s]; simpl; [by eexists|].
  destruct (is_space x); [|by eexists].
  destruct (spaces s k); [by eexists|]. by eexists.
Qed.

(** [\\s*] in front of the capture is greedy, so the capture never starts
    with white space. *)
Lemma spaces_capture_no_leading_space (s g : jsstring) :
  spaces s (fun s3 => lazy_any s3 [] (fun capture s4 => closing capture s4))
    = Some g ->
  no_leading_space g /\ no_leading_space (rev g).
Proof.
  induction s as [|x s IH]; cbn [spaces].
  - by rewrite lazy_any_eq, closing_nil.
  - destruct (is_space x) eqn:Hx.
    + destruct (spaces s _) eqn:E.
      * intros [= <-]. by apply IH.
      * intros H. exfalso.
        destruct (lazy_any_sound _ _ _ H) as (c & rest & Hs & -> & Hok & _).
        simpl in *.
        assert (is_Some (lazy_any s [] (fun capture s4 => closing capture s4)))
          as Hr.
        { destruct c as [|y c]; simpl in Hs.
          - subst rest. apply (lazy_any_complete [] s []). simpl.
            by eapply closing_cons_space.
          - injection Hs as <- ->. apply (lazy_any_complete c rest []). simpl.
            rewrite (closing_any (x :: c) c); [by eexists|done]. }
        apply (spaces_fallback s
                 (fun s3 => lazy_any s3 [] (fun capture s4 => closing capture s4)))
          in Hr.
        rewrite E in Hr. by destruct Hr.
    + intros H. split; [|by eapply lazy_any_no_trailing_space].
      destruct (lazy_any_sound _ _ _ H) as (c & rest & Hs & -> & _).
      simpl. destruct c as [|y c]; [done|]. simpl in *. by injection Hs as <- _.
Qed.

(** The first group of a match of the fenced-block expression has no
    white space at either end. *)
Lemma fence_at_group (s g : jsstring) :
  fence_at s = Some g -> no_leading_space g /\ no_leading_space (rev g).
Proof.
  unfold fence_at, lit at 1, opt, lit at 1.
  destruct (strip_prefix backticks s) as [s1|]; [|done].
  destruct (strip_prefix (js "json") s1) as [s2|].
  - destruct (spaces s2 _) eqn:E.
    + intros [= <-]. by apply (spaces_capture_no_leading_space s2).
    + apply spaces_capture_no_leading_space.
  - apply spaces_capture_no_leading_space.
Qed.

Lemma fence_match_group (s g : jsstring) :
  fence_match s = Some g -> no_leading_space g /\ no_leading_space (rev g).
Proof.
  induction s as [|x s IH]; cbn [fence_match].
  - destruct (fence_at []) eqn:E; [|done]. intros [= <-]. by eapply fence_at_group.
  - destruct (fence_at (x :: s)) eqn:E; [|done].
    intros [= <-]. by eapply fence_at_group.
Qed.

(** So [trim] leaves the group as it is. *)
Lemma fence_match_trim (s g : jsstring) :
  fence_match s = Some g -> trim g = g.
Proof. intros H. destruct (fence_match_group _ _ H). by apply trim_id. Qed.

End FenceFacts.

(* ===================================================================== *)
(** * Extraction: the order of the tiers *)
(* ===================================================================== *)

Module ExtractorFacts.

Import Extractor ExtractSpec Examples JsStringFacts FenceFacts.

Lemma indexOf_from_range (c : N) (s : jsstring) (i : Z) :
  indexOf_from c s i = -1 \/ i <= indexOf_from c s i.
Proof.
  revert i. induction s as [|x s IH]; intros i; simpl; [by left|].
  destruct (N.eqb x c); [right; lia|].
  destruct (IH (i + 1)); [by left | right; lia].
Qed.

Lemma indexOf_range (s : jsstring) (c : N) :
  indexOf s c = -1 \/ 0 <= indexOf s c.
Proof. apply indexOf_from_range. Qed.

(** The guard of tier 3 in the source is the one of the specification. *)
Lemma brace_guard (s : jsstring) :
  negb (indexOf s 123 =? -1) && negb (lastIndexOf s 125 =? -1)
    && (lastIndexOf s 125 >? indexOf s 123)
  = (0 <=? indexOf s 123) && (indexOf s 123 <? lastIndexOf s 125).
Proof.
  destruct (indexOf_range s 123) as [H|H].
  - by rewrite H.
  - apply eq_true_iff_eq.
    rewrite !andb_true_iff, !negb_true_iff, !Z.eqb_neq.
    rewrite Z.gtb_ltb, Z.leb_le, !Z.ltb_lt. lia.
Qed.

Section WithEngine.

Variable syntax_message : jsstring -> jsstring.

Lemma returned_JSON_parse (text : jsstring) :
  returned (JSON_parse syntax_message text) = JSON.parse text.
Proof. unfold JSON_parse. by destruct (JSON.parse text). Qed.

(** What the inner block returns: once the fence expression matches with
    a group that is not empty, only that group is parsed. *)
Lemma returned_repair (text : jsstring) :
  returned (repair syntax_message text) =
    match fenced (fence_match text) with
    | Some interior => JSON.parse interior
    | None => tier3 text
    end.
Proof.
  unfold repair, tier3.
  destruct (fence_match text) as [g|] eqn:Hm; simpl.
  - destruct (truthy g).
    + rewrite returned_JSON_parse. by rewrite (fence_match_trim _ _ Hm).
    + rewrite brace_guard. destruct (_ && _); [apply returned_JSON_parse|done].
  - rewrite brace_guard. destruct (_ && _); [apply returned_JSON_parse|done].
Qed.

Lemma returned_parseAIResponse (text : jsstring) :
  returned (snd (parseAIResponse syntax_message text)) =
    match JSON.parse text with
    | Some v => Some v
    | None => returned (repair syntax_message text)
    end.
Proof.
  unfold parseAIResponse, JSON_parse.
  destruct (JSON.parse text); [done|].
  by destruct (repair syntax_message text).
Qed.

(** The value returned, tier by tier. *)
Lemma returned_by_tiers (text : jsstring) :
  returned (snd (parseAIResponse syntax_message text)) =
    match tier1 text with
    | Some v => Some v
    | None =>
        match fenced (fence_match text) with
        | Some interior => JSON.parse interior
        | None => tier3 text
        end
    end.
Proof. rewrite returned_parseAIResponse. unfold tier1. by rewrite returned_repair. Qed.

(** Where the committed block parses, or no block is found, the result is
    the first success of the three tiers. *)
Lemma parseAIResponse_first_success (text : jsstring) :
  (forall interior, fence_match text = Some interior ->
     interior <> [] -> is_Some (JSON.parse interior)) ->
  returned (snd (parseAIResponse syntax_message text)) = extract text.
Proof.
  intros Hok. rewrite returned_by_tiers. unfold extract, tier2.
  destruct (tier1 text); [done|].
  destruct (fence_match text) as [g|] eqn:Hm; simpl; [|done].
  destruct g as [|c g]; simpl; [done|].
  destruct (Hok (c :: g) eq_refl) as [v ->]; done.
Qed.

(** A text that no tier recovers a value from is never answered with a
    value. *)
Lemma extract_none_returned (text : jsstring) :
  extract text = None ->
  returned (snd (parseAIResponse syntax_message text)) = None.
Proof.
  rewrite returned_by_tiers. unfold extract, tier2.
  destruct (tier1 text); [done|].
  destruct (fence_match text) as [g|] eqn:Hm; simpl.
  - destruct (JSON.parse g) eqn:Hg; [done|]. intros H.
    by destruct (truthy g).
  - by destruct (tier3 text).
Qed.

(** What the inner block throws: the engine's message for the text that
    did not parse, or the message of the source with the first 200 code
    units of the input. *)
Lemma thrown_repair (text m : jsstring) :
  repair syntax_message text = Throw m ->
  (exists parsed, m = syntax_message parsed) \/
  m = js "Could not extract JSON from AI response: " ++ substring text 0 200.
Proof.
  unfold repair, JSON_parse.
  destruct (fenced (fence_match text)) as [g|].
  - destruct (JSON.parse (trim g)); [done|]. intros [= <-]. left. by eexists.
  - destruct (_ && _).
    + destruct (JSON.parse _); [done|]. intros [= <-]. left. by eexists.
    + intros [= <-]. by right.
Qed.

End WithEngine.

(** C3: here the code departs from the cascade that its own comments
    number.  On this text the whole does not parse, the fenced block is
    found and does not parse either, and the text between the braces
    parses: the first success of the tiers is that value.  The code
    throws instead, without going on to the braces. *)
Lemma parseAIResponse_skips_braces :
  tier1 fenced_then_braces = None /\
  tier2 fenced_then_braces = None /\
  tier3 fenced_then_braces = Some (JObject [(js "a", JNumber 1 0)]) /\
  extract fenced_then_braces = Some (JObject [(js "a", JNumber 1 0)]) /\
  returned (snd (parseAIResponse engine_message fenced_then_braces)) = None /\
  thrown (snd (parseAIResponse engine_message fenced_then_braces))
    = Some (js "Could not process AI response: Unexpected token in JSON").
Proof. vm_compute. done. Qed.

(** The other three cases of that test return a value. *)
Example clean_json :
  returned (snd (parseAIResponse engine_message
    (jsq "{'app_name': 'test-app', 'description': 'A test application'}")))
  = Some (JObject [(js "app_name", JString (js "test-app"));
                   (js "description", JString (js "A test application"))]).
Proof. by vm_compute. Qed.

Example wrapped_json :
  returned (snd (parseAIResponse engine_message
    (jsq ("```json" ++ newline ++ "{'app_name': 'test-app'}" ++ newline ++ "```"))))
  = Some (JObject [(js "app_name", JString (js "test-app"))]).
Proof. by vm_compute. Qed.

Example messy_json :
  returned (snd (parseAIResponse engine_message
    (jsq ("Here is the JSON response:" ++ newline ++ "{'app_name': 'test-app'}"
          ++ newline ++ "That should work for you."))))
  = Some (JObject [(js "app_name", JString (js "test-app"))]).
Proof. by vm_compute. Qed.

End ExtractorFacts.

(* ===================================================================== *)
(** * Extraction: the failure report *)
(* ===================================================================== *)

Module FailureReport.

Import Extractor ExtractSpec Examples ReportExamples JsStringFacts FenceFacts
  ExtractorFacts.


Section WithEngine.

Variable syntax_message : jsstring -> jsstring.



End WithEngine.



End FailureReport.

(* ===================================================================== *)
(** * JobManager: creation *)
(* ===================================================================== *)

Module JobManagerFacts.

Import Examples.

Lemma lookup_spread (a b : Job) (k : string) :
  spread a b !! k = match b !! k with Some v => Some v | None => a !! k end.
Proof.
  unfold spread. rewrite lookup_union. destruct (b !! k), (a !! k); done.
Qed.

Lemma lookup_merge (job updates : Job) (now : jsstring) (k : string) :
  merge job updates now !! k =
    if decide (k = "updatedAt") then Some (JString now)
    else match updates !! k with Some v => Some v | None => job !! k end.
Proof.
  unfold merge. destruct (decide (k = "updatedAt")) as [->|Hk].
  - by rewrite lookup_insert_eq.
  - rewrite lookup_insert_ne by done. apply lookup_spread.
Qed.

(** The record that [createJob] returns and stores. *)
Lemma createJob_record (st : store) (jobId : string) (jobData : Job)
    (createdAt updatedAt : jsstring) :
  exists job,
    createJob st jobId jobData createdAt updatedAt = (<[jobId := job]> st, Return job) /\
    fst (createJob st jobId jobData createdAt updatedAt) !! jobId = Some job /\
    job !! "createdAt" = Some (JString createdAt) /\
    job !! "updatedAt" = Some (JString updatedAt) /\
    (forall k, k <> "createdAt" -> k <> "updatedAt" ->
       job !! k = match jobData !! k with
                  | Some v => Some v
                  | None => if decide (k = "id") then Some (text jobId) else None
                  end) /\
    (forall other, other <> jobId ->
       fst (createJob st jobId jobData createdAt updatedAt) !! other = st !! other).
Proof.
  eexists. split; [reflexivity|]. simpl. split_and!.
  - by rewrite lookup_insert_eq.
  - rewrite lookup_insert_ne by done. by rewrite lookup_insert_eq.
  - by rewrite lookup_insert_eq.
  - intros k H1 H2. rewrite !lookup_insert_ne by done. rewrite lookup_spread.
    destruct (jobData !! k); [done|].
    destruct (decide (k = "id")) as [->|Hk].
    + by rewrite lookup_singleton_eq.
    + by rewrite lookup_singleton_ne.
  - intros other H. by rewrite lookup_insert_ne.
Qed.

(** C6 (as amended): [createJob] never refuses an id.  Whether or not a
    record is stored under the id, the call returns the new record and
    stores it under the id, in place of whatever was there; the records of
    the other ids are left as they are. *)
Theorem createJob_replaces (st : store) (jobId : string) (jobData : Job)
    (createdAt updatedAt : jsstring) :
  exists job,
    createJob st jobId jobData createdAt updatedAt = (<[jobId := job]> st, Return job) /\
    fst (createJob st jobId jobData createdAt updatedAt) !! jobId = Some job /\
    job !! "createdAt" = Some (JString createdAt) /\
    job !! "updatedAt" = Some (JString updatedAt) /\
    (forall k, k <> "createdAt" -> k <> "updatedAt" ->
       job !! k = match jobData !! k with
                  | Some v => Some v
                  | None => if decide (k = "id") then Some (text jobId) else None
                  end) /\
    (forall other, other <> jobId ->
       fst (createJob st jobId jobData createdAt updatedAt) !! other = st !! other).
Proof. apply createJob_record. Qed.

(** C6 fails as stated: a second [createJob] under an id that exists does
    not fail, and the record that was there is gone. *)
Lemma createJob_duplicate_succeeds :
  let st : store := {["J1" := finished_job]} in
  let r := createJob st "J1" second_data (js "t1") (js "t1") in
  st !! "J1" = Some finished_job /\
  thrown (snd r) = None /\
  (exists job, fst r !! "J1" = Some job /\
               job !! "status" = Some (text "extracting") /\
               job !! "result" = None) /\
  finished_job !! "status" = Some (text "completed").
Proof.
  simpl. split_and!; [done|done| |done].
  eexists. split; [by rewrite lookup_insert_eq|]. split; reflexivity.
Qed.

End JobManagerFacts.

(* ===================================================================== *)
(** * Two [updateJob] calls in flight *)
(* ===================================================================== *)

Module ConcurrentUpdates.

Import JobManagerFacts JobFiles Overlaps.

Section SameJob.

Variables (d : disk) (jobId : string) (job : Job).
Variables (ua ub : Job) (ta tb : jsstring).

Let a := Call jobId ua ta.
Let b := Call jobId ub tb.

Local Abbreviation reachable := (Overlaps.reachable jobId job ua ub ta tb).

Ltac run_step :=
  cbn [advance a b call_id call_updates call_now];
  unfold updateJob_read, writeJson_open, writeJson_write, getJob, overlay;
  rewrite ?lookup_insert_eq; cbn [mbind option_bind content written whole truncated andb negb];
  rewrite ?insert_insert_eq;
  eexists _, _; (split; [reflexivity|]); by constructor.

Lemma advance_a (f : file) (sa sb : call_state) (covers : bool) :
  reachable f sa sb ->
  exists f' sa',
    advance (<[jobId := f]> d) a sa covers = (<[jobId := f']> d, sa') /\
    reachable f' sa' sb.
Proof. intros H; destruct H; destruct covers; run_step. Qed.

Lemma advance_b (f : file) (sa sb : call_state) (covers : bool) :
  reachable f sa sb ->
  exists f' sb',
    advance (<[jobId := f]> d) b sb covers = (<[jobId := f']> d, sb') /\
    reachable f' sa sb'.
Proof. intros H; destruct H; destruct covers; run_step. Qed.

Lemma interleave_reachable (sched : list (turn * bool)) (f : file)
    (sa sb : call_state) :
  reachable f sa sb ->
  exists f' sa' sb',
    interleave a b sched (<[jobId := f]> d) sa sb = (<[jobId := f']> d, sa', sb') /\
    reachable f' sa' sb'.
Proof.
  revert f sa sb. induction sched as [|[[] covers] sched IH]; intros f sa sb H; simpl.
  - by eexists _, _, _.
  - destruct (advance_a _ _ _ covers H) as (f' & sa' & -> & H'). by apply IH.
  - destruct (advance_b _ _ _ covers H) as (f' & sb' & -> & H'). by apply IH.
Qed.

(** Once both calls have settled: what each has returned, and what the
    file holds. *)
Lemma same_job_outcomes (sched : list (turn * bool)) (d' : disk)
    (sa sb : call_state) :
  d !! jobId = Some (whole job) ->
  interleave a b sched d Called Called = (d', sa, sb) ->
  settled sa = true -> settled sb = true ->
  exists f,
    d' = <[jobId := f]> d /\ written f = true /\
    ((sa = Settled (Return (merge job ua ta)) /\
      sb = Settled (Return (merge job ub tb)) /\
      (content f = Some (merge job ua ta) \/
       content f = Some (merge job ub tb) \/ content f = None)) \/
     (sa = Settled (Return (merge job ua ta)) /\
      sb = Settled (Return (merge (merge job ua ta) ub tb)) /\
      content f = Some (merge (merge job ua ta) ub tb)) \/
     (sa = Settled (Return (merge (merge job ub tb) ua ta)) /\
      sb = Settled (Return (merge job ub tb)) /\
      content f = Some (merge (merge job ub tb) ua ta)) \/
     (sa = Settled (Throw (not_found jobId)) /\
      sb = Settled (Return (merge job ub tb)) /\
      content f = Some (merge job ub tb)) \/
     (sa = Settled (Return (merge job ua ta)) /\
      sb = Settled (Throw (not_found jobId)) /\
      content f = Some (merge job ua ta))).
Proof.
  intros Hjob Hrun Ha Hb.
  destruct (interleave_reachable sched (whole job) Called Called
              (r_start jobId job ua ub ta tb))
    as (f & sa' & sb' & Hrun' & Hreach).
  rewrite (insert_id d jobId _ Hjob) in Hrun'. rewrite Hrun in Hrun'.
  injection Hrun' as -> -> ->.
  exists f. split; [done|].
  destruct Hreach; try discriminate Ha; try discriminate Hb;
    (split; [reflexivity|]); cbn [content whole]; tauto.
Qed.

End SameJob.

Section OtherJobs.

Variables (d : disk) (ida idb : string) (ja jb : Job).
Variables (ua ub : Job) (ta tb : jsstring).
Hypothesis distinct : ida <> idb.
Hypothesis present_a : d !! ida = Some (whole ja).
Hypothesis present_b : d !! idb = Some (whole jb).

Let a := Call ida ua ta.
Let b := Call idb ub tb.

Ltac own_step :=
  unfold updateJob_read, writeJson_open, writeJson_write, getJob, overlay;
  rewrite ?(lookup_insert_ne _ ida idb) by done;
  rewrite ?lookup_insert_eq;
  cbn [mbind option_bind content written whole truncated andb negb];
  rewrite ?(insert_insert_ne _ idb ida) by done;
  rewrite ?insert_insert_eq;
  rewrite ?(insert_insert_ne _ ida idb) by done;
  (split; [reflexivity|]); unfold on_track; auto.

Lemma advance_independent (sa sb : call_state) (covers : bool) :
  on_track ja ua ta sa -> on_track jb ub tb sb ->
  let stored :=
    <[ida := file_after ja ua ta sa]> (<[idb := file_after jb ub tb sb]> d) in
  (exists sa', advance stored a sa covers
               = (<[ida := file_after ja ua ta sa']>
                    (<[idb := file_after jb ub tb sb]> d), sa')
               /\ on_track ja ua ta sa') /\
  (exists sb', advance stored b sb covers
               = (<[ida := file_after ja ua ta sa]>
                    (<[idb := file_after jb ub tb sb']> d), sb')
               /\ on_track jb ub tb sb').
Proof.
  intros Ha Hb stored. subst stored. split.
  - destruct Ha as [->|[->|[->| ->]]];
      [exists (Merged (merge ja ua ta))
      |exists (Opened (merge ja ua ta))
      |exists (Settled (Return (merge ja ua ta)))
      |exists (Settled (Return (merge ja ua ta)))];
      cbn [advance a call_id call_updates call_now file_after]; own_step.
  - destruct Hb as [->|[->|[->| ->]]];
      [exists (Merged (merge jb ub tb))
      |exists (Opened (merge jb ub tb))
      |exists (Settled (Return (merge jb ub tb)))
      |exists (Settled (Return (merge jb ub tb)))];
      cbn [advance b call_id call_updates call_now file_after]; own_step.
Qed.

Lemma interleave_independent (sched : list (turn * bool)) (sa sb : call_state) :
  on_track ja ua ta sa -> on_track jb ub tb sb ->
  exists sa' sb',
    interleave a b sched
      (<[ida := file_after ja ua ta sa]> (<[idb := file_after jb ub tb sb]> d))
      sa sb
    = (<[ida := file_after ja ua ta sa']> (<[idb := file_after jb ub tb sb']> d),
       sa', sb')
    /\ on_track ja ua ta sa' /\ on_track jb ub tb sb'.
Proof.
  revert sa sb. induction sched as [|[[] covers] sched IH]; intros sa sb Ha Hb; simpl.
  - by eexists _, _.
  - destruct (advance_independent sa sb covers Ha Hb) as [(sa' & -> & Ha') _].
    by apply IH.
  - destruct (advance_independent sa sb covers Ha Hb) as [_ (sb' & -> & Hb')].
    by apply IH.
Qed.

(** Calls on different jobs never meet: however their steps are
    interleaved, once both have settled each file holds the merge of its
    own update. *)
Lemma other_jobs_outcome (sched : list (turn * bool)) (d' : disk)
    (sa sb : call_state) :
  interleave a b sched d Called Called = (d', sa, sb) ->
  settled sa = true -> settled sb = true ->
  d' = <[ida := whole (merge ja ua ta)]> (<[idb := whole (merge jb ub tb)]> d) /\
  sa = Settled (Return (merge ja ua ta)) /\
  sb = Settled (Return (merge jb ub tb)).
Proof.
  intros Hrun Hsa Hsb.
  destruct (interleave_independent sched Called Called) as
    (sa' & sb' & Hrun' & Ha & Hb); [by left|by left|].
  simpl in Hrun'.
  rewrite (insert_id d idb _ present_b) in Hrun'.
  rewrite (insert_id d ida _ present_a) in Hrun'.
  rewrite Hrun in Hrun'. injection Hrun' as -> -> ->.
  destruct Ha as [->|[->|[->| ->]]]; try discriminate Hsa.
  destruct Hb as [->|[->|[->| ->]]]; try discriminate Hsb.
  done.
Qed.

End OtherJobs.

End ConcurrentUpdates.

(** ** One call, and two calls in flight *)

Module JobFilesFacts.

Import Examples JobManagerFacts JobFiles FileExamples.

(** Where no write is under way, [getJob] finds the stored record. *)
Lemma getJob_on_disk (st : store) (jobId : string) :
  getJob (on_disk st) jobId = st !! jobId.
Proof.
  unfold getJob, on_disk. rewrite lookup_fmap. by destruct (st !! jobId).
Qed.

Lemma lookup_whole (d : disk) (jobId : string) (job : Job) :
  d !! jobId = Some (whole job) -> getJob d jobId = Some job.
Proof. unfold getJob. by intros ->. Qed.

(** The two steps of a write that nothing else comes between. *)
Lemma write_alone (d : disk) (jobId : string) (updatedJob : Job) (covers : bool) :
  writeJson_write (writeJson_open d jobId) jobId updatedJob covers
  = <[jobId := whole updatedJob]> d.
Proof.
  unfold writeJson_write, writeJson_open. rewrite lookup_insert_eq.
  by rewrite insert_insert_eq.
Qed.

(** C10 (as amended): a call of [updateJob] on a job whose file holds a
    record returns, and writes, the record it read with [updatedAt] set to
    the time of the update and the properties that [updates] names set to
    the values given there; every other property has the value it had in
    the record that the call read, whatever has been written to the file
    since.  When nothing else touches the file from the read to the end
    of the write, this is the record the file held before the call, the
    file holds the returned record afterwards, and the files of the other
    jobs are not touched. *)
Theorem updateJob_frame (c : call) (job : Job) (d d1 d2 : disk)
    (covers : bool) :
  getJob d (call_id c) = Some job ->
  exists updatedJob,
    advance d c Called covers = (d, Merged updatedJob) /\
    advance d1 c (Merged updatedJob) covers
      = (<[call_id c := truncated]> d1, Opened updatedJob) /\
    snd (advance d2 c (Opened updatedJob) covers) = Settled (Return updatedJob) /\
    (d2 !! call_id c = Some truncated ->
     fst (advance d2 c (Opened updatedJob) covers)
       = <[call_id c := whole updatedJob]> d2) /\
    updatedJob !! "updatedAt" = Some (JString (call_now c)) /\
    (forall k, k <> "updatedAt" -> call_updates c !! k = None ->
       updatedJob !! k = job !! k) /\
    (forall k v, k <> "updatedAt" -> call_updates c !! k = Some v ->
       updatedJob !! k = Some v) /\
    updateJob d (call_id c) (call_updates c) (call_now c)
      = (<[call_id c := whole updatedJob]> d, Return updatedJob) /\
    (forall other, other <> call_id c ->
       fst (updateJob d (call_id c) (call_updates c) (call_now c)) !! other
       = d !! other).
Proof.
  intros Hjob. exists (merge job (call_updates c) (call_now c)).
  unfold updateJob. cbn [advance]. unfold updateJob_read. rewrite Hjob.
  rewrite write_alone. split_and!; try done.
  - intros Hd2. unfold writeJson_write. rewrite Hd2. done.
  - rewrite lookup_merge. by rewrite decide_True.
  - intros k Hk Hu. rewrite lookup_merge, decide_False by done. by rewrite Hu.
  - intros k v Hk Hu. rewrite lookup_merge, decide_False by done. by rewrite Hu.
  - intros other H. simpl. by rewrite lookup_insert_ne.
Qed.

(** C10 fails as stated: a progress report reads the record of a running
    job; the job is cancelled, and the file holds the status [cancelled];
    then the write of the progress report, which names only the progress,
    puts the status [generating] back. *)
Lemma stale_write_restores_status :
  call_updates progress_call !! "status" = None /\
  file_field running "J1" "status" = Some (text "generating") /\
  file_field (fst (fst cancelled_between)) "J1" "status" = Some (text "cancelled") /\
  snd (fst cancelled_between) = snd (fst stale_write) /\
  settled (snd (fst stale_write)) = true /\
  settled_field (snd stale_write) "progress" = Some (number 80) /\
  file_field (fst (fst stale_write)) "J1" "status" = Some (text "generating").
Proof. by vm_compute. Qed.

Lemma updateJob_frame_witness :
  exists updatedJob,
    updateJob running "J1" (call_updates progress_call) (js "t3")
    = (<["J1" := whole updatedJob]> running, Return updatedJob) /\
    updatedJob !! "updatedAt" = Some (JString (js "t3")) /\
    updatedJob !! "status" = Some (text "generating").
Proof.
  destruct (updateJob_frame progress_call running_job running running running true)
    as (u & _ & _ & _ & _ & H2 & H3 & _ & H5 & _).
  - reflexivity.
  - exists u. split_and!; [done|done|]. by rewrite H3.
Defined.

End JobFilesFacts.

Module ConcurrentUpdatesFacts.

Import Examples JobManagerFacts JobFiles FileExamples ConcurrentUpdates.

(** C9 (as amended): two calls of [updateJob] in flight on one job whose
    file holds a record.  Once both have settled, the file has been
    written and:
    - when each call has returned its updates merged over the original
      record (each read before the other had written), the file holds one
      of these two records, without the update of the other call, or it
      holds no record at all, the two texts having been laid over each
      other;
    - when one call has returned its updates merged over the record that
      the other one returned, the file holds that record, with both
      updates;
    - when one call has failed with "Job not found" (its read fell
      between the two steps of the other's write), the file holds the
      record of the other call.
    Calls on different jobs leave each file with the merge of its own
    update and return it, whatever the interleaving. *)
Theorem concurrent_updates (d d' : disk) (a b : call) (ja jb : Job)
    (sched : list (turn * bool)) (sa sb : call_state) :
  d !! call_id a = Some (whole ja) ->
  d !! call_id b = Some (whole jb) ->
  interleave a b sched d Called Called = (d', sa, sb) ->
  settled sa = true -> settled sb = true ->
  let a_first := merge ja (call_updates a) (call_now a) in
  let b_first := merge jb (call_updates b) (call_now b) in
  (call_id a = call_id b ->
     exists f,
       d' = <[call_id a := f]> d /\ written f = true /\
       ((sa = Settled (Return a_first) /\ sb = Settled (Return b_first) /\
         (content f = Some a_first \/ content f = Some b_first \/
          content f = None)) \/
        (sa = Settled (Return a_first) /\
         sb = Settled (Return (merge a_first (call_updates b) (call_now b))) /\
         content f = Some (merge a_first (call_updates b) (call_now b))) \/
        (sa = Settled (Return (merge b_first (call_updates a) (call_now a))) /\
         sb = Settled (Return b_first) /\
         content f = Some (merge b_first (call_updates a) (call_now a))) \/
        (sa = Settled (Throw (not_found (call_id a))) /\
         sb = Settled (Return b_first) /\ content f = Some b_first) \/
        (sa = Settled (Return a_first) /\
         sb = Settled (Throw (not_found (call_id a))) /\
         content f = Some a_first))) /\
  (call_id a <> call_id b ->
     d' = <[call_id a := whole a_first]> (<[call_id b := whole b_first]> d) /\
     sa = Settled (Return a_first) /\ sb = Settled (Return b_first)).
Proof.
  destruct a as [ida ua ta], b as [idb ub tb]. simpl.
  intros Ha Hb Hrun Hsa Hsb. split.
  - intros <-. assert (jb = ja) as -> by (unfold whole in *; congruence).
    exact (same_job_outcomes d ida ja ua ub ta tb sched d' sa sb
             Ha Hrun Hsa Hsb).
  - intros Hne.
    exact (other_jobs_outcome d ida idb ja jb ua ub ta tb Hne Ha Hb
             sched d' sa sb Hrun Hsa Hsb).
Qed.

(** C9 fails as stated.  Both calls read, then the cancellation writes,
    then the progress report: both return their merged record, and the
    file has lost the status that the cancellation wrote.  And when both
    have opened the file before either writes its text, the shorter text
    of the progress report is laid over the longer one of the
    cancellation: both calls return their record, and the file holds
    none. *)
Lemma update_lost_and_file_torn :
  settled_field (snd (fst racing)) "status" = Some (text "cancelled") /\
  settled_field (snd racing) "progress" = Some (number 80) /\
  file_field (fst (fst racing)) "J1" "status" = Some (text "generating") /\
  file_field (fst (fst racing)) "J1" "progress" = Some (number 80) /\
  settled_field (snd (fst overlapping)) "status" = Some (text "cancelled") /\
  settled_field (snd overlapping) "progress" = Some (number 80) /\
  getJob (fst (fst overlapping)) "J1" = None.
Proof. by vm_compute. Qed.

Lemma concurrent_updates_witness :
  exists f,
    fst (fst in_turn) = <["J1" := f]> running /\
    content f
    = Some (merge (merge running_job (call_updates cancel_call) (js "t2"))
              (call_updates progress_call) (js "t3")).
Proof.
  destruct (concurrent_updates running (fst (fst in_turn))
              cancel_call progress_call running_job running_job
              [(First, true); (First, true); (First, true);
               (Second, true); (Second, true); (Second, true)]
              (snd (fst in_turn)) (snd in_turn)) as [H _].
  - by vm_compute.
  - by vm_compute.
  - reflexivity.
  - by vm_compute.
  - by vm_compute.
  - destruct (H eq_refl) as (f & Hf & _ & _). exists f. split; [exact Hf|].
    apply (f_equal (fun m => m !! "J1")) in Hf.
    rewrite lookup_insert_eq in Hf. by vm_compute in Hf |- *; injection Hf as <-.
Defined.

End ConcurrentUpdatesFacts.

(* ===================================================================== *)
(** * The status route: the estimate of the remaining time *)
(* ===================================================================== *)

Module StatusFacts.

Import JsObject Status JobFiles Estimate Examples FileExamples.

(** [ceil_div100 a] is the least integer not below [a / 100]. *)
Lemma ceil_div100_bounds (a : Z) :
  100 * (ceil_div100 a - 1) < a <= 100 * ceil_div100 a.
Proof.
  unfold ceil_div100.
  pose proof (Z.div_mod (- a) 100 ltac:(lia)).
  pose proof (Z.mod_pos_bound (- a) 100 ltac:(lia)). lia.
Qed.


(** The look-up in the table for a name that is not inherited. *)
Lemma baseEstimates_at_plain (t : jsstring) :
  t ∉ js <$> Object_prototype ->
  default (Seconds (5 * 60)) (baseEstimates_at t)
  = Seconds (if bool_decide (t = js "generate") then 480
             else if bool_decide (t = js "modernize") then 600 else 300).
Proof.
  intros Ht. unfold baseEstimates_at, baseEstimates. cbn [List.find fst snd].
  rewrite (bool_decide_false (t ∈ _)) by done.
  repeat case_bool_decide; subst; done.
Qed.

(** The base time of a job of a plain type: the constant of the table for
    the three types it lists, 300 seconds for any other. *)
Lemma baseTime_table (j : Job) :
  plain_type j ->
  exists base,
    baseTime j = Some (Seconds base) /\
    (j !! "type" = Some (text "generate") -> base = 480) /\
    (j !! "type" = Some (text "analyze") -> base = 300) /\
    (j !! "type" = Some (text "modernize") -> base = 600) /\
    (base = 480 \/ base = 300 \/ base = 600).
Proof.
  unfold baseTime. intros [Hnone|(t & Ht & Hplain)].
  - rewrite Hnone. exists 300. split_and!; auto; done.
  - rewrite Ht, (baseEstimates_at_plain t Hplain). eexists. split; [done|].
    unfold text. split_and!.
    + intros [= ->]. done.
    + intros [= ->]. done.
    + intros [= ->]. done.
    + repeat case_bool_decide; auto.
Qed.




(** A job stored under a type that is the name of a property that every
    object inherits: the base time is that property, and the estimate is
    not a number. *)
Example estimate_of_inherited_type :
  calculateEstimatedTime
    (list_to_map [("type", text "constructor"); ("status", text "planning")])
  = Some NaN.
Proof. by vm_compute. Qed.

End StatusFacts.

(* ===================================================================== *)
(** * The estimate of the status route *)
(* ===================================================================== *)

Module EstimateFacts.

Import JsObject Status Estimate Examples StatusFacts.

Lemma ceil_div100_mono (a b : Z) : a <= b -> ceil_div100 a <= ceil_div100 b.
Proof.
  intros H. pose proof (ceil_div100_bounds a). pose proof (ceil_div100_bounds b).
  lia.
Qed.

Lemma plain_type_eq (j j' : Job) :
  j !! "type" = j' !! "type" -> plain_type j -> plain_type j'.
Proof. unfold plain_type. by intros ->. Qed.

Lemma baseTime_type (j j' : Job) :
  j !! "type" = j' !! "type" -> baseTime j = baseTime j'.
Proof. intros H. unfold baseTime. by rewrite H. Qed.

(** The estimate of a job of a plain type whose progress is within the
    range. *)
Lemma estimate_of (j : Job) (lo : Z) :
  plain_type j -> progress_or_0 j = Some lo -> 0 <= lo <= 100 ->
  exists base,
    baseTime j = Some (Seconds base) /\ 0 < base <= 600 /\
    calculateEstimatedTime j
    = Some (Secs (if terminal j then 0 else ceil_div100 (base * (100 - lo)))).
Proof.
  intros Htype Hlo Hrange.
  destruct (baseTime_table j Htype) as (base & Hbase & _ & _ & _ & Hvalues).
  exists base. split; [done|]. split; [lia|].
  unfold calculateEstimatedTime. rewrite Hbase, Hlo.
  destruct (terminal j); [done|]. cbn zeta.
  assert ((Z.abs (base * (100 - lo)) <=? MAX_SAFE_INTEGER) = true) as ->; [|done].
  apply Z.leb_le. unfold MAX_SAFE_INTEGER. rewrite Z.abs_eq by nia.
  assert (base * (100 - lo) <= 60000) by nia. lia.
Qed.

(** The estimate of the status route for a job of a plain type on its way,
    as its progress grows from 0 to 100: it is never negative, never above
    the base time of the type of the job, it never grows, and it is 0 only
    at progress 100 or once the job is completed, failed or cancelled. *)
Theorem estimate_shrinks (before after : Job) (p q : Z) :
  plain_type before ->
  before !! "type" = after !! "type" ->
  terminal before = false ->
  progress_or_0 before = Some p ->
  progress_or_0 after = Some q ->
  0 <= p <= q -> q <= 100 ->
  exists base e f,
    baseTime before = Some (Seconds base) /\
    calculateEstimatedTime before = Some (Secs e) /\
    calculateEstimatedTime after = Some (Secs f) /\
    0 <= f <= e /\ e <= base /\
    (e = 0 <-> p = 100) /\
    (f = 0 <-> q = 100 \/ terminal after = true).
Proof.
  intros Hplain Htype Hbefore Hp Hq Hpq Hq100.
  destruct (estimate_of before p Hplain Hp ltac:(lia)) as (base & Hbase & Hpos & He).
  destruct (estimate_of after q (plain_type_eq _ _ Htype Hplain) Hq ltac:(lia))
    as (base' & Hbase' & _ & Hf).
  rewrite <- (baseTime_type _ _ Htype), Hbase in Hbase'. injection Hbase' as <-.
  rewrite Hbefore in He.
  pose proof (ceil_div100_bounds (base * (100 - p))) as Hbe.
  pose proof (ceil_div100_bounds (base * (100 - q))) as Hbf.
  pose proof (ceil_div100_mono (base * (100 - q)) (base * (100 - p))
                ltac:(nia)) as Hmono.
  exists base. eexists _, _. split; [done|]. split; [exact He|].
  split; [exact Hf|].
  destruct (terminal after).
  - split_and!; try done; try nia; auto.
  - split_and!; try done; try nia.
Qed.

Lemma estimate_shrinks_witness :
  exists e f,
    calculateEstimatedTime running_job = Some (Secs e) /\
    calculateEstimatedTime finished_job = Some (Secs f) /\
    0 <= f <= e.
Proof.
  destruct (estimate_shrinks running_job finished_job 25 100)
    as (base & e & f & _ & He & Hf & Hfe & _).
  - right. exists (js "generate"). split; [reflexivity|].
    apply (bool_decide_unpack _). by vm_compute.
  - by vm_compute.
  - by vm_compute.
  - by vm_compute.
  - by vm_compute.
  - lia.
  - lia.
  - by exists e, f.
Defined.

End EstimateFacts.

(* ===================================================================== *)
(** * generateMultiPlatformApp: fan-out and fan-in *)
(* ===================================================================== *)

Module CodeGeneratorFacts.

Import JsObject CodeGenerator GenerationExamples.

Lemma elem_of_suspended (platforms : list string) (p : string) :
  p ∈ suspended platforms <-> p ∈ platforms /\ has_agent p = true.
Proof. unfold suspended. by rewrite list_elem_of_filter, (comm and). Qed.

(** For a name that no object inherits, the condition tells whether the
    platform has an agent. *)
Lemma has_agent_own (p : string) :
  inherited p = false -> (has_agent p = true <-> p ∈ agents).
Proof.
  intros Hp. unfold has_agent, agent_of. rewrite Hp.
  case_bool_decide; split; done.
Qed.

Lemma call_generateCode_own (env : collaborators) (p : string) :
  p ∈ agents -> call_generateCode env p = generateCode env p.
Proof.
  intros Hp. unfold call_generateCode, agent_of. by rewrite bool_decide_true.
Qed.

(** The entries set before the first [await]. *)
Lemma lookup_started_from (platforms : list string)
    (results : gmap string platform_result) (q : string) :
  foldl (fun results platform =>
           if has_agent platform then results
           else <[platform := NotGenerated (not_supported platform)]> results)
        results platforms !! q
  = if decide (q ∈ platforms /\ has_agent q = false)
    then Some (NotGenerated (not_supported q))
    else results !! q.
Proof.
  revert results.
  induction platforms as [|p platforms IH]; intros results; cbn [foldl].
  - rewrite decide_False; [done|]. intros [H _]. by apply not_elem_of_nil in H.
  - rewrite IH. destruct (has_agent p) eqn:Hp.
    + destruct (decide (q ∈ platforms /\ _)) as [[H1 H2]|Hn].
      * rewrite decide_True; [done|]. split; [by right|done].
      * rewrite decide_False; [done|]. intros [H1 H2]. apply Hn. split; [|done].
        apply elem_of_cons in H1 as [->|]; [congruence|done].
    + destruct (decide (q ∈ platforms /\ _)) as [[H1 H2]|Hn].
      * rewrite decide_True; [done|]. split; [by right|done].
      * destruct (decide (q = p)) as [->|Hqp].
        -- rewrite lookup_insert_eq. rewrite decide_True; [done|].
           split; [by left|done].
        -- rewrite lookup_insert_ne by done.
           rewrite decide_False; [done|]. intros [H1 H2]. apply Hn. split; [|done].
           apply elem_of_cons in H1 as [->|]; done.
Qed.

Lemma lookup_started (platforms : list string) (q : string) :
  started platforms !! q
  = if decide (q ∈ platforms /\ has_agent q = false)
    then Some (NotGenerated (not_supported q))
    else None.
Proof. unfold started. by rewrite lookup_started_from, lookup_empty. Qed.

Section WithCollaborators.

Variable env : collaborators.
Variable jobId : string.
Hypothesis dirs_ok : forall dir, ensureDir env dir = Return tt.

(** When every callback of [order] gets its code, the join returns with
    nothing in flight, and each of them has set its entry. *)
Lemma promise_all_returns (order : list string)
    (results : gmap string platform_result) :
  (forall p, p ∈ order -> p ∈ agents) ->
  (forall p, p ∈ order -> is_Some (returned (generateCode env p))) ->
  exists results',
    promise_all env jobId order results = (Return results', O) /\
    forall q, results' !! q =
      if decide (q ∈ order) then Some (expected_result env q) else results !! q.
Proof.
  revert results.
  induction order as [|p order IH]; intros results Hag Hok; cbn [promise_all].
  - exists results. split; [done|]. intros q. rewrite decide_False; [done|].
    apply not_elem_of_nil.
  - unfold settle_one. rewrite dirs_ok.
    rewrite call_generateCode_own by (apply Hag; by left).
    destruct (Hok p) as [c Hc]; [by left|].
    destruct (generateCode env p) as [code|] eqn:Hgen; [|done].
    destruct (IH (<[p := Generated (files code) (structure code)]> results))
      as (results' & -> & Hlook).
    { intros q Hq. apply Hag. by right. }
    { intros q Hq. apply Hok. by right. }
    exists results'. split; [done|]. intros q. rewrite Hlook.
    destruct (decide (q ∈ order)) as [Hq|Hq].
    + rewrite decide_True; [done|by right].
    + destruct (decide (q = p)) as [->|Hqp].
      * rewrite lookup_insert_eq. rewrite decide_True by (by left).
        unfold expected_result. rewrite Hgen.
        rewrite bool_decide_true; [done|]. apply Hag. by left.
      * rewrite lookup_insert_ne by done. rewrite decide_False; [done|].
        intros H. apply elem_of_cons in H as [?|?]; done.
Qed.

(** When the code of some callback of [order] cannot be generated, the
    join rejects with the error of the first such callback in [order],
    the later ones still in flight. *)
Lemma promise_all_rejects (order : list string)
    (results : gmap string platform_result) :
  (forall p, p ∈ order -> p ∈ agents) ->
  (exists p, p ∈ order /\ returned (generateCode env p) = None) ->
  exists before p after m,
    order = before ++ p :: after /\
    generateCode env p = Throw m /\
    (forall q, q ∈ before -> is_Some (returned (generateCode env q))) /\
    promise_all env jobId order results = (Throw m, length after).
Proof.
  revert results.
  induction order as [|p order IH]; intros results Hag (q & Hq & Hfail).
  - by apply not_elem_of_nil in Hq.
  - cbn [promise_all]. unfold settle_one. rewrite dirs_ok.
    rewrite call_generateCode_own by (apply Hag; by left).
    destruct (generateCode env p) as [code|m] eqn:Hgen.
    + destruct (IH (<[p := Generated (files code) (structure code)]> results))
        as (before & p' & after & m & -> & Hm & Hbefore & ->).
      { intros x Hx. apply Hag. by right. }
      { exists q. split; [|done]. apply elem_of_cons in Hq as [->|]; [|done].
        by rewrite Hgen in Hfail. }
      exists (p :: before), p', after, m. split_and!; [done|done| |done].
      intros x Hx. apply elem_of_cons in Hx as [->|]; [|by apply Hbefore].
      rewrite Hgen. by eexists.
    + exists [], p, order, m. split_and!; [done|done| |done].
      intros x Hx. by apply not_elem_of_nil in Hx.
Qed.

Hypothesis documentation_ok : generateDocumentation env = Return tt.

(** C1 (as amended): for platform names that are not names that every
    object inherits, and with the other collaborators working: when the
    code of every requested platform that has an agent is generated, the
    call returns a result map with exactly one entry per requested
    platform, the entry of a platform without an agent recording the
    failure.  When some agent fails, the join rejects at the first
    rejection in settling order, the callbacks that settle later still in
    flight; the whole call throws that agent's error, and no result map is
    returned: the failure is recorded nowhere. *)
Theorem generateMultiPlatformApp_outcome (platforms order : list string) :
  settle_order platforms order ->
  (forall p, p ∈ platforms -> inherited p = false) ->
  ((forall p, p ∈ platforms -> p ∈ agents ->
      is_Some (returned (generateCode env p))) ->
   exists g,
     generateMultiPlatformApp env platforms jobId order = (Return g, O) /\
     dom (g_results g) = list_to_set platforms /\
     forall p, p ∈ platforms -> g_results g !! p = Some (expected_result env p)) /\
  ((exists p, p ∈ platforms /\ p ∈ agents /\
      returned (generateCode env p) = None) ->
   exists before p after m,
     order = before ++ p :: after /\
     p ∈ platforms /\ p ∈ agents /\
     generateCode env p = Throw m /\
     (forall q, q ∈ before -> is_Some (returned (generateCode env q))) /\
     generateMultiPlatformApp env platforms jobId order
       = (Throw m, length after)).
Proof.
  intros Horder Hnames. unfold settle_order in Horder.
  assert (forall p, p ∈ order <-> p ∈ platforms /\ p ∈ agents) as Hmem.
  { intros p. rewrite Horder, elem_of_suspended. split.
    - intros [Hp Ha]. split; [done|]. by apply has_agent_own; [apply Hnames|].
    - intros [Hp Ha]. split; [done|]. by apply has_agent_own; [apply Hnames|]. }
  unfold generateMultiPlatformApp. rewrite dirs_ok. split.
  - intros Hok.
    destruct (promise_all_returns order (started platforms))
      as (results & -> & Hlook).
    { intros p Hp. by apply Hmem in Hp as [_ ?]. }
    { intros p Hp. apply Hmem in Hp as [? ?]. by apply Hok. }
    rewrite documentation_ok. eexists. split; [done|]. simpl.
    assert (forall p, p ∈ platforms -> results !! p = Some (expected_result env p))
      as Hentry.
    { intros p Hp. rewrite Hlook, lookup_started.
      destruct (decide (p ∈ agents)) as [Hagent|Hagent].
      - rewrite decide_True; [done|]. by apply Hmem.
      - rewrite decide_False by (rewrite Hmem; intros [_ ?]; done).
        assert (has_agent p = false) as Hno.
        { destruct (has_agent p) eqn:E; [|done].
          apply has_agent_own in E; [done|by apply Hnames]. }
        rewrite decide_True by done.
        unfold expected_result. by rewrite bool_decide_false. }
    split; [|done].
    apply set_eq. intros p. rewrite elem_of_dom, elem_of_list_to_set. split.
    + intros [r Hr]. rewrite Hlook, lookup_started in Hr.
      destruct (decide (p ∈ order)) as [Hp|Hp]; [by apply Hmem in Hp as [? _]|].
      destruct (decide (p ∈ platforms /\ _)) as [[? _]|]; done.
    + intros Hp. rewrite (Hentry p Hp). by eexists.
  - intros (p & Hp & Hagent & Hfail).
    destruct (promise_all_rejects order (started platforms))
      as (before & q & after & m & Heq & Hm & Hbefore & ->).
    { intros x Hx. by apply Hmem in Hx as [_ ?]. }
    { exists p. split; [by apply Hmem|done]. }
    assert (q ∈ order) as Hq.
    { rewrite Heq. apply elem_of_app. right. by left. }
    apply Hmem in Hq as [? ?].
    by exists before, q, after, m.
Qed.

End WithCollaborators.

(** C1 fails as stated: whichever callback settles first, the call
    throws and returns no result map; when the failing one settles first
    the call is over while its sibling is still in flight. *)
Lemma generateMultiPlatformApp_fails_fast :
  settle_order ["ios"; "android"] ["android"; "ios"] /\
  settle_order ["ios"; "android"] ["ios"; "android"] /\
  expected_result one_fails "ios" = Generated [js "App.swift"] (JObject []) /\
  success (expected_result one_fails "android") = false /\
  generateMultiPlatformApp one_fails ["ios"; "android"] "J1" ["android"; "ios"]
    = (Throw (js "Could not process AI response: Unexpected token"), 1%nat) /\
  generateMultiPlatformApp one_fails ["ios"; "android"] "J1" ["ios"; "android"]
    = (Throw (js "Could not process AI response: Unexpected token"), 0%nat).
Proof.
  split_and!; try by vm_compute.
  unfold settle_order. change (suspended ["ios"; "android"]) with ["ios"; "android"].
  apply perm_swap.
Qed.

Lemma generateMultiPlatformApp_witness :
  exists g,
    generateMultiPlatformApp all_succeed ["ios"; "desktop"; "web"] "J1" ["web"; "ios"]
      = (Return g, O) /\
    dom (g_results g) = list_to_set ["ios"; "desktop"; "web"].
Proof.
  destruct (generateMultiPlatformApp_outcome all_succeed "J1"
              (fun _ => eq_refl) eq_refl
              ["ios"; "desktop"; "web"] ["web"; "ios"]) as [H _].
  - unfold settle_order.
    change (suspended ["ios"; "desktop"; "web"]) with ["ios"; "web"].
    apply perm_swap.
  - intros p Hp.
    repeat (apply elem_of_cons in Hp as [->|Hp]; [reflexivity|]).
    by apply not_elem_of_nil in Hp.
  - destruct H as (g & Hg & Hdom & _).
    + intros p _ _. by eexists.
    + by exists g.
Defined.

(** A platform under a name that every object inherits is taken for one
    that has an agent: its callback is suspended, and rejects with a
    [TypeError] when it goes on; the call throws. *)
Example inherited_platform_name :
  has_agent "toString" = true /\
  suspended ["ios"; "toString"] = ["ios"; "toString"] /\
  generateMultiPlatformApp all_succeed ["ios"; "toString"] "J1" ["ios"; "toString"]
    = (Throw (js "this.agents[platform].generateCode is not a function"), 0%nat).
Proof. by vm_compute. Qed.

End CodeGeneratorFacts.

(* ===================================================================== *)
(** * The steps of the runners and of the cancellation route *)
(* ===================================================================== *)

Module Cancellation.

Import Pipeline Status JobManagerFacts.

Section OneJob.

Variable jobId : string.



(** A cancellation request, and what it awaits, never moves the runner. *)
Lemma step_other_run (s : system) (e : event) :
  is_runner_event e = false -> run (step jobId s e) = run s.
Proof.
  destruct e as [now result| |i now]; [done|done|]. intros _. cbn [step].
  destruct (requests s !! i) as [c|]; [|done].
  by destruct (cancel_step _ _ _ _).
Qed.

End OneJob.

End Cancellation.

(* ===================================================================== *)
(** * Updates merged into a record: status, result and error *)
(* ===================================================================== *)

Module TerminalFields.

Import Pipeline Status Invariants JobManagerFacts.

Lemma is_status_merge (j u : Job) (t : jsstring) (name : string) :
  is_Some (u !! "status") ->
  is_status (merge j u t) name = is_status u name.
Proof.
  intros [x Hx]. unfold is_status.
  rewrite lookup_merge, decide_False by done. by rewrite Hx.
Qed.

Lemma is_status_is_Some (u : Job) (name : string) :
  is_status u name = true -> is_Some (u !! "status").
Proof. unfold is_status. destruct (u !! "status"); [by eexists|done]. Qed.

Lemma lookup_merge_result (j u : Job) (t : jsstring) :
  merge j u t !! "result"
  = match u !! "result" with Some v => Some v | None => j !! "result" end.
Proof. by rewrite lookup_merge, decide_False. Qed.

Lemma lookup_merge_error (j u : Job) (t : jsstring) :
  merge j u t !! "error"
  = match u !! "error" with Some v => Some v | None => j !! "error" end.
Proof. by rewrite lookup_merge, decide_False. Qed.

Lemma completed_not_failed (j : Job) :
  is_status j "completed" = true -> is_status j "failed" = false.
Proof.
  unfold is_status. destruct (j !! "status") as [[]|]; try done.
  intros H. apply bool_decide_eq_true in H as ->. reflexivity.
Qed.

Lemma failed_not_completed (j : Job) :
  is_status j "failed" = true -> is_status j "completed" = false.
Proof.
  unfold is_status. destruct (j !! "status") as [[]|]; try done.
  intros H. apply bool_decide_eq_true in H as ->. reflexivity.
Qed.

Lemma merge_stage (j u : Job) (t : jsstring) :
  calm j -> stage_update u -> calm (merge j u t).
Proof.
  intros (Hr & He & _) (Hs & [Hc Hf] & Hur & Hue). split_and!.
  - by rewrite lookup_merge_result, Hur.
  - by rewrite lookup_merge_error, Hue.
  - split; by rewrite is_status_merge.
Qed.

Lemma merge_stage_unfinished (j u : Job) (t : jsstring) :
  stage_update u -> unfinished (merge j u t).
Proof. intros (Hs & [Hc Hf] & _). split; by rewrite is_status_merge. Qed.

Ltac update_shape :=
  intros ?; unfold stage_update, final_update, unfinished;
  split_and!; first [reflexivity | by eexists].

Ltac staged_body :=
  repeat first
    [ apply staged_done
    | apply staged_final; update_shape
    | apply staged_update; [update_shape|]
    | apply staged_work; intros ? ].

Lemma generateAppAsync_staged : staged generateAppAsync.
Proof. unfold generateAppAsync. staged_body. Qed.

Lemma analyzeCodeAsync_staged : staged analyzeCodeAsync.
Proof. unfold analyzeCodeAsync. staged_body. Qed.

Lemma modernizeCodeAsync_staged : staged modernizeCodeAsync.
Proof. unfold modernizeCodeAsync. staged_body. Qed.

End TerminalFields.

(* ===================================================================== *)
(** * Updates merged into a record: progress *)
(* ===================================================================== *)

Module Progress.

Import Pipeline Status Invariants JobManagerFacts Cancellation.

Lemma progress_merge_set (j u : Job) (t : jsstring) (c : Z) :
  u !! "progress" = Some (number c) -> progress_or_0 (merge j u t) = Some c.
Proof.
  intros Hu. unfold progress_or_0.
  rewrite lookup_merge, decide_False by done. by rewrite Hu.
Qed.

Lemma progress_merge_keep (j u : Job) (t : jsstring) :
  u !! "progress" = None -> progress_or_0 (merge j u t) = progress_or_0 j.
Proof.
  intros Hu. unfold progress_or_0.
  rewrite lookup_merge, decide_False by done. by rewrite Hu.
Qed.

Lemma terminal_is_Some (u : Job) : terminal u = true -> is_Some (u !! "status").
Proof.
  unfold terminal, is_status. destruct (u !! "status"); [by eexists|done].
Qed.

Lemma terminal_merge (j u : Job) (t : jsstring) :
  terminal u = true -> terminal (merge j u t) = true.
Proof.
  intros Hu. pose proof (terminal_is_Some _ Hu) as [x Hx].
  unfold terminal, is_status in *.
  rewrite lookup_merge, decide_False by done. by rewrite Hx in *.
Qed.

Section OneJob.

Variable jobId : string.


End OneJob.

Ltac climbing :=
  repeat first
    [ apply climbs_done
    | eapply climbs_set; [intros ?; reflexivity | lia | ]
    | apply climbs_keep; [intros ?; reflexivity | ]
    | apply climbs_work; intros ? ].

Lemma generateAppAsync_climbs : climbs 0 generateAppAsync.
Proof. unfold generateAppAsync. climbing. Qed.

Lemma analyzeCodeAsync_climbs : climbs 0 analyzeCodeAsync.
Proof. unfold analyzeCodeAsync. climbing. Qed.

Lemma modernizeCodeAsync_climbs : climbs 0 modernizeCodeAsync.
Proof. unfold modernizeCodeAsync. climbing. Qed.

End Progress.

(* ===================================================================== *)
(** * The runners from their start *)
(* ===================================================================== *)

Module Runs.

Import Pipeline Status Invariants Examples JobManagerFacts Cancellation
  TerminalFields Progress.


End Runs.

(* ===================================================================== *)
(** * The runners: how a run ends *)
(* ===================================================================== *)

Module RunEnds.

Import Pipeline Status Invariants RunShape Examples RunExamples JobManagerFacts
  Cancellation Progress Runs.


Section OneJob.

Variable jobId : string.

(** While nothing is under way, a completed or failed job is left as it
    is by whatever comes. *)
Lemma step_quiet (s : system) (e : event) (j : Job) :
  quiet s -> jobs s !! jobId = Some j ->
  is_status j "completed" || is_status j "failed" = true ->
  quiet (step jobId s e) /\ jobs (step jobId s e) = jobs s.
Proof.
  intros [Hrun Hreq] Hj Hst. destruct e as [now result| |i now].
  - cbn [step]. unfold runner_step.
    destruct Hrun as [Hr|[m Hr]]; rewrite Hr; cbn [jobs run requests];
      (split; [split|done]); [by left|done|right; by eexists|done].
  - cbn [step jobs]. split; [|done]. split; [done|]. cbn [requests].
    apply Forall_app. split; [done|]. apply Forall_singleton. by left.
  - cbn [step]. destruct (requests s !! i) as [c|] eqn:Hc; [|done].
    pose proof (proj1 (Forall_lookup _ _) Hreq i c Hc) as [->|[code ->]].
    + cbn [cancel_step]. unfold getJob. rewrite Hj, Hst. cbn [jobs run requests].
      split; [|done]. split; [done|]. apply Forall_insert; [done|].
      right. by eexists.
    + cbn [cancel_step jobs run requests].
      split; [|done]. split; [done|]. apply Forall_insert; [done|].
      right. by eexists.
Qed.

Lemma exec_quiet (sched : list event) (s : system) (j : Job) :
  quiet s -> jobs s !! jobId = Some j ->
  is_status j "completed" || is_status j "failed" = true ->
  quiet (exec jobId s sched) /\ jobs (exec jobId s sched) = jobs s.
Proof.
  revert s. induction sched as [|e sched IH]; intros s Hq Hj Hst; [done|].
  cbn [exec foldl].
  destruct (step_quiet s e j Hq Hj Hst) as [Hq' Hjobs].
  destruct (IH (step jobId s e) Hq') as [Hq'' Hjobs'']; [by rewrite Hjobs|done|].
  split; [done|]. unfold exec in Hjobs''. by rewrite Hjobs''.
Qed.

End OneJob.

(** A job that is completed or failed while nothing is under way (the
    runner has returned, no cancellation request is past its check) keeps
    its record for ever: every later cancellation request is refused
    without a write. *)
Theorem finished_job_is_final (jobId : string) (s : system) (j : Job)
    (sched : list event) :
  quiet s ->
  jobs s !! jobId = Some j ->
  is_status j "completed" || is_status j "failed" = true ->
  jobs (exec jobId s sched) = jobs s /\
  Forall (fun c => c = Checking \/ exists code, c = Responded code)
    (requests (exec jobId s sched)).
Proof.
  intros Hq Hj Hst.
  destruct (exec_quiet jobId sched s j Hq Hj Hst) as [[_ Hreq] Hjobs]. by split.
Qed.

Lemma finished_job_is_final_witness :
  jobs (exec "J1" at_rest cancellation) = jobs at_rest /\
  requests (exec "J1" at_rest cancellation) = [Responded 400].
Proof.
  destruct (finished_job_is_final "J1" at_rest finished_job cancellation)
    as [Hjobs _].
  - split; [by left|constructor].
  - reflexivity.
  - reflexivity.
  - split; [exact Hjobs|reflexivity].
Defined.

End RunEnds.

Module RunPaths.

Import Pipeline Status Invariants RunShape Examples RunExamples JobManagerFacts
  Cancellation Runs.

Section OneJob.

Variable jobId : string.

(** An update with nothing in between: both halves, then on to the next
    [await]. *)
Lemma exec_update (s : system) (in_catch : bool) (u : Job) (k : prog) (j : Job)
    (now1 now2 : jsstring) (r1 r2 : outcome json) (sched : list event) :
  run s = Reading in_catch u k ->
  jobs s !! jobId = Some j ->
  exec jobId s (Runner now1 r1 :: Runner now2 r2 :: sched)
  = exec jobId
      {| jobs := <[jobId := merge j u now1]> (jobs s);
         run := if in_catch then Finished else resume k now2;
         requests := requests s |} sched.
Proof.
  intros Hrun Hj. cbn [exec foldl]. f_equal.
  destruct s as [st r reqs]. cbn [jobs run requests] in *. subst r.
  cbn [step jobs run requests runner_step]. unfold updateJob_read, getJob.
  rewrite Hj. reflexivity.
Qed.

Lemma exec_work (s : system) (name : string) (k : json -> prog)
    (now : jsstring) (result : outcome json) (sched : list event) :
  run s = Working name k ->
  exec jobId s (Runner now result :: sched)
  = exec jobId
      {| jobs := jobs s;
         run := match result with
                | Return v => resume (k v) now
                | Throw m => caught m now
                end;
         requests := requests s |} sched.
Proof.
  intros Hrun. cbn [exec foldl]. f_equal.
  destruct s as [st r reqs]. cbn [jobs run requests] in *. subst r.
  cbn [step jobs run requests runner_step]. by destruct result.
Qed.

End OneJob.

(** A stage that throws, with nothing in between: the job is stored as
    failed with the message of the error and the time of the failure,
    every other property (the progress reached, the planning data) is
    left as it was, and the runner returns. *)
Theorem failed_stage_recorded (jobId : string) (s : system) (name : string)
    (k : json -> prog) (j : Job) (m now1 now2 now3 : jsstring)
    (r2 r3 : outcome json) :
  run s = Working name k ->
  jobs s !! jobId = Some j ->
  let s' := exec jobId s [Runner now1 (Throw m); Runner now2 r2; Runner now3 r3] in
  run s' = Finished /\
  record jobId s' !! "status" = Some (text "failed") /\
  record jobId s' !! "error" = Some (JString m) /\
  record jobId s' !! "failedAt" = Some (JString now1) /\
  record jobId s' !! "updatedAt" = Some (JString now2) /\
  (forall f, f <> "status" -> f <> "error" -> f <> "failedAt" ->
     f <> "updatedAt" -> record jobId s' !! f = j !! f) /\
  (forall other, other <> jobId -> jobs s' !! other = jobs s !! other).
Proof.
  intros Hrun Hj s'. unfold s'.
  rewrite (exec_work jobId s name k now1 (Throw m)) by done.
  erewrite exec_update; [|reflexivity|exact Hj].
  cbn [exec foldl run jobs]. unfold record. cbn [jobs].
  rewrite lookup_insert_eq. cbn [default from_option id].
  split_and!; try (by rewrite ?lookup_merge).
  - intros f H1 H2 H3 H4. rewrite lookup_merge, decide_False by done.
    unfold fields. cbn [list_to_map foldr uncurry fst snd].
    by rewrite !lookup_insert_ne, lookup_empty by done.
  - intros other Ho. by rewrite lookup_insert_ne.
Qed.

Lemma failed_stage_recorded_witness :
  let s' := exec "J1" generating
              [Runner (js "t3") (Throw (js "Could not process AI response"));
               Runner (js "t4") (Return JNull); Runner (js "t4") (Return JNull)] in
  run s' = Finished /\
  record "J1" s' !! "status" = Some (text "failed") /\
  record "J1" s' !! "error" = Some (JString (js "Could not process AI response")) /\
  record "J1" s' !! "progress" = Some (number 25).
Proof.
  intros s'.
  destruct (failed_stage_recorded "J1" generating "generateMultiPlatformApp"
              (fun _ => Done) running_job (js "Could not process AI response")
              (js "t3") (js "t4") (js "t4") (Return JNull) (Return JNull)
              eq_refl eq_refl) as (H1 & H2 & H3 & _ & _ & H4 & _).
  split_and!; [done|done|done|]. by rewrite H4.
Defined.

(** [generateAppAsync] when its three stages return and nothing comes in
    between: the job is completed with progress 100, the planning data
    and the packaged result are stored, and of the data of the request
    everything but the status is as it was. *)
Theorem generateAppAsync_completes (st : store) (jobId : string) (jobData : Job)
    (clock : nat -> jsstring) (planningData generationResult packagedResult : json) :
  let s := exec jobId (start generateAppAsync st jobId jobData (clock 0%nat))
             (completions clock
                (stage (Return planningData) ++ stage (Return generationResult) ++
                 stage (Return packagedResult) ++ [Return JNull; Return JNull])) in
  run s = Finished /\
  record jobId s !! "status" = Some (text "completed") /\
  record jobId s !! "progress" = Some (number 100) /\
  record jobId s !! "planningData" = Some planningData /\
  record jobId s !! "result" = Some packagedResult /\
  record jobId s !! "completedAt" = Some (JString (clock 9%nat)) /\
  record jobId s !! "updatedAt" = Some (JString (clock 10%nat)) /\
  record jobId s !! "createdAt" = Some (JString (clock 0%nat)) /\
  (forall f, f <> "status" -> f <> "progress" -> f <> "planningData" ->
     f <> "result" -> f <> "completedAt" -> f <> "updatedAt" ->
     f <> "createdAt" -> f <> "id" ->
     record jobId s !! f = jobData !! f) /\
  (forall other, other <> jobId -> jobs s !! other = st !! other).
Proof.
  intros s. unfold s, completions, stage. cbn [app imap compose].
  destruct (createJob_record st jobId jobData (clock 0%nat) (clock 0%nat))
    as (j & Hc & Hj & Hcreated & _ & Hk & Hother).
  unfold start, generateAppAsync. rewrite Hc. cbn [fst resume].
  erewrite exec_update; [|reflexivity|by cbn [jobs]; rewrite lookup_insert_eq].
  cbn [jobs requests resume]. rewrite insert_insert_eq.
  erewrite exec_work by reflexivity. cbn [jobs requests resume].
  erewrite exec_update; [|reflexivity|by cbn [jobs]; rewrite lookup_insert_eq].
  cbn [jobs requests resume]. rewrite insert_insert_eq.
  erewrite exec_work by reflexivity. cbn [jobs requests resume].
  erewrite exec_update; [|reflexivity|by cbn [jobs]; rewrite lookup_insert_eq].
  cbn [jobs requests resume]. rewrite insert_insert_eq.
  erewrite exec_work by reflexivity. cbn [jobs requests resume].
  erewrite exec_update; [|reflexivity|by cbn [jobs]; rewrite lookup_insert_eq].
  cbn [jobs requests resume]. rewrite insert_insert_eq.
  cbn [exec foldl run]. unfold record. cbn [jobs].
  rewrite lookup_insert_eq. cbn [default from_option id].
  split_and!; try (by rewrite ?lookup_merge).
  - intros f H1 H2 H3 H4 H5 H6 H7 H8.
    rewrite !lookup_merge. rewrite !decide_False by done.
    unfold fields. cbn [list_to_map foldr uncurry fst snd].
    rewrite !lookup_insert_ne, !lookup_empty by done.
    rewrite (Hk f H7 H6). destruct (jobData !! f); [done|].
    by rewrite decide_False.
  - intros other Ho. by rewrite lookup_insert_ne.
Qed.

(** [analyzeCodeAsync] when its three stages return and nothing comes in
    between: the job is completed with progress 100, and its result
    holds the analysis, the recommendations and the number of files that
    were extracted. *)
Theorem analyzeCodeAsync_completes (st : store) (jobId : string) (jobData : Job)
    (clock : nat -> jsstring) (extractedFiles : list json)
    (analysis recommendations : json) :
  let s := exec jobId (start analyzeCodeAsync st jobId jobData (clock 0%nat))
             (completions clock
                (stage (Return (JArray extractedFiles)) ++ stage (Return analysis) ++
                 stage (Return recommendations) ++ [Return JNull; Return JNull])) in
  run s = Finished /\
  record jobId s !! "status" = Some (text "completed") /\
  record jobId s !! "progress" = Some (number 100) /\
  record jobId s !! "result"
    = Some (JObject [(js "analysis", analysis);
                     (js "recommendations", recommendations);
                     (js "files_analyzed",
                      number (Z.of_nat (length extractedFiles)))]) /\
  record jobId s !! "completedAt" = Some (JString (clock 9%nat)) /\
  record jobId s !! "updatedAt" = Some (JString (clock 10%nat)) /\
  record jobId s !! "createdAt" = Some (JString (clock 0%nat)) /\
  (forall f, f <> "status" -> f <> "progress" -> f <> "result" ->
     f <> "completedAt" -> f <> "updatedAt" -> f <> "createdAt" -> f <> "id" ->
     record jobId s !! f = jobData !! f) /\
  (forall other, other <> jobId -> jobs s !! other = st !! other).
Proof.
  intros s. unfold s, completions, stage. cbn [app imap compose].
  destruct (createJob_record st jobId jobData (clock 0%nat) (clock 0%nat))
    as (j & Hc & Hj & Hcreated & _ & Hk & Hother).
  unfold start, analyzeCodeAsync. rewrite Hc. cbn [fst resume].
  erewrite exec_update; [|reflexivity|by cbn [jobs]; rewrite lookup_insert_eq].
  cbn [jobs requests resume]. rewrite insert_insert_eq.
  erewrite exec_work by reflexivity. cbn [jobs requests resume].
  erewrite exec_update; [|reflexivity|by cbn [jobs]; rewrite lookup_insert_eq].
  cbn [jobs requests resume]. rewrite insert_insert_eq.
  erewrite exec_work by reflexivity. cbn [jobs requests resume].
  erewrite exec_update; [|reflexivity|by cbn [jobs]; rewrite lookup_insert_eq].
  cbn [jobs requests resume]. rewrite insert_insert_eq.
  erewrite exec_work by reflexivity. cbn [jobs requests resume].
  erewrite exec_update; [|reflexivity|by cbn [jobs]; rewrite lookup_insert_eq].
  cbn [jobs requests resume]. rewrite insert_insert_eq.
  cbn [exec foldl run]. unfold record. cbn [jobs].
  rewrite lookup_insert_eq. cbn [default from_option id].
  split_and!; try (by rewrite ?lookup_merge).
  - intros f H1 H2 H3 H4 H5 H6 H7.
    rewrite !lookup_merge. rewrite !decide_False by done.
    unfold fields. cbn [list_to_map foldr uncurry fst snd].
    rewrite !lookup_insert_ne, !lookup_empty by done.
    rewrite (Hk f H6 H5). destruct (jobData !! f); [done|].
    by rewrite decide_False.
  - intros other Ho. by rewrite lookup_insert_ne.
Qed.

End RunPaths.

Module CancelFacts.

Import Pipeline Status Examples RunExamples JobManagerFacts Cancellation.

(** A cancellation request handled with nothing in between, from its
    status check to its answer: the runner is left where it is; the
    answer is 404 for a job that is not there and 400 for a completed or
    failed one, both without a write; for any other job, a cancelled one
    included, it is 200, and the record gets the status [cancelled], the
    time of the request as [cancelledAt] and the time of the update as
    [updatedAt], all its other properties staying as they were. *)
Theorem cancellation_alone (jobId : string) (s : system) (i : nat)
    (now1 now2 now3 : jsstring) :
  requests s !! i = Some Checking ->
  let s' := exec jobId s [Cancel i now1; Cancel i now2; Cancel i now3] in
  run s' = run s /\
  match jobs s !! jobId with
  | None => requests s' !! i = Some (Responded 404) /\ jobs s' = jobs s
  | Some job =>
      if is_status job "completed" || is_status job "failed"
      then requests s' !! i = Some (Responded 400) /\ jobs s' = jobs s
      else
        requests s' !! i = Some (Responded 200) /\
        jobs s'
        = <[jobId := merge job (fields [("status", text "cancelled");
                                        ("cancelledAt", JString now1)]) now2]>
            (jobs s)
  end.
Proof.
  intros Hi s'. unfold s'. cbn [exec foldl].
  split; [by rewrite !step_other_run|].
  pose proof (lookup_lt_Some _ _ _ Hi) as Hlt.
  destruct s as [st r reqs]. cbn [jobs run requests] in *.
  cbn [step requests jobs run]. rewrite Hi. cbn [cancel_step]. unfold getJob.
  destruct (st !! jobId) as [job|] eqn:Hj.
  - destruct (is_status job "completed" || is_status job "failed") eqn:Hst.
    + repeat (progress (cbn [step requests jobs run cancel_step];
                        rewrite ?list_lookup_insert_eq
                          by (by rewrite ?length_insert))).
      done.
    + repeat (progress (cbn [step requests jobs run cancel_step];
                        rewrite ?list_lookup_insert_eq
                          by (by rewrite ?length_insert);
                        unfold updateJob_read, updateJob_write, getJob;
                        rewrite ?Hj)).
      done.
  - repeat (progress (cbn [step requests jobs run cancel_step];
                      rewrite ?list_lookup_insert_eq
                        by (by rewrite ?length_insert))).
    done.
Qed.

Lemma cancellation_alone_witness :
  let s' := exec "J1" (step "J1" generating Request)
              [Cancel 0 (js "t2"); Cancel 0 (js "t2"); Cancel 0 (js "t2")] in
  requests s' !! 0%nat = Some (Responded 200) /\
  record "J1" s' !! "status" = Some (text "cancelled") /\
  record "J1" s' !! "progress" = Some (number 25).
Proof.
  intros s'.
  destruct (cancellation_alone "J1" (step "J1" generating Request) 0
              (js "t2") (js "t2") (js "t2") eq_refl) as [_ H].
  change (jobs (step "J1" generating Request) !! "J1") with (Some running_job) in H.
  change (is_status running_job "completed" || is_status running_job "failed")
    with false in H.
  destruct H as [Hr Hj]. split; [exact Hr|].
  subst s'. unfold record. rewrite Hj. by vm_compute.
Defined.

End CancelFacts.

(* ===================================================================== *)
(** * JobManager: deletion, updates in a row, listing and cleanup *)
(* ===================================================================== *)

Module JobDirectoryFacts.

Import Status JobDirectory JobManagerFacts Examples DirectoryExamples.

Lemma list_ascii_of_string_app (a b : string) :
  list_ascii_of_string (a +:+ b) = list_ascii_of_string a ++ list_ascii_of_string b.
Proof.
  induction a as [|c a IH]; [done|].
  change (String c a +:+ b) with (String c (a +:+ b)). cbn. f_equal. apply IH.
Qed.

Lemma string_of_list_ascii_app (l : list ascii) (b : string) :
  string_of_list_ascii (l ++ list_ascii_of_string b) = string_of_list_ascii l +:+ b.
Proof.
  induction l as [|c l IH]; [apply string_of_list_ascii_of_string|].
  cbn [app string_of_list_ascii].
  change (String c (string_of_list_ascii l) +:+ b)
    with (String c (string_of_list_ascii l +:+ b)).
  f_equal. apply IH.
Qed.

Lemma job_of_file_job_file (jobId : string) :
  job_of_file (job_file jobId) = Some jobId.
Proof.
  unfold job_of_file, job_file. rewrite list_ascii_of_string_app.
  rewrite length_app. cbn [list_ascii_of_string length].
  replace (length (list_ascii_of_string jobId) + 5 - 5)%nat
    with (length (list_ascii_of_string jobId)) by lia.
  rewrite drop_app_length, take_app_length. rewrite decide_True by done.
  by rewrite string_of_list_ascii_of_string.
Qed.

Lemma job_of_file_Some (file jobId : string) :
  job_of_file file = Some jobId -> file = job_file jobId.
Proof.
  unfold job_of_file, job_file. case_decide as Hd; [|done].
  intros [= <-]. rewrite <- (string_of_list_ascii_of_string file) at 1.
  rewrite <- (take_drop (length (list_ascii_of_string file) - 5)
                (list_ascii_of_string file)) at 1.
  rewrite Hd. apply (string_of_list_ascii_app _ ".json").
Qed.

Lemma job_file_inj (a b : string) : job_file a = job_file b -> a = b.
Proof.
  intros H. apply (f_equal job_of_file) in H.
  rewrite !job_of_file_job_file in H. by injection H.
Qed.

Lemma endsWith_json_true (file : string) :
  endsWith_json file = true <-> exists jobId, file = job_file jobId.
Proof.
  unfold endsWith_json. rewrite bool_decide_eq_true. split.
  - intros [jobId H]. exists jobId. by apply job_of_file_Some.
  - intros [jobId ->]. rewrite job_of_file_job_file. by eexists.
Qed.

(** ** [deleteJob] *)

Lemma updateJob_missing (st : store) (jobId : string) (updates : Job)
    (now : jsstring) :
  st !! jobId = None ->
  updateJob st jobId updates now = (st, Throw (not_found jobId)).
Proof. intros H. unfold updateJob, updateJob_read, getJob. by rewrite H. Qed.

(** After [deleteJob] the job is gone: [getJob] answers null, an update
    throws [Job <id> not found] and writes nothing, and the other jobs
    are as they were.  Deleting a job that is not there changes nothing. *)
Theorem deleteJob_forgets (st : store) (jobId : string) (updates : Job)
    (now : jsstring) :
  getJob (deleteJob st jobId) jobId = None /\
  updateJob (deleteJob st jobId) jobId updates now
    = (deleteJob st jobId, Throw (not_found jobId)) /\
  (forall other, other <> jobId ->
     getJob (deleteJob st jobId) other = getJob st other) /\
  (getJob st jobId = None -> deleteJob st jobId = st) /\
  deleteJob (deleteJob st jobId) jobId = deleteJob st jobId.
Proof.
  unfold deleteJob, getJob. split_and!.
  - apply lookup_delete_eq.
  - apply updateJob_missing, lookup_delete_eq.
  - intros other H. by rewrite lookup_delete_ne.
  - apply delete_id.
  - apply delete_delete_eq.
Qed.

(** ** Updates in a row *)

Lemma merge_merge (job u1 u2 : Job) (now1 now2 : jsstring) :
  merge (merge job u1 now1) u2 now2 = merge job (spread u1 u2) now2.
Proof.
  apply map_eq. intros k. rewrite !lookup_merge.
  destruct (decide (k = "updatedAt")); [done|].
  rewrite lookup_spread. by destruct (u2 !! k).
Qed.

(** Two updates of a job, one after the other, are one update with the
    properties of both, those of the second before those of the first,
    at the time of the second. *)
Theorem updateJob_twice (st : store) (jobId : string) (job u1 u2 : Job)
    (now1 now2 : jsstring) :
  st !! jobId = Some job ->
  updateJob (fst (updateJob st jobId u1 now1)) jobId u2 now2
  = updateJob st jobId (spread u1 u2) now2.
Proof.
  intros Hj. unfold updateJob, updateJob_read, updateJob_write, getJob.
  rewrite Hj. cbn [fst]. rewrite lookup_insert_eq, insert_insert_eq.
  by rewrite merge_merge.
Qed.

Lemma updateJob_twice_witness :
  updateJob
    (fst (updateJob {["J1" := running_job]} "J1"
            (list_to_map [("status", text "packaging")]) (js "t2")))
    "J1" (list_to_map [("progress", number 80)]) (js "t3")
  = updateJob {["J1" := running_job]} "J1"
      (spread (list_to_map [("status", text "packaging")])
              (list_to_map [("progress", number 80)])) (js "t3").
Proof. apply (updateJob_twice _ _ running_job). apply lookup_singleton_eq. Defined.

(** ** [cleanupOldJobs] *)

Section WithFiles.

Variable read_error : string -> jsstring.
Variable Date_value : option json -> option Z.
Variable zip_path : option json -> jsstring.

Local Abbreviation expired := (expired Date_value).
Local Abbreviation cleanup := (cleanup read_error Date_value zip_path).

Lemma listed_tail (file : string) (listing : list string) (jobId : string) :
  job_file jobId <> file ->
  bool_decide (job_file jobId ∈ file :: listing)
  = bool_decide (job_file jobId ∈ listing).
Proof.
  intros Hf. apply bool_decide_ext. rewrite elem_of_cons.
  split; [|by right]. by intros [H|H].
Qed.

Lemma cleanup_removes (now maxAge : Z) (listing : list string) (d : disk)
    (cleaned : Z) :
  NoDup listing ->
  (forall jobId, job_file jobId ∈ listing -> is_Some (jobs_dir d !! jobId)) ->
  exists d',
    cleanup now maxAge listing d cleaned
    = (d', Return (cleaned + Z.of_nat (size (jobs_dir d))
                   - Z.of_nat (size (jobs_dir d')))) /\
    (forall jobId,
       jobs_dir d' !! jobId
       = match jobs_dir d !! jobId with
         | Some job =>
             if bool_decide (job_file jobId ∈ listing) && expired now maxAge job
             then None else Some job
         | None => None
         end) /\
    generated d' ⊆ generated d /\
    (forall jobId job,
       jobs_dir d !! jobId = Some job -> job_file jobId ∈ listing ->
       expired now maxAge job = true ->
       zip_path (job !! "id") ∉ generated d').
Proof.
  revert d cleaned. induction listing as [|file listing IH];
    intros d cleaned Hnd Hin.
  - exists d. cbn [cleanup JobDirectory.cleanup]. split_and!.
    + f_equal. f_equal. lia.
    + intros jobId. destruct (jobs_dir d !! jobId); [|done].
      rewrite bool_decide_eq_false_2; [done|]. apply not_elem_of_nil.
    + done.
    + intros jobId job _ H. by apply elem_of_nil in H.
  - apply NoDup_cons in Hnd as [Hfile Hnd].
    cbn [cleanup JobDirectory.cleanup].
    destruct (job_of_file file) as [jobId|] eqn:Hf.
    + apply job_of_file_Some in Hf as ->.
      destruct (Hin jobId) as [job Hjob]; [by left|]. rewrite Hjob.
      destruct (expired now maxAge job) eqn:He.
      * destruct (IH {| jobs_dir := delete jobId (jobs_dir d);
                        generated := generated d ∖ {[zip_path (job !! "id")]} |}
                    (cleaned + 1) Hnd) as (d' & Hrun & Hjobs & Hgen & Hzip).
        { intros other Ho. cbn [jobs_dir]. rewrite lookup_delete_ne.
          - apply Hin. by right.
          - intros ->. done. }
        exists d'. cbn [jobs_dir generated] in *. split_and!.
        -- rewrite Hrun. f_equal. f_equal.
           rewrite map_size_delete_Some by done.
           assert (size (jobs_dir d) <> 0)%nat.
           { intros Hz. apply map_size_empty_inv in Hz. by rewrite Hz in Hjob. }
           lia.
        -- intros other. rewrite Hjobs.
           destruct (decide (other = jobId)) as [->|Ho].
           ++ rewrite lookup_delete_eq, Hjob, He.
              rewrite bool_decide_eq_true_2; [done|]. by left.
           ++ rewrite lookup_delete_ne by done.
              destruct (jobs_dir d !! other) as [j|]; [|done].
              rewrite listed_tail; [done|]. by intros ?%job_file_inj.
        -- etrans; [exact Hgen|]. apply subseteq_difference_l. done.
        -- intros other job' Hother Hlisted He'.
           destruct (decide (other = jobId)) as [->|Ho].
           ++ rewrite Hjob in Hother. injection Hother as <-.
              intros Hz. apply Hgen in Hz. apply elem_of_difference in Hz as [_ Hz].
              apply Hz. by apply elem_of_singleton.
           ++ apply (Hzip other job'); [by rewrite lookup_delete_ne| |done].
              apply elem_of_cons in Hlisted as [Heq|]; [|done].
              by apply job_file_inj in Heq.
      * destruct (IH d cleaned Hnd) as (d' & Hrun & Hjobs & Hgen & Hzip).
        { intros other Ho. apply Hin. by right. }
        exists d'. split_and!; [done| |done|].
        -- intros other. rewrite Hjobs.
           destruct (decide (other = jobId)) as [->|Ho].
           ++ rewrite Hjob, He. by rewrite !andb_false_r.
           ++ destruct (jobs_dir d !! other) as [j|]; [|done].
              rewrite listed_tail; [done|]. by intros ?%job_file_inj.
        -- intros other job' Hother Hlisted He'.
           destruct (decide (other = jobId)) as [->|Ho].
           ++ rewrite Hjob in Hother. injection Hother as <-. congruence.
           ++ apply (Hzip other job'); [done| |done].
              apply elem_of_cons in Hlisted as [Heq|]; [|done].
              by apply job_file_inj in Heq.
    + destruct (IH d cleaned Hnd) as (d' & Hrun & Hjobs & Hgen & Hzip).
      { intros other Ho. apply Hin. by right. }
      exists d'. split_and!; [done| |done|].
      * intros other. rewrite Hjobs.
        destruct (jobs_dir d !! other) as [j|]; [|done].
        rewrite listed_tail; [done|]. intros <-.
        by rewrite job_of_file_job_file in Hf.
      * intros other job' Hother Hlisted He'.
        apply (Hzip other job'); [done| |done].
        apply elem_of_cons in Hlisted as [Heq|]; [|done].
        rewrite <- Heq, job_of_file_job_file in Hf. done.
Qed.

End WithFiles.

(** [cleanupOldJobs] over a directory that is listed as it is, with
    nothing else going on: the call returns, the jobs that it removes are
    those that are completed or failed and older than [maxAge], every
    other job (running, cancelled, recent, or of unreadable date) is kept
    as it was, the number returned is the number of jobs removed, no
    archive is added, and the archive named after the [id] of a removed
    job is gone. *)
Theorem cleanupOldJobs_removes (files : list string)
    (read_error : string -> jsstring) (Date_value : option json -> option Z)
    (zip_path : option json -> jsstring) (d : disk) (now maxAge : Z) :
  lists files (jobs_dir d) ->
  exists d',
    cleanupOldJobs files read_error Date_value zip_path d now maxAge
    = (d', Return (Z.of_nat (size (jobs_dir d)) - Z.of_nat (size (jobs_dir d')))) /\
    (forall jobId job, jobs_dir d !! jobId = Some job ->
       jobs_dir d' !! jobId
       = if expired Date_value now maxAge job then None else Some job) /\
    (forall jobId, jobs_dir d !! jobId = None -> jobs_dir d' !! jobId = None) /\
    generated d' ⊆ generated d /\
    (forall jobId job, jobs_dir d !! jobId = Some job ->
       expired Date_value now maxAge job = true ->
       zip_path (job !! "id") ∉ generated d').
Proof.
  intros [Hnd Hfiles]. unfold cleanupOldJobs.
  destruct (cleanup_removes read_error Date_value zip_path now maxAge files d 0 Hnd)
    as (d' & Hrun & Hjobs & Hgen & Hzip).
  { intros jobId. apply Hfiles. }
  exists d'. split_and!; [by rewrite Hrun| | |done|].
  - intros jobId job Hjob. rewrite Hjobs, Hjob.
    rewrite bool_decide_eq_true_2; [done|]. apply Hfiles. by eexists.
  - intros jobId Hjob. by rewrite Hjobs, Hjob.
  - intros jobId job Hjob He. apply (Hzip jobId job); [done| |done].
    apply Hfiles. by eexists.
Qed.

(** ** [listJobs] *)

Lemma length_slice {A} (l : list A) (offset limit : Z) :
  0 <= offset -> 0 <= limit ->
  Z.of_nat (length (slice l offset (offset + limit)))
  = Z.min limit (Z.max 0 (Z.of_nat (length l) - offset)).
Proof.
  intros Ho Hl. unfold slice.
  destruct (Z.ltb_spec offset 0) as [?|_]; [lia|].
  destruct (Z.ltb_spec (offset + limit) 0) as [?|_]; [lia|].
  rewrite length_take, length_drop. lia.
Qed.

Lemma slice_subseteq {A} (l : list A) (start stop : Z) : slice l start stop ⊆ l.
Proof.
  unfold slice. intros x Hx.
  apply elem_of_take in Hx as (i & Hx & _).
  rewrite lookup_drop in Hx. by eapply list_elem_of_lookup_2.
Qed.

(** The job files of a listing are the files of the jobs, each once. *)
Lemma jobFiles_Permutation (files : list string) (st : store) :
  lists files st ->
  List.filter endsWith_json files ≡ₚ job_file <$> elements (dom st).
Proof.
  intros [Hnd Hfiles]. apply NoDup_Permutation.
  - by apply NoDup_ListNoDup, List.NoDup_filter, NoDup_ListNoDup.
  - apply NoDup_fmap_2; [intros a b; apply job_file_inj|apply NoDup_elements].
  - intros file. rewrite list_elem_of_In, List.filter_In, <- list_elem_of_In.
    rewrite endsWith_json_true, list_elem_of_fmap.
    split.
    + intros [Hin [jobId ->]]. exists jobId. split; [done|].
      apply elem_of_elements, elem_of_dom. by apply Hfiles.
    + intros (jobId & -> & Hin). split; [|by eexists].
      apply Hfiles. by apply elem_of_elements, elem_of_dom in Hin.
Qed.

Section WithFiles.

Variable read_error : string -> jsstring.
Variable Date_value : option json -> option Z.

Local Abbreviation by_creation := (by_creation Date_value).
Local Abbreviation sort_insert := (sort_insert Date_value).
Local Abbreviation sort := (sort Date_value).

Local Abbreviation dated := (dated Date_value).
Local Abbreviation newest_first := (newest_first Date_value).

Lemma read_all_returns (st : store) (page : list string) :
  Forall (fun file => exists jobId, file = job_file jobId /\ is_Some (st !! jobId))
    page ->
  exists jobs,
    read_all read_error st page = Return jobs /\
    Forall2 (fun file job => readJson read_error st file = Return job) page jobs /\
    Forall (fun job => exists jobId, st !! jobId = Some job) jobs.
Proof.
  induction 1 as [|file page (jobId & -> & job & Hjob) _ (jobs & Hr & Hlen & Hall)].
  - by exists [].
  - assert (readJson read_error st (job_file jobId) = Return job) as Hread.
    { unfold readJson. rewrite job_of_file_job_file. cbn [mbind option_bind].
      by rewrite Hjob. }
    exists (job :: jobs). cbn [read_all]. rewrite Hread, Hr.
    split_and!; [done|by constructor|].
    constructor; [by exists jobId|done].
Qed.

Lemma sort_insert_Permutation (a : Job) (l : list Job) : sort_insert a l ≡ₚ a :: l.
Proof.
  induction l as [|b l IH]; [done|]. cbn [JobDirectory.sort_insert].
  destruct (_ <=? _); [done|]. rewrite IH. apply Permutation_swap.
Qed.

Lemma sort_Permutation (l : list Job) : sort l ≡ₚ l.
Proof.
  induction l as [|a l IH]; [done|]. cbn [JobDirectory.sort foldr].
  rewrite sort_insert_Permutation. by constructor.
Qed.

Lemma newest_first_trans (a b c : Job) :
  dated a -> dated b -> dated c ->
  newest_first a b -> newest_first b c -> newest_first a c.
Proof.
  unfold JobDirectory.dated, JobDirectory.newest_first, JobDirectory.by_creation.
  intros [ta ->] [tb ->] [tc ->]. lia.
Qed.

Lemma newest_first_total (a b : Job) :
  dated a -> dated b -> 0 < by_creation a b -> newest_first b a.
Proof.
  unfold JobDirectory.dated, JobDirectory.newest_first, JobDirectory.by_creation.
  intros [ta ->] [tb ->]. lia.
Qed.

Lemma sort_insert_sorted (a : Job) (l : list Job) :
  dated a -> Forall dated l ->
  StronglySorted newest_first l -> StronglySorted newest_first (sort_insert a l).
Proof.
  intros Ha Hd Hs. induction Hs as [|b l Hs IH Hb]; cbn [JobDirectory.sort_insert].
  - by repeat constructor.
  - apply Forall_cons in Hd as [Hdb Hd].
    destruct (Z.leb_spec (by_creation a b) 0) as [Hab|Hab].
    + constructor; [by constructor|]. constructor; [done|].
      rewrite Forall_forall in Hb, Hd. apply Forall_forall. intros c Hc.
      apply (newest_first_trans a b c); auto.
    + constructor; [by apply IH|].
      rewrite sort_insert_Permutation. constructor; [|done].
      by apply newest_first_total.
Qed.

Lemma sort_sorted (l : list Job) :
  Forall dated l -> StronglySorted newest_first (sort l).
Proof.
  induction 1 as [|a l Ha Hd IH]; [constructor|].
  change (StronglySorted newest_first (sort_insert a (sort l))).
  apply sort_insert_sorted; [done| |done]. by rewrite sort_Permutation.
Qed.

End WithFiles.

(** [listJobs] over a directory that is listed as it is, for an offset
    and a limit that are not negative: the call returns; [total] is the
    number of jobs, whatever the page; the page holds [limit] jobs, or
    those that are left after [offset]; its jobs are those of the files
    at these positions of the listing, so that the order of the listing
    decides which jobs are on a page; and when the creation dates can all
    be read, the jobs of the page are in the order of their creation, the
    newest first. *)
Theorem listJobs_page (files : list string) (read_error : string -> jsstring)
    (Date_value : option json -> option Z) (st : store) (limit offset : Z) :
  lists files st -> 0 <= offset -> 0 <= limit ->
  exists r,
    listJobs files read_error Date_value st limit offset = Return r /\
    l_total r = Z.of_nat (size st) /\
    l_limit r = limit /\ l_offset r = offset /\
    Z.of_nat (length (l_jobs r)) = Z.min limit (Z.max 0 (l_total r - offset)) /\
    (exists jobs,
       Forall2 (fun file job => readJson read_error st file = Return job)
         (slice (List.filter endsWith_json files) offset (offset + limit)) jobs /\
       l_jobs r ≡ₚ jobs) /\
    Forall (fun job => exists jobId, st !! jobId = Some job) (l_jobs r) /\
    ((forall jobId job, st !! jobId = Some job -> dated Date_value job) ->
     StronglySorted (newest_first Date_value) (l_jobs r)).
Proof.
  intros Hlists Ho Hl. unfold listJobs.
  pose proof (jobFiles_Permutation files st Hlists) as Hperm.
  set (jobFiles := List.filter endsWith_json files) in *.
  assert (length jobFiles = size st) as Htotal.
  { rewrite Hperm, length_fmap. rewrite <- size_dom. done. }
  destruct (read_all_returns read_error st (slice jobFiles offset (offset + limit)))
    as (jobs & -> & Hread & Hall).
  { apply Forall_forall. intros file Hin. apply slice_subseteq in Hin.
    rewrite Hperm in Hin. apply list_elem_of_fmap in Hin as (jobId & -> & Hin).
    exists jobId. split; [done|]. by apply elem_of_elements, elem_of_dom in Hin. }
  eexists. split; [reflexivity|]. cbn [l_jobs l_total l_limit l_offset].
  split_and!; [by rewrite Htotal|done|done| | | |].
  - rewrite (Permutation_length (sort_Permutation Date_value jobs)).
    rewrite <- (Forall2_length _ _ _ Hread). by apply length_slice.
  - exists jobs. split; [done|]. apply sort_Permutation.
  - by rewrite sort_Permutation.
  - intros Hdated. apply sort_sorted. apply Forall_forall. intros job Hin.
    rewrite Forall_forall in Hall. destruct (Hall job Hin) as [jobId Hjob].
    by eapply Hdated.
Qed.

Lemma two_files_lists : lists two_files two_jobs.
Proof.
  split; [apply (bool_decide_unpack _); by vm_compute|].
  intros jobId. unfold two_files, two_jobs. split.
  - intros H. repeat (apply elem_of_cons in H as [H|H]).
    + apply (job_file_inj jobId "J1") in H as ->. by eexists.
    + apply (f_equal job_of_file) in H. rewrite job_of_file_job_file in H.
      by vm_compute in H.
    + apply (job_file_inj jobId "J2") in H as ->. by eexists.
    + by apply elem_of_nil in H.
  - intros [job H]. destruct (decide (jobId = "J1")) as [->|H1]; [by left|].
    rewrite lookup_insert_ne in H by done.
    destruct (decide (jobId = "J2")) as [->|H2]; [by right; right; left|].
    by rewrite lookup_insert_ne in H.
Qed.

Lemma cleanupOldJobs_removes_witness :
  exists d',
    cleanupOldJobs two_files unreadable epoch archive two_jobs_disk
      (1000 + week + 5000) week = (d', Return 1) /\
    jobs_dir d' !! "J1" = None /\
    jobs_dir d' !! "J2" = Some old_cancelled /\
    js "generated/J1.zip" ∉ generated d'.
Proof.
  destruct (cleanupOldJobs_removes two_files unreadable epoch archive
              two_jobs_disk (1000 + week + 5000) week two_files_lists)
    as (d' & Hrun & Hjobs & _ & _ & Hzip).
  exists d'. split_and!.
  - assert (snd (cleanupOldJobs two_files unreadable epoch archive two_jobs_disk
                   (1000 + week + 5000) week) = Return 1) as Hn by by vm_compute.
    rewrite Hrun in Hn. rewrite Hrun. f_equal. exact Hn.
  - by rewrite (Hjobs "J1" old_finished).
  - by rewrite (Hjobs "J2" old_cancelled).
  - by apply (Hzip "J1" old_finished).
Defined.

Lemma listJobs_page_witness :
  exists r,
    listJobs two_files unreadable epoch two_jobs 50 0 = Return r /\
    l_jobs r = [old_cancelled; old_finished] /\ l_total r = 2.
Proof.
  destruct (listJobs_page two_files unreadable epoch two_jobs 50 0
              two_files_lists) as (r & Hr & Ht & _); [lia|lia|].
  exists r. split_and!; [done| |by rewrite Ht].
  vm_compute in Hr. by injection Hr as <-.
Defined.

End JobDirectoryFacts.

(* ===================================================================== *)
(** * Extraction: the fenced block and the braces *)
(* ===================================================================== *)

Module TierFacts.

Import Extractor ExtractSpec Responses Examples ResponseExamples JsStringFacts
  FenceFacts ExtractorFacts.

Local Arguments closing : simpl never.

Lemma strip_prefix_app (p s : jsstring) : strip_prefix p (p ++ s) = Some s.
Proof.
  induction p as [|x p IH]; [done|]. cbn [app strip_prefix].
  by rewrite N.eqb_refl.
Qed.

Lemma lit_backticks_other {R} (x : N) (s : jsstring) (k : jsstring -> option R) :
  x <> 96%N -> lit backticks (x :: s) k = None.
Proof.
  intros Hx. unfold lit. change backticks with (96%N :: js "``").
  cbn [strip_prefix]. by destruct (N.eqb_spec 96 x) as [<-|].
Qed.

Lemma spaces_cons {R} (c : N) (s : jsstring) (k : jsstring -> option R) :
  spaces (c :: s) k
  = if is_space c
    then match spaces s k with Some r => Some r | None => k (c :: s) end
    else k (c :: s).
Proof. reflexivity. Qed.

(** No match starts before the first backtick. *)
Lemma fence_match_skip (pre s : jsstring) :
  96%N ∉ pre -> is_Some (fence_at s) -> fence_match (pre ++ s) = fence_at s.
Proof.
  intros Hpre [g Hg]. induction pre as [|x pre IH].
  - destruct s; cbn [app fence_match]; by rewrite Hg.
  - apply not_elem_of_cons in Hpre as [Hx Hpre].
    cbn [app fence_match]. unfold fence_at at 1.
    rewrite lit_backticks_other by done. by apply IH.
Qed.

(** White space and the closing backticks end a capture. *)
Lemma closing_fence (capture ws post : jsstring) :
  Forall (fun c => is_space c = true) ws ->
  closing capture (ws ++ backticks ++ post) = Some capture.
Proof.
  unfold closing. induction 1 as [|c ws Hc _ IH].
  - cbn [app]. change (backticks ++ post) with (96%N :: js "``" ++ post).
    rewrite spaces_cons. change (is_space 96) with false. cbv iota.
    change (96%N :: js "``" ++ post) with (backticks ++ post).
    unfold lit. by rewrite strip_prefix_app.
  - cbn [app]. by rewrite spaces_cons, Hc, IH.
Qed.

(** Inside a text without backticks that does not end in white space, no
    capture ends. *)
Lemma closing_inside (capture : jsstring) (x : N) (l rest : jsstring) :
  96%N ∉ x :: l -> no_leading_space (rev (x :: l)) ->
  closing capture ((x :: l) ++ rest) = None.
Proof.
  unfold closing. revert x. induction l as [|y l IH]; intros x Hno Hlast.
  - cbn in Hlast. cbn [app]. rewrite spaces_cons, Hlast.
    apply lit_backticks_other. by apply not_elem_of_cons in Hno as [? _].
  - apply not_elem_of_cons in Hno as [Hx Hno].
    change ((x :: y :: l) ++ rest) with (x :: (y :: l) ++ rest).
    rewrite spaces_cons. destruct (is_space x).
    + rewrite IH; [by apply lit_backticks_other|done|].
      cbn [rev] in *. unfold no_leading_space in *.
      destruct (rev l ++ [y]) eqn:E; [by destruct (rev l)|]. cbn in Hlast. done.
    + by apply lit_backticks_other.
Qed.

Lemma lazy_any_body (body acc ws post : jsstring) :
  96%N ∉ body -> no_leading_space (rev body) ->
  Forall (fun c => is_space c = true) ws ->
  lazy_any (body ++ ws ++ backticks ++ post) acc
    (fun capture s4 => closing capture s4) = Some (rev acc ++ body).
Proof.
  intros Hno Hlast Hws. revert acc.
  induction body as [|x body IH]; intros acc; rewrite lazy_any_eq.
  - cbn [app]. rewrite closing_fence by done. by rewrite app_nil_r.
  - rewrite (closing_inside (rev acc) x body) by done. cbn [app].
    rewrite IH.
    + cbn [rev]. by rewrite <- app_assoc.
    + by apply not_elem_of_cons in Hno as [_ ?].
    + cbn [rev] in Hlast. unfold no_leading_space in *.
      destruct (rev body) eqn:E; [done|]. done.
Qed.

Lemma spaces_then {R} (ws s : jsstring) (k : jsstring -> option R) :
  Forall (fun c => is_space c = true) ws ->
  is_Some (k s) -> no_leading_space s -> spaces (ws ++ s) k = k s.
Proof.
  intros Hws [r Hr] Hs. induction Hws as [|c ws Hc _ IH].
  - cbn [app]. destruct s as [|x s]; [done|]. rewrite spaces_cons.
    cbn in Hs. by rewrite Hs.
  - cbn [app]. by rewrite spaces_cons, Hc, IH, Hr.
Qed.

Lemma no_leading_space_app (a b : jsstring) :
  a <> [] -> no_leading_space a -> no_leading_space (a ++ b).
Proof. by destruct a. Qed.

Lemma fence_at_block (tag ws1 body ws2 post : jsstring) :
  fence_tag tag (ws1 ++ body ++ ws2 ++ backticks ++ post) ->
  Forall (fun c => is_space c = true) ws1 ->
  Forall (fun c => is_space c = true) ws2 ->
  body <> [] -> 96%N ∉ body ->
  no_leading_space body -> no_leading_space (rev body) ->
  fence_at (backticks ++ tag ++ ws1 ++ body ++ ws2 ++ backticks ++ post)
  = Some body.
Proof.
  intros Htag H1 H2 Hne Hno Hfirst Hlast.
  assert (spaces (ws1 ++ body ++ ws2 ++ backticks ++ post)
            (fun s3 => lazy_any s3 [] (fun capture s4 => closing capture s4))
          = Some body) as Hspaces.
  { rewrite spaces_then; [by apply (lazy_any_body body [])|done| |].
    - rewrite (lazy_any_body body []) by done. by eexists.
    - by apply no_leading_space_app. }
  unfold fence_at, lit at 1. rewrite strip_prefix_app. unfold opt, lit at 1.
  destruct Htag as [->|[-> Hnone]].
  - by rewrite strip_prefix_app, Hspaces.
  - cbn [app]. by rewrite Hnone.
Qed.

Lemma fence_match_none (s : jsstring) : 96%N ∉ s -> fence_match s = None.
Proof.
  induction s as [|x s IH]; [done|]. intros [Hx Hs]%not_elem_of_cons.
  cbn [fence_match]. unfold fence_at. rewrite lit_backticks_other by done.
  by apply IH.
Qed.

Lemma indexOf_from_app (c : N) (pre rest : jsstring) (i : Z) :
  c ∉ pre -> indexOf_from c (pre ++ c :: rest) i = i + len pre.
Proof.
  revert i. induction pre as [|x pre IH]; intros i Hpre.
  - cbn. rewrite N.eqb_refl. unfold len. cbn. lia.
  - apply not_elem_of_cons in Hpre as [Hx Hpre]. cbn [app indexOf_from].
    destruct (N.eqb_spec x c) as [->|_]; [done|].
    rewrite IH by done. unfold len. cbn [length]. lia.
Qed.

Lemma lastIndexOf_from_none (c : N) (s : jsstring) (i found : Z) :
  c ∉ s -> lastIndexOf_from c s i found = found.
Proof.
  revert i. induction s as [|x s IH]; intros i Hs; [done|].
  apply not_elem_of_cons in Hs as [Hx Hs]. cbn [lastIndexOf_from].
  destruct (N.eqb_spec x c) as [->|_]; [done|]. by apply IH.
Qed.

Lemma lastIndexOf_from_app (c : N) (s post : jsstring) (i found : Z) :
  c ∉ post -> lastIndexOf_from c (s ++ c :: post) i found = i + len s.
Proof.
  revert i found. induction s as [|x s IH]; intros i found Hpost.
  - cbn [app lastIndexOf_from]. rewrite N.eqb_refl.
    rewrite lastIndexOf_from_none by done. unfold len. cbn. lia.
  - cbn [app lastIndexOf_from]. rewrite IH by done. unfold len. cbn [length]. lia.
Qed.

Lemma substring_middle (a b c : jsstring) :
  substring (a ++ b ++ c) (len a) (len a + len b) = b.
Proof.
  unfold substring.
  assert (clamp (a ++ b ++ c) (len a) = len a) as ->.
  { unfold clamp, len. rewrite !length_app. lia. }
  assert (clamp (a ++ b ++ c) (len a + len b) = len a + len b) as ->.
  { unfold clamp, len. rewrite !length_app. lia. }
  pose proof (len_nonneg b).
  rewrite Z.min_l, Z.max_r by lia.
  replace (len a + len b - len a) with (len b) by lia.
  unfold len. rewrite !Nat2Z.id, drop_app_length. by rewrite take_app_length.
Qed.

(** The group that the fence expression captures never starts or ends
    with white space: the [\s*] on its two sides have taken it all, and
    the [trim()] that tier 2 applies to the group never changes it. *)
Theorem fence_group_is_trimmed (text group : jsstring) :
  fence_match text = Some group ->
  no_leading_space group /\ no_leading_space (rev group) /\ trim group = group.
Proof.
  intros H. destruct (fence_match_group _ _ H) as [Hfirst Hlast].
  split_and!; [done|done|]. by apply trim_id.
Qed.

Lemma fence_group_is_trimmed_witness :
  fence_match answer_with_block = Some app_object /\ trim app_object = app_object.
Proof.
  assert (fence_match answer_with_block = Some app_object) as H by by vm_compute.
  split; [done|].
  by destruct (fence_group_is_trimmed answer_with_block app_object H) as (_ & _ & ?).
Defined.

Section WithEngine.

Variable syntax_message : jsstring -> jsstring.

(** What is returned or thrown once [text] has been picked to be parsed
    by a fallback. *)
Lemma fallback_outcome (text : jsstring) :
  match JSON_parse syntax_message text with
  | Return v => Return v
  | Throw m => Throw (js "Could not process AI response: " ++ m)
  end
  = match JSON.parse text with
    | Some v => Return v
    | None => Throw (js "Could not process AI response: " ++ syntax_message text)
    end.
Proof. unfold JSON_parse. by destruct (JSON.parse text). Qed.

Lemma parseAIResponse_repair (text : jsstring) :
  JSON.parse text = None ->
  snd (parseAIResponse syntax_message text)
  = match repair syntax_message text with
    | Return v => Return v
    | Throw m => Throw (js "Could not process AI response: " ++ m)
    end.
Proof.
  intros H. unfold parseAIResponse, JSON_parse. rewrite H.
  by destruct (repair syntax_message text).
Qed.

(** An answer that is not JSON as a whole and holds a fenced block, with
    no backtick before the block or inside it: the outcome is that of
    parsing what is inside the block, white space apart.  When that does
    not parse the call throws, whatever comes after the block. *)
Theorem parseAIResponse_fenced_block (pre tag ws1 body ws2 post : jsstring) :
  JSON.parse (fenced_text pre tag ws1 body ws2 post) = None ->
  96%N ∉ pre ->
  fence_tag tag (ws1 ++ body ++ ws2 ++ backticks ++ post) ->
  white ws1 -> white ws2 ->
  body <> [] -> 96%N ∉ body ->
  no_leading_space body -> no_leading_space (rev body) ->
  snd (parseAIResponse syntax_message (fenced_text pre tag ws1 body ws2 post))
  = match JSON.parse body with
    | Some v => Return v
    | None => Throw (js "Could not process AI response: " ++ syntax_message body)
    end.
Proof.
  intros Hparse Hpre Htag H1 H2 Hne Hno Hfirst Hlast.
  rewrite parseAIResponse_repair by done. unfold repair, fenced_text.
  pose proof (fence_at_block tag ws1 body ws2 post Htag H1 H2 Hne Hno Hfirst Hlast)
    as Hat.
  rewrite fence_match_skip, Hat by (by rewrite ?Hat).
  cbn [fenced]. destruct body as [|x body]; [done|]. cbn [truthy].
  rewrite trim_id by done. apply fallback_outcome.
Qed.

(** An answer that is not JSON as a whole, holds no backtick, and has an
    object literal between prose without braces: the outcome is that of
    parsing the literal. *)
Theorem parseAIResponse_braces (pre inner post : jsstring) :
  JSON.parse (braced_text pre inner post) = None ->
  96%N ∉ braced_text pre inner post ->
  123%N ∉ pre -> 125%N ∉ post ->
  snd (parseAIResponse syntax_message (braced_text pre inner post))
  = match JSON.parse ([123%N] ++ inner ++ [125%N]) with
    | Some v => Return v
    | None =>
        Throw (js "Could not process AI response: "
                 ++ syntax_message ([123%N] ++ inner ++ [125%N]))
    end.
Proof.
  intros Hparse Hticks Hpre Hpost.
  rewrite parseAIResponse_repair by done. unfold repair.
  rewrite fence_match_none by done. cbn [fenced].
  assert (indexOf (braced_text pre inner post) 123 = len pre) as ->.
  { unfold indexOf, braced_text. cbn [app].
    rewrite indexOf_from_app by done. lia. }
  assert (lastIndexOf (braced_text pre inner post) 125
          = len pre + len ([123%N] ++ inner ++ [125%N]) - 1) as ->.
  { unfold lastIndexOf, braced_text.
    replace (pre ++ [123%N] ++ inner ++ [125%N] ++ post)
      with ((pre ++ [123%N] ++ inner) ++ 125%N :: post)
      by (by rewrite <- !app_assoc).
    rewrite lastIndexOf_from_app by done. unfold len.
    rewrite !length_app. cbn [length]. lia. }
  pose proof (len_nonneg pre). pose proof (len_nonneg inner).
  assert (len ([123%N] ++ inner ++ [125%N]) = len inner + 2) as Hlen.
  { unfold len. rewrite !length_app. cbn [length]. lia. }
  replace (negb (len pre =? -1)) with true by (symmetry; apply negb_true_iff; lia).
  replace (negb (_ =? -1)) with true by (symmetry; apply negb_true_iff; lia).
  replace (_ >? _) with true by lia. cbn [andb].
  replace (len pre + len ([123%N] ++ inner ++ [125%N]) - 1 + 1)
    with (len pre + len ([123%N] ++ inner ++ [125%N])) by lia.
  unfold braced_text.
  replace (pre ++ [123%N] ++ inner ++ [125%N] ++ post)
    with (pre ++ ([123%N] ++ inner ++ [125%N]) ++ post)
    by (by rewrite <- !app_assoc).
  rewrite substring_middle. apply fallback_outcome.
Qed.

End WithEngine.

Ltac decided := apply (bool_decide_unpack _); by vm_compute.

Lemma parseAIResponse_fenced_block_witness :
  snd (parseAIResponse engine_message answer_with_block)
  = Return (JObject [(js "app_name", JString (js "test-app"))]).
Proof.
  unfold answer_with_block.
  rewrite parseAIResponse_fenced_block;
    [by vm_compute|by vm_compute|decided|by left|decided|decided|done|decided
    |by vm_compute|by vm_compute].
Defined.

Lemma parseAIResponse_braces_witness :
  snd (parseAIResponse engine_message answer_with_braces)
  = Return (JObject [(js "app_name", JString (js "test-app"))]).
Proof.
  unfold answer_with_braces.
  rewrite parseAIResponse_braces;
    [by vm_compute|by vm_compute|decided|decided|decided].
Defined.

End TierFacts.

(* ===================================================================== *)
(** * The services and the error of a failed planning *)
(* ===================================================================== *)

Module ServiceFacts.

Import Extractor ExtractSpec Services Pipeline Status RunShape Examples
  JsStringFacts ExtractorFacts JobManagerFacts RunPaths.

Lemma wrap_thrown {A} (prefix : string) (body : outcome A) (m : jsstring) :
  wrap prefix body = Throw m -> exists cause, body = Throw cause /\ m = js prefix ++ cause.
Proof. destruct body as [a|cause]; [done|]. intros [= <-]. by exists cause. Qed.

Lemma wrap_returned {A} (prefix : string) (body : outcome A) (a : A) :
  wrap prefix body = Return a <-> body = Return a.
Proof. destruct body; cbn; split; congruence. Qed.

Section WithEngine.

Variable syntax_message : jsstring -> jsstring.
Variable cannot_read : string -> jsstring.
Variable cannot_convert : jsstring.

Local Abbreviation parsed := (fun text => snd (parseAIResponse syntax_message text)).
Local Abbreviation analyzeDescription :=
  (analyzeDescription syntax_message cannot_read).
Local Abbreviation modernizeCode :=
  (modernizeCode syntax_message cannot_read cannot_convert).

Lemma read_returns (value : json) (name : string) :
  value <> JNull -> is_Some (returned (read cannot_read value name)).
Proof. destruct value; try done; intros _; by eexists. Qed.

(** [analyzeDescription] returns the value that [parseAIResponse] gets
    out of the answer of the model, unless that value is [null]; every
    error it throws has a message that starts with [Planning analysis
    failed: ] and goes on with the message of its cause. *)
Theorem analyzeDescription_outcome (completion : outcome jsstring) :
  (forall v,
     analyzeDescription completion = Return v <->
     v <> JNull /\ exists text, completion = Return text /\ parsed text = Return v) /\
  (forall m,
     analyzeDescription completion = Throw m ->
     exists cause,
       m = js "Planning analysis failed: " ++ cause /\
       (completion = Throw cause \/
        exists text, completion = Return text /\
          (parsed text = Throw cause \/
           (parsed text = Return JNull /\ cause = cannot_read "features")))).
Proof.
  unfold Services.analyzeDescription. split.
  - intros v. rewrite wrap_returned. destruct completion as [text|m].
    + destruct (parsed text) as [planningData|m] eqn:Hp.
      * destruct planningData; cbn [read]; split;
          try (intros [= <-]; split; [done|by exists text]);
          try (intros [_ (t & [= <-] & Hv)]; rewrite Hp in Hv; by injection Hv as <-);
          try done.
        intros [Hv (t & [= <-] & Hpv)]. rewrite Hp in Hpv. by injection Hpv as <-.
      * split; [done|]. intros [_ (t & [= <-] & Hv)]. by rewrite Hp in Hv.
    + split; [done|]. by intros [_ (t & [=] & _)].
  - intros m Hm. apply wrap_thrown in Hm as (cause & Hbody & ->).
    exists cause. split; [done|]. destruct completion as [text|m'].
    + right. exists text. split; [done|].
      destruct (parsed text) as [planningData|m'] eqn:Hp.
      * destruct planningData; cbn [read] in Hbody; try done.
        right. split; [done|]. by injection Hbody as <-.
      * left. by injection Hbody as <-.
    + left. by injection Hbody as <-.
Qed.

(** A modernization that [modernizeCode] returns is an object with a
    member [files] that is not [null], so that the packaging after it can
    list its entries; every error it throws has a message that starts
    with [Modernization failed: ]. *)
Theorem modernizeCode_outcome (completion : outcome jsstring) :
  (forall v,
     modernizeCode completion = Return v <->
     (exists text, completion = Return text /\ parsed text = Return v) /\
     exists members files,
       v = JObject members /\ member members "files" = Some files /\
       files <> JNull) /\
  (forall m,
     modernizeCode completion = Throw m ->
     exists cause, m = js "Modernization failed: " ++ cause).
Proof.
  unfold Services.modernizeCode. split.
  - intros v. rewrite wrap_returned. destruct completion as [text|m].
    + destruct (parsed text) as [modernizedResult|m] eqn:Hp.
      * split.
        -- intros H. destruct modernizedResult as [| | | | |members];
             cbn [read Object_keys_defined] in H; try done.
           destruct (member members "files") as [files|] eqn:Hf; [|done].
           destruct files; cbn [Object_keys_defined] in H; try done;
             injection H as <-; (split; [by exists text|]);
             eexists _, _; split_and!; done.
        -- intros [(t & [= <-] & Hv) (members & files & -> & Hf & Hn)].
           rewrite Hp in Hv. injection Hv as ->. cbn [read]. rewrite Hf.
           by destruct files.
      * split; [done|]. intros [(t & [= <-] & Hv) _]. by rewrite Hp in Hv.
    + split; [done|]. by intros [(t & [=] & _) _].
  - intros m Hm. apply wrap_thrown in Hm as (cause & _ & ->). by exists cause.
Qed.

Lemma unparsable_message (answer : jsstring) :
  extract answer = None ->
  exists repairError,
    parsed answer = Throw (js "Could not process AI response: " ++ repairError) /\
    ((exists parsed, repairError = syntax_message parsed) \/
     repairError = js "Could not extract JSON from AI response: "
                     ++ substring answer 0 200).
Proof.
  intros Hnone.
  pose proof (extract_none_returned syntax_message answer Hnone) as Hret.
  rewrite returned_parseAIResponse in Hret.
  unfold parseAIResponse, JSON_parse in *.
  destruct (JSON.parse answer); [done|].
  destruct (repair syntax_message answer) as [v|repairError] eqn:Hrepair; [done|].
  exists repairError. split; [done|]. by apply thrown_repair.
Qed.

(** An answer of the model at the planning stage from which no tier
    recovers a value, with nothing in between: the job ends as failed,
    with an error that tells the planning, the processing of the answer
    and its cause one after the other, and without the progress, the
    planning data and the result ever being set. *)
Theorem unparsable_plan_fails_job (st : store) (jobId : string) (jobData : Job)
    (clock : nat -> jsstring) (answer : jsstring) :
  extract answer = None ->
  let s := exec jobId (start generateAppAsync st jobId jobData (clock 0%nat))
             (completions clock
                (stage (analyzeDescription (Return answer))
                 ++ [Return JNull; Return JNull])) in
  run s = Finished /\
  record jobId s !! "status" = Some (text "failed") /\
  (exists repairError,
     record jobId s !! "error"
     = Some (JString (js "Planning analysis failed: "
                        ++ js "Could not process AI response: " ++ repairError)) /\
     ((exists parsed, repairError = syntax_message parsed) \/
      repairError = js "Could not extract JSON from AI response: "
                      ++ substring answer 0 200)) /\
  record jobId s !! "progress" = jobData !! "progress" /\
  record jobId s !! "planningData" = jobData !! "planningData" /\
  record jobId s !! "result" = jobData !! "result".
Proof.
  intros Hnone s. unfold s, completions, stage. cbn [app imap compose].
  destruct (unparsable_message answer Hnone) as (repairError & Hp & Hcause).
  unfold Services.analyzeDescription. rewrite Hp. cbn [wrap].
  destruct (createJob_record st jobId jobData (clock 0%nat) (clock 0%nat))
    as (j & Hc & Hj & _ & _ & Hk & _).
  unfold start, generateAppAsync. rewrite Hc. cbn [fst resume].
  erewrite exec_update; [|reflexivity|by cbn [jobs]; rewrite lookup_insert_eq].
  cbn [jobs requests resume]. rewrite insert_insert_eq.
  erewrite exec_work by reflexivity. cbn [jobs requests resume].
  erewrite exec_update; [|reflexivity|by cbn [jobs]; rewrite lookup_insert_eq].
  cbn [jobs requests resume]. rewrite insert_insert_eq.
  cbn [exec foldl run]. unfold record. cbn [jobs].
  rewrite lookup_insert_eq. cbn [default from_option id].
  assert (forall f, f <> "createdAt" -> f <> "updatedAt" -> f <> "id" ->
            j !! f = jobData !! f) as Hdata.
  { intros f H1 H2 H3. rewrite (Hk f H1 H2). destruct (jobData !! f); [done|].
    by rewrite decide_False. }
  split_and!; try (by rewrite ?lookup_merge).
  - exists repairError. split; [|done]. by rewrite !lookup_merge.
  - rewrite !lookup_merge. cbn. by apply Hdata.
  - rewrite !lookup_merge. cbn. by apply Hdata.
  - rewrite !lookup_merge. cbn. by apply Hdata.
Qed.

End WithEngine.

Lemma unparsable_plan_fails_job_witness :
  let s := exec "J1" (start generateAppAsync ∅ "J1" request_data (js "t0"))
             (completions (fun _ => js "t1")
                (stage (analyzeDescription engine_message
                          (fun _ => js "Cannot read properties of null")
                          (Return plain_text))
                 ++ [Return JNull; Return JNull])) in
  run s = Finished /\
  record "J1" s !! "status" = Some (text "failed") /\
  record "J1" s !! "progress" = None.
Proof.
  destruct (unparsable_plan_fails_job engine_message
              (fun _ => js "Cannot read properties of null")
              ∅ "J1" request_data (fun _ => js "t1") plain_text)
    as (Hrun & Hstatus & _ & Hprogress & _); [by vm_compute|].
  by split_and!.
Defined.

End ServiceFacts.

(* ===================================================================== *)
(** * The estimate of the status route along a run *)
(* ===================================================================== *)

Module PaceFacts.

Import Pipeline Status Estimate Pace Examples JobManagerFacts Cancellation
  Progress StatusFacts EstimateFacts RunEnds Runs.



Section OneJob.

Variable jobId : string.
Variable type : option json.
Variable base : Z.
Hypothesis base_of_type :
  forall j, j !! "type" = type -> baseTime j = Some (Seconds base).
Hypothesis base_range : 0 < base <= 600.






End OneJob.







Example estimates_of_run :
  estimates "J1" (created :: trace "J1" created run_on)
  = [480; 480; 480; 480; 480; 360; 360; 360; 96; 96; 96; 0].
Proof. by vm_compute. Qed.

(** With a cancellation the estimate can grow: cancelled during the
    planning stage the job has the estimate 0, and the next update of the
    runner brings it back to 360. *)
Example estimates_of_cancelled_run :
  estimates "J1" (created :: trace "J1" created cancelled_run)
  = [480; 480; 480; 480; 480; 480; 0; 0; 0; 360; 360; 360; 96; 96; 96; 0].
Proof. by vm_compute. Qed.

End PaceFacts.

(* ===================================================================== *)
(** * The runners and cancellation, file accesses overlapping *)
(* ===================================================================== *)

Module OverlapSteps.

Import Status JobManagerFacts JobFiles JobFilesFacts Overlap OverlapInvariants.
Import Pipeline(prog(..), fields).

Section OneJob.

Variable jobId : string.

Lemma files_after_runner (s : system) (now : jsstring) (result : outcome json)
    (covers : bool) :
  jobs (step jobId s (Runner now result covers))
  = fst (runner_step jobId (jobs s) (run s) now result covers).
Proof. cbn [step]. by destruct (runner_step _ _ _ _ _ _). Qed.

Lemma runner_after_step (s : system) (now : jsstring) (result : outcome json)
    (covers : bool) :
  run (step jobId s (Runner now result covers))
  = snd (runner_step jobId (jobs s) (run s) now result covers).
Proof. cbn [step]. by destruct (runner_step _ _ _ _ _ _). Qed.

Lemma requests_after_runner (s : system) (now : jsstring)
    (result : outcome json) (covers : bool) :
  requests (step jobId s (Runner now result covers)) = requests s.
Proof. cbn [step]. by destruct (runner_step _ _ _ _ _ _). Qed.

(** A cancellation request, and what it awaits, never moves the runner. *)
Lemma other_steps_keep_runner (s : system) (e : event) :
  is_runner_event e = false -> run (step jobId s e) = run s.
Proof.
  destruct e as [now result covers| |i now covers]; [done|done|]. intros _.
  cbn [step]. destruct (requests s !! i) as [c|]; [|done].
  by destruct (cancel_step _ _ _ _ _).
Qed.

(** The record found after a text has been written. *)
Lemma getJob_write (d : disk) (updatedJob : Job) (covers : bool) (j : Job) :
  getJob (writeJson_write d jobId updatedJob covers) jobId = Some j ->
  j = updatedJob.
Proof.
  unfold writeJson_write, getJob. destruct (d !! jobId) as [f|] eqn:E.
  - rewrite lookup_insert_eq. unfold overlay.
    destruct (written f && negb covers); [done|]. simpl. by intros [= ->].
  - rewrite E. done.
Qed.

Lemma getJob_open (d : disk) : getJob (writeJson_open d jobId) jobId = None.
Proof. unfold writeJson_open, getJob. by rewrite lookup_insert_eq. Qed.

Lemma write_truncated (d : disk) (updatedJob : Job) (covers : bool) :
  d !! jobId = Some truncated ->
  writeJson_write d jobId updatedJob covers = <[jobId := whole updatedJob]> d.
Proof. unfold writeJson_write. by intros ->. Qed.

(** Where the runner goes next depends on where it is, on what it
    awaited and on whether its read finds a record, not on what the
    record holds. *)
Lemma runner_control_step (s1 s2 : system) (now : jsstring)
    (result : outcome json) (c1 c2 : bool) :
  (reading (run s1) = true -> is_Some (record jobId s1)) ->
  (reading (run s2) = true -> is_Some (record jobId s2)) ->
  control (run s1) = control (run s2) ->
  control (run (step jobId s1 (Runner now result c1)))
  = control (run (step jobId s2 (Runner now result c2))).
Proof.
  intros H1 H2 Hc. rewrite !runner_after_step. unfold runner_step.
  destruct (run s1) as [h u k|h u k|h u k|n k| |m];
    destruct (run s2) as [h' u' k'|h' u' k'|h' u' k'|n' k'| |m'];
    try discriminate Hc; cbn [control] in Hc; cbn [snd].
  - injection Hc as <- <- <-.
    destruct (H1 eq_refl) as [j1 E1], (H2 eq_refl) as [j2 E2].
    unfold record in E1, E2. unfold updateJob_read. by rewrite E1, E2.
  - by injection Hc as <- <-.
  - by injection Hc as <- <-.
  - injection Hc as <- <-. by destruct result.
  - done.
  - done.
Qed.

Lemma step_lonely (s : system) (now : jsstring) (result : outcome json)
    (covers : bool) :
  lonely jobId s -> lonely jobId (step jobId s (Runner now result covers)).
Proof.
  unfold lonely, record. rewrite files_after_runner, runner_after_step.
  unfold runner_step.
  destruct (run s) as [h u k|h u k|h u k|n k| |m]; cbn [fst snd].
  - intros [j E]. unfold updateJob_read. rewrite E. by eexists.
  - intros _. unfold writeJson_open. by rewrite lookup_insert_eq.
  - intros E. rewrite (write_truncated _ _ _ E).
    assert (is_Some (getJob (<[jobId := whole u]> (jobs s)) jobId)) as Hs.
    { unfold getJob. rewrite lookup_insert_eq. by eexists. }
    destruct h; [done|]. by destruct k.
  - intros Hs. destruct result as [v|m]; [|done]. by destruct (k v).
  - done.
  - done.
Qed.

(** As long as every read of the runner finds a record, the runner is
    where its own events alone take it. *)
Lemma runner_control_exec (sched : list event) (s1 s2 : system) :
  reads_find_record jobId s1 sched = true -> lonely jobId s2 ->
  control (run s1) = control (run s2) ->
  control (run (exec jobId s1 sched))
  = control (run (exec jobId s2 (List.filter is_runner_event sched))).
Proof.
  revert s1 s2. induction sched as [|e sched IH]; intros s1 s2 Hreads H2 Hc;
    [done|].
  cbn [reads_find_record] in Hreads. apply andb_true_iff in Hreads as [H1 Hr].
  cbn [exec foldl List.filter]. destruct (is_runner_event e) eqn:He.
  - destruct e as [now result covers| |]; try discriminate He.
    cbn [foldl]. apply IH; [done|by apply step_lonely|].
    apply runner_control_step; [| |done].
    + intros Hread. rewrite Hread in H1. simpl in H1. unfold found in H1.
      destruct (record jobId s1); [by eexists|done].
    + intros Hread. unfold lonely in H2. by destruct (run s2).
  - apply IH; [done|done|]. by rewrite other_steps_keep_runner.
Qed.

(** A read of the runner that finds no record throws: the runner goes to
    its [catch] block, and from there to an unhandled rejection. *)
Lemma read_without_record (s : system) (in_catch : bool) (updates : Job)
    (next : prog) (now : jsstring) (result : outcome json) (covers : bool) :
  run s = Reading in_catch updates next ->
  record jobId s = None ->
  run (step jobId s (Runner now result covers))
  = (if in_catch then Rejected (not_found jobId)
     else caught (not_found jobId) now) /\
  jobs (step jobId s (Runner now result covers)) = jobs s.
Proof.
  intros Hrun Hrec. rewrite runner_after_step, files_after_runner, Hrun.
  cbn [runner_step]. unfold updateJob_read. unfold record in Hrec.
  by rewrite Hrec.
Qed.

(** An update of the runner whose three steps follow each other goes
    through whatever the record holds: its status is stored, and the
    runner goes on. *)
Lemma update_written_over (s : system) (in_catch : bool) (updates : Job)
    (next : prog) (status : json) (now1 now2 now3 : jsstring)
    (r1 r2 r3 : outcome json) (c1 c2 c3 : bool) :
  is_Some (record jobId s) ->
  run s = Reading in_catch updates next ->
  updates !! "status" = Some status ->
  let sched := [Runner now1 r1 c1; Runner now2 r2 c2; Runner now3 r3 c3] in
  file_field (jobs (exec jobId s sched)) jobId "status" = Some status /\
  run (exec jobId s sched) = if in_catch then Finished else resume next now3.
Proof.
  intros [j Hj] Hrun Hs. cbn [exec foldl]. unfold record in Hj.
  set (s1 := step jobId s (Runner now1 r1 c1)).
  assert (jobs s1 = jobs s /\
          run s1 = Opening in_catch (merge j updates now1) next) as [Hj1 Hr1].
  { unfold s1. rewrite files_after_runner, runner_after_step, Hrun.
    cbn [runner_step]. unfold updateJob_read. by rewrite Hj. }
  set (s2 := step jobId s1 (Runner now2 r2 c2)).
  assert (jobs s2 = writeJson_open (jobs s) jobId /\
          run s2 = Writing in_catch (merge j updates now1) next) as [Hj2 Hr2].
  { unfold s2. rewrite files_after_runner, runner_after_step, Hr1, Hj1. done. }
  rewrite files_after_runner, runner_after_step, Hr2, Hj2. cbn [runner_step fst snd].
  rewrite write_alone. split; [|done].
  unfold file_field, getJob. rewrite lookup_insert_eq. simpl.
  rewrite lookup_merge, decide_False by done. by rewrite Hs.
Qed.

(** A request that finds the job neither completed nor failed, and whose
    four steps follow each other, stores the status [cancelled] and is
    answered with 200. *)
Lemma cancellation_written (s : system) (i : nat) (job : Job)
    (now1 now2 now3 now4 : jsstring) (c1 c2 c3 c4 : bool) :
  requests s !! i = Some Checking ->
  record jobId s = Some job ->
  is_status job "completed" || is_status job "failed" = false ->
  let sched :=
    [Cancel i now1 c1; Cancel i now2 c2; Cancel i now3 c3; Cancel i now4 c4] in
  file_field (jobs (exec jobId s sched)) jobId "status" = Some (text "cancelled") /\
  requests (exec jobId s sched) !! i = Some (Responded 200) /\
  run (exec jobId s sched) = run s.
Proof.
  intros Hi Hj Hst. cbn [exec foldl]. unfold record in Hj.
  pose proof (lookup_lt_Some _ _ _ Hi) as Hlt.
  pose (u := fields [("status", text "cancelled"); ("cancelledAt", JString now1)]).
  set (s1 := step jobId s (Cancel i now1 c1)).
  assert (s1 = {| jobs := jobs s; run := run s;
                  requests := <[i := CReading u]> (requests s) |}) as Hs1.
  { unfold s1. cbn [step]. rewrite Hi. cbn [cancel_step].
    by rewrite Hj, Hst. }
  set (s2 := step jobId s1 (Cancel i now2 c2)).
  assert (s2 = {| jobs := jobs s; run := run s;
                  requests := <[i := COpening (merge job u now2)]> (requests s) |})
    as Hs2.
  { unfold s2. rewrite Hs1. cbn [step requests jobs run].
    rewrite list_lookup_insert_eq by done. cbn [cancel_step].
    unfold updateJob_read. rewrite Hj. by rewrite list_insert_insert_eq. }
  set (s3 := step jobId s2 (Cancel i now3 c3)).
  assert (s3 = {| jobs := writeJson_open (jobs s) jobId; run := run s;
                  requests := <[i := CWriting (merge job u now2)]> (requests s) |})
    as Hs3.
  { unfold s3. rewrite Hs2. cbn [step requests jobs run].
    rewrite list_lookup_insert_eq by done. cbn [cancel_step].
    by rewrite list_insert_insert_eq. }
  rewrite Hs3. cbn [step requests jobs run].
  rewrite list_lookup_insert_eq by done. cbn [cancel_step jobs requests run].
  rewrite write_alone. split_and!; [|by rewrite list_lookup_insert_eq by (by rewrite length_insert)|done].
  unfold file_field, getJob. rewrite lookup_insert_eq. simpl.
  by rewrite lookup_merge, decide_False.
Qed.

End OneJob.

Lemma start_lonely (p : prog) (d : disk) (jobId : string) (jobData : Job)
    (now : jsstring) :
  lonely jobId (start p d jobId jobData now).
Proof.
  unfold lonely, start, record, getJob. cbn [jobs run createJob fst].
  rewrite lookup_insert_eq. destruct p; by eexists.
Qed.

End OverlapSteps.

(** ** What a record found in the file holds *)

Module OverlapFields.

Import Status JobManagerFacts JobFiles JobFilesFacts Overlap OverlapInvariants
  OverlapSteps.
Import Pipeline(prog(..), fields).
Import Invariants(unfinished, calm, stage_update, final_update, staged(..)).
Import TerminalFields.

Lemma sound_mono (caught caught' : list jsstring) (j : Job) :
  caught ⊆ caught' -> sound caught j -> sound caught' j.
Proof.
  intros Hsub (Hc & Hf & Hs). split_and!; [done| |done].
  intros H. destruct (Hf H) as (Hr & m & Hm & Hin). split; [done|].
  exists m. split; [done|]. by apply Hsub.
Qed.

Lemma unfinished_sound (caught : list jsstring) (j : Job) :
  unfinished j -> j !! "result" = None \/ j !! "error" = None ->
  sound caught j.
Proof. intros [H1 H2] Hs. split_and!; [congruence|congruence|done]. Qed.

Lemma calm_sound (caught : list jsstring) (j : Job) : calm j -> sound caught j.
Proof. intros (Hr & He & Hu). apply unfinished_sound; auto. Qed.

Lemma merge_stage_single (j u : Job) (t : jsstring) :
  stage_update u ->
  j !! "result" = None \/ j !! "error" = None ->
  merge j u t !! "result" = None \/ merge j u t !! "error" = None.
Proof.
  intros (_ & _ & Hr & He). rewrite lookup_merge_result, lookup_merge_error.
  by rewrite Hr, He.
Qed.

Lemma merge_final_sound (caught : list jsstring) (j u : Job) (t : jsstring) :
  calm j -> final_update u -> sound caught (merge j u t).
Proof.
  intros (Hr & He & _) (Hc & [v Hv] & Hue).
  pose proof (is_status_is_Some _ _ Hc) as Hs.
  split_and!; rewrite ?is_status_merge by done.
  - intros _. rewrite lookup_merge_result, lookup_merge_error, Hv, Hue.
    split; [by eexists|done].
  - intros Hf. by rewrite (completed_not_failed _ Hc) in Hf.
  - right. by rewrite lookup_merge_error, Hue.
Qed.

Lemma merge_failed_sound (caught : list jsstring) (j u : Job) (t : jsstring) :
  calm j -> failed_update caught u -> sound caught (merge j u t).
Proof.
  intros (Hr & He & _) (Hf & Hur & m & Hm & Hin).
  pose proof (is_status_is_Some _ _ Hf) as Hs.
  split_and!; rewrite ?is_status_merge by done.
  - intros Hc. by rewrite (failed_not_completed _ Hf) in Hc.
  - intros _. rewrite lookup_merge_result, lookup_merge_error, Hur, Hm.
    split; [done|by exists m].
  - left. by rewrite lookup_merge_result, Hur.
Qed.

Lemma resume_sound (caught : list jsstring) (p : prog) (now : jsstring) :
  staged p -> runner_ok caught (resume p now).
Proof. intros H; destruct H; simpl; auto. Qed.

Lemma caught_sound (caught : list jsstring) (m now : jsstring) :
  m ∈ caught -> runner_ok caught (Overlap.caught m now).
Proof.
  intros Hm. simpl. split_and!; [reflexivity|reflexivity|].
  exists m. split; [reflexivity|done].
Qed.

Lemma runner_ok_mono (caught caught' : list jsstring) (r : runner) :
  caught ⊆ caught' -> runner_ok caught r -> runner_ok caught' r.
Proof.
  intros Hsub. destruct r as [[] u k|[] u k|[] u k|n k| |m]; simpl; try done.
  - intros (Hf & Hr & m & Hm & Hin). split_and!; [done|done|].
    exists m. split; [done|by apply Hsub].
  - by apply sound_mono.
  - intros [H|[H ->]]; [by left|right]. split; [|done]. by eapply sound_mono.
  - by apply sound_mono.
  - intros [H|[H ->]]; [by left|right]. split; [|done]. by eapply sound_mono.
Qed.

Lemma request_ok_mono (P Q : Prop) (c : cancel) :
  (Q -> P) -> request_ok P c -> request_ok Q c.
Proof.
  intros HPQ. destruct c; simpl; try done.
  - intros (? & ? & ?). split_and!; auto.
  - intros (? & ? & ?). split_and!; auto.
Qed.

Lemma invariant_mono (caught caught' : list jsstring) (jobId : string)
    (s : system) :
  caught ⊆ caught' -> invariant caught jobId s -> invariant caught' jobId s.
Proof.
  intros Hsub (Hj & Hr & Hreq). split_and!; [|by eapply runner_ok_mono|done].
  intros j E. destruct (Hj j E) as [Hs Hc]. split; [|done]. by eapply sound_mono.
Qed.

Section OneJob.

Variable jobId : string.

Lemma runner_step_sound (caught : list jsstring) (s : system)
    (now : jsstring) (result : outcome json) (covers : bool) :
  invariant caught jobId s ->
  invariant (caught ++ option_list (catch_at jobId s (Runner now result covers)))
    jobId (step jobId s (Runner now result covers)).
Proof.
  intros Hinv.
  set (caught' := caught ++ _).
  assert (caught ⊆ caught') as Hsub by (intros x Hx; apply elem_of_app; by left).
  assert (forall m, catch_at jobId s (Runner now result covers) = Some m ->
            m ∈ caught') as Hnew.
  { intros m Hm. apply elem_of_app. right. rewrite Hm. by apply list_elem_of_singleton. }
  apply (invariant_mono _ _ _ _ Hsub) in Hinv. clearbody caught'. clear Hsub.
  destruct Hinv as (Hj & Hr & Hreq).
  unfold invariant, record in *.
  rewrite files_after_runner, runner_after_step, requests_after_runner.
  unfold catch_at, record in Hnew. unfold runner_step.
  destruct (run s) as [h u k|h u k|h u k|n k| |m] eqn:Hrun; cbn [fst snd].
  - (* the awaited read completes *)
    unfold updateJob_read. destruct (getJob (jobs s) jobId) as [j|] eqn:E.
    + destruct (Hj j eq_refl) as [Hs Hcalm]. specialize (Hcalm I).
      cbn [fst snd]. rewrite E. split_and!.
      * intros j' [= <-]. done.
      * destruct h; simpl in *.
        -- by apply merge_failed_sound.
        -- destruct Hr as [[Hu Hk]|[Hu ->]].
           ++ left. split; [by apply merge_stage|done].
           ++ right. split; [by apply merge_final_sound|done].
      * done.
    + cbn [fst snd]. destruct h; cbn [fst snd]; rewrite E.
      * split_and!; [done|done|].
        eapply Forall_impl; [exact Hreq|]. intros c. apply request_ok_mono. done.
      * split_and!; [done| |done].
        apply caught_sound. apply Hnew. by destruct result.
  - (* the file is opened *)
    rewrite getJob_open. split_and!; [done|done|done].
  - (* the text is written *)
    split_and!.
    + intros j E. apply getJob_write in E as ->. destruct h; simpl in *.
      * split; [done|]. done.
      * destruct Hr as [[Hu Hk]|[Hu ->]].
        -- split; [by apply calm_sound|done].
        -- split; [done|]. done.
    + destruct h; [done|]. simpl in Hr. destruct Hr as [[Hu Hk]|[Hu ->]].
      * by apply resume_sound.
      * done.
    + eapply Forall_impl; [exact Hreq|]. intros c. apply request_ok_mono. done.
  - (* the awaited collaborator settles *)
    destruct result as [v|m]; cbn [fst snd].
    + split_and!.
      * intros j E. destruct (Hj j E) as [Hs Hcalm]. split; [done|].
        intros _. by apply Hcalm.
      * by apply resume_sound.
      * eapply Forall_impl; [exact Hreq|]. intros c. apply request_ok_mono. done.
    + split_and!.
      * intros j E. destruct (Hj j E) as [Hs Hcalm]. split; [done|].
        intros _. by apply Hcalm.
      * apply caught_sound. by apply Hnew.
      * done.
  - done.
  - done.
Qed.

Lemma cancel_step_sound (caught : list jsstring) (s : system) (i : nat)
    (now : jsstring) (covers : bool) :
  invariant caught jobId s ->
  invariant caught jobId (step jobId s (Cancel i now covers)).
Proof.
  intros (Hj & Hr & Hreq). unfold invariant, record in *.
  unfold step. destruct (requests s !! i) as [c|] eqn:Hc; [|done].
  pose proof (proj1 (Forall_lookup _ _) Hreq i c Hc) as Hok.
  unfold cancel_step. destruct c as [|u|u|u|code]; simpl in Hok.
  - destruct (getJob (jobs s) jobId) as [j|] eqn:E.
    + destruct (is_status j "completed" || is_status j "failed"); cbn [jobs run requests].
      * rewrite E. split_and!; [done|done|]. by apply Forall_insert.
      * rewrite E. split_and!; [done|done|]. apply Forall_insert; [done|].
        simpl. by split_and!; [eexists|split|..].
    + cbn [jobs run requests]. rewrite E. split_and!; [done|done|].
      by apply Forall_insert.
  - unfold updateJob_read. destruct (getJob (jobs s) jobId) as [j|] eqn:E;
      cbn [jobs run requests]; rewrite E.
    + destruct (Hj j eq_refl) as [(_ & _ & Hs) Hcalm].
      split_and!; [done|done|]. apply Forall_insert; [done|].
      simpl. split_and!.
      * by apply merge_stage_unfinished.
      * by apply merge_stage_single.
      * intros Hact. by apply merge_stage; [apply Hcalm|].
    + split_and!; [done|done|]. by apply Forall_insert.
  - cbn [jobs run requests]. rewrite getJob_open.
    split_and!; [done|done|]. by apply Forall_insert.
  - cbn [jobs run requests]. destruct Hok as (Hu & Hs & Hcu).
    split_and!; [|done|by apply Forall_insert].
    intros j E. apply getJob_write in E as ->.
    split; [by apply unfinished_sound|done].
  - cbn [jobs run requests]. split_and!; [done|done|]. by apply Forall_insert.
Qed.

Lemma step_sound (caught : list jsstring) (s : system) (e : event) :
  invariant caught jobId s ->
  invariant (caught ++ option_list (catch_at jobId s e)) jobId (step jobId s e).
Proof.
  destruct e as [now result covers| |i now covers].
  - apply runner_step_sound.
  - intros (Hj & Hr & Hreq). cbn [catch_at option_list]. rewrite app_nil_r.
    split_and!; [done|done|].
    apply Forall_app. split; [done|]. by apply Forall_singleton.
  - intros H. cbn [catch_at option_list]. rewrite app_nil_r.
    by apply cancel_step_sound.
Qed.

Lemma exec_sound (sched : list event) (caught : list jsstring) (s : system) :
  invariant caught jobId s ->
  invariant (caught ++ catches jobId s sched) jobId (exec jobId s sched).
Proof.
  revert caught s. induction sched as [|e sched IH]; intros caught s Hinv.
  - cbn [catches]. by rewrite app_nil_r.
  - cbn [catches exec foldl]. rewrite app_assoc. apply IH.
    by apply step_sound.
Qed.

(** The messages that the runner catches are those of the collaborators
    that fail, and that of [updateJob]. *)
Lemma catches_not_empty (sched : list event) (s : system) (m : jsstring) :
  Forall event_ok sched -> m ∈ catches jobId s sched -> m <> [].
Proof.
  revert s. induction sched as [|e sched IH]; intros s Hok Hm.
  - by apply not_elem_of_nil in Hm.
  - apply Forall_cons in Hok as [He Hok]. cbn [catches] in Hm.
    apply elem_of_app in Hm as [Hm|Hm]; [|by eapply IH].
    unfold catch_at in Hm.
    destruct e as [now [v|m'] covers| |]; destruct (run s) as [[] ? ?| | | | |];
      simpl in Hm; try (by apply not_elem_of_nil in Hm);
      try (destruct (record jobId s); simpl in Hm;
           [by apply not_elem_of_nil in Hm|];
           apply list_elem_of_singleton in Hm as ->; done).
    apply list_elem_of_singleton in Hm as ->. exact He.
Qed.

(** A runner enters its [catch] block once at most. *)
Lemma step_past_try (s : system) (e : event) :
  past_try (run s) ->
  past_try (run (step jobId s e)) /\ catch_at jobId s e = None.
Proof.
  intros Hp. destruct e as [now result covers| |i now covers].
  - rewrite runner_after_step. unfold catch_at, runner_step.
    destruct (run s) as [[] u k|[] u k|[] u k|n k| |m]; try done; cbn [snd fst];
      (split; [|by destruct result]); try done.
    unfold updateJob_read. by destruct (getJob (jobs s) jobId).
  - done.
  - by rewrite other_steps_keep_runner.
Qed.

Lemma catches_past_try (sched : list event) (s : system) :
  past_try (run s) -> catches jobId s sched = [].
Proof.
  revert s. induction sched as [|e sched IH]; intros s Hp; [done|].
  destruct (step_past_try s e Hp) as [Hp' He]. cbn [catches].
  by rewrite He, (IH _ Hp').
Qed.

Lemma catch_at_past_try (s : system) (e : event) (m : jsstring) :
  catch_at jobId s e = Some m -> past_try (run (step jobId s e)).
Proof.
  unfold catch_at. destruct e as [now result covers| |i now covers]; try done.
  rewrite runner_after_step. unfold runner_step, record.
  destruct (run s) as [[] u k|h u k|h u k|n k| |m'];
    try (by destruct result); cbn [snd fst].
  unfold updateJob_read. destruct (getJob (jobs s) jobId); [by destruct result|].
  done.
Qed.

Lemma catches_single (sched : list event) (s : system) (m : jsstring) :
  m ∈ catches jobId s sched -> catches jobId s sched = [m].
Proof.
  revert s. induction sched as [|e sched IH]; intros s Hm.
  - by apply not_elem_of_nil in Hm.
  - cbn [catches] in *. destruct (catch_at jobId s e) as [m'|] eqn:He.
    + rewrite (catches_past_try sched _ (catch_at_past_try s e m' He)) in *.
      cbn in *. by apply list_elem_of_singleton in Hm as ->.
    + cbn in *. by apply IH.
Qed.

End OneJob.

End OverlapFields.

(** ** The progress of the records found in the file *)

Module OverlapProgress.

Import Status JobManagerFacts JobFiles JobFilesFacts Overlap OverlapInvariants
  OverlapSteps.
Import Pipeline(prog(..), fields).
Import Invariants(climbs(..)).
Import Progress(progress_merge_set, progress_merge_keep, terminal_merge).

Lemma resume_climbs (lo : Z) (alone : Prop) (p : prog) (now : jsstring) :
  climbs lo p -> runner_level lo alone (resume p now).
Proof.
  intros H; destruct H; simpl; auto.
  left. exists c. auto.
Qed.

Lemma caught_climbs (lo : Z) (alone : Prop) (m now : jsstring) :
  runner_level lo alone (caught m now).
Proof. simpl. split; reflexivity. Qed.

Lemma request_level_le (lo lo' : Z) (c : cancel) :
  lo <= lo' -> request_level lo c -> request_level lo' c.
Proof.
  intros Hle. destruct c as [|u|u|u|code]; simpl; try done.
  - intros (Ht & n & Hn & Hr). split; [done|]. exists n. split; [done|lia].
  - intros (Ht & n & Hn & Hr). split; [done|]. exists n. split; [done|lia].
Qed.

Lemma runner_level_weaken (lo : Z) (P Q : Prop) (r : runner) :
  (Q -> P) -> runner_level lo P r -> runner_level lo Q r.
Proof.
  intros HQP. destruct r as [[] u k|[] u k|[] u k|n k| |m]; simpl; try done.
  - intros (Ht & n & Hn & Hr & Ha). split; [done|]. exists n. auto.
  - intros (Ht & n & Hn & Hr & Ha). split; [done|]. exists n. auto.
Qed.

Ltac split_level := refine (conj _ (conj _ (conj _ _))).

Section OneJob.

Variable jobId : string.

Lemma runner_step_climbs (lo : Z) (s : system) (now : jsstring)
    (result : outcome json) (covers : bool) :
  level jobId lo s ->
  exists lo', lo <= lo' /\
    level jobId lo' (step jobId s (Runner now result covers)).
Proof.
  intros (Hlo & Hj & Hrun & Hreq). unfold level, record in *.
  rewrite files_after_runner, runner_after_step, requests_after_runner.
  unfold runner_step.
  destruct (run s) as [h u k|h u k|h u k|w k| |m] eqn:Er; simpl in Hrun.
  - (* the awaited read completes *)
    exists lo. split; [lia|]. unfold updateJob_read.
    destruct (getJob (jobs s) jobId) as [j|] eqn:E; cbn [fst snd]; rewrite ?E.
    + destruct (Hj j eq_refl) as (n & Hn & Hr & Hterm & Halone).
      split_level; [done|by intros j' [= <-]; exists n| |done].
      destruct h; cbn [runner_level].
      * destruct Hrun as [Hp Ht]. split; [by apply terminal_merge|].
        exists n. rewrite progress_merge_keep by done. split_and!; first [done|lia].
      * destruct Hrun as [(c & Hc & Hcr & Hk)|(Hp & -> & Hk)].
        -- exists c. rewrite (progress_merge_set _ _ _ c) by done.
           split_and!; first [done|lia].
        -- exists n. rewrite progress_merge_keep by done.
           split_and!; [done|lia|lia|].
           by replace n with 0 by lia.
    + destruct h; cbn [fst snd]; rewrite ?E.
      * split_level; [done|done|done|done].
      * split_level; [done|done|apply caught_climbs|done].
  - (* the file is opened *)
    exists lo. split; [lia|]. cbn [fst snd]. rewrite getJob_open.
    split_level; [done|done|done|done].
  - (* the text is written *)
    cbn [fst snd]. destruct h.
    + destruct Hrun as (Ht & n' & Hn' & Hr' & Ha'). exists lo. split; [lia|].
      split_level; [done| |done|done].
      intros j E. apply getJob_write in E as ->. exists n'.
      split_and!; try first [done|lia]. intros Hnt. congruence.
    + destruct Hrun as (c & Hc & Hcr & Hk). exists c. split; [lia|].
      split_level; [lia| | |].
      * intros j E. apply getJob_write in E as ->. exists c.
        split_and!; try done; lia.
      * by apply resume_climbs.
      * eapply Forall_impl; [exact Hreq|]. intros x. apply request_level_le. lia.
  - (* the awaited collaborator settles *)
    exists lo. split; [lia|]. destruct result as [v|m]; cbn [fst snd].
    + split_level; [done|done| |done]. by apply resume_climbs.
    + split_level; [done|done| |done]. apply caught_climbs.
  - exists lo. split; [lia|]. done.
  - exists lo. split; [lia|]. done.
Qed.

Lemma cancel_step_climbs (lo : Z) (s : system) (i : nat) (now : jsstring)
    (covers : bool) :
  level jobId lo s -> level jobId lo (step jobId s (Cancel i now covers)).
Proof.
  intros (Hlo & Hj & Hrun & Hreq). unfold level, record in *.
  unfold step. destruct (requests s !! i) as [c|] eqn:Hc; [|done].
  pose proof (proj1 (Forall_lookup _ _) Hreq i c Hc) as Hok.
  pose proof (lookup_lt_Some _ _ _ Hc) as Hlt.
  assert (forall c', <[i := c']> (requests s) = [] -> False) as Hne.
  { intros c' H. apply (f_equal length) in H. rewrite length_insert in H.
    simpl in H. lia. }
  assert (forall c', runner_level lo (<[i := c']> (requests s) = []) (run s))
    as Hrun'.
  { intros c'. eapply runner_level_weaken; [|exact Hrun]. intros H.
    by destruct (Hne c'). }
  assert (forall c' j, getJob (jobs s) jobId = Some j ->
            exists n, progress_or_0 j = Some n /\ 0 <= n <= lo /\
              (terminal j = false -> n = lo) /\
              (<[i := c']> (requests s) = [] -> n = lo)) as Hj'.
  { intros c' j E. destruct (Hj j E) as (n & Hn & Hr & Hterm & _).
    exists n. refine (conj Hn (conj Hr (conj Hterm _))).
    intros H. by destruct (Hne _ H). }
  unfold cancel_step. destruct c as [|u|u|u|code]; simpl in Hok.
  - destruct (getJob (jobs s) jobId) as [j|] eqn:E.
    + destruct (is_status j "completed" || is_status j "failed");
        cbn [jobs run requests]; rewrite E.
      * split_level; [done|intros j' [= <-]; by apply Hj'|apply Hrun'|by apply Forall_insert].
      * split_level; [done|intros j' [= <-]; by apply Hj'|apply Hrun'|].
        apply Forall_insert; [done|]. simpl. split; reflexivity.
    + cbn [jobs run requests]. rewrite E.
      split_level; [done|done|apply Hrun'|by apply Forall_insert].
  - unfold updateJob_read. destruct (getJob (jobs s) jobId) as [j|] eqn:E;
      cbn [jobs run requests]; rewrite E.
    + destruct Hok as [Hp Ht]. destruct (Hj j eq_refl) as (n & Hn & Hr & _).
      split_level; [done|intros j' [= <-]; by apply Hj'|apply Hrun'|].
      apply Forall_insert; [done|]. simpl. split; [by apply terminal_merge|].
      exists n. by rewrite progress_merge_keep.
    + split_level; [done|done|apply Hrun'|by apply Forall_insert].
  - cbn [jobs run requests]. rewrite getJob_open.
    split_level; [done|done|apply Hrun'|]. by apply Forall_insert.
  - cbn [jobs run requests]. destruct Hok as (Ht & n' & Hn' & Hr').
    split_level; [done| |apply Hrun'|by apply Forall_insert].
    intros j E. apply getJob_write in E as ->. exists n'.
    split_and!; try first [done|lia].
    + intros H. congruence.
    + intros H. by destruct (Hne _ H).
  - cbn [jobs run requests].
    split_level; [done|intros j E; by apply Hj'|apply Hrun'|by apply Forall_insert].
Qed.

Lemma step_climbs (lo : Z) (s : system) (e : event) :
  level jobId lo s ->
  exists lo', lo <= lo' /\ level jobId lo' (step jobId s e).
Proof.
  destruct e as [now result covers| |i now covers].
  - apply runner_step_climbs.
  - intros (Hlo & Hj & Hrun & Hreq). exists lo. split; [lia|].
    unfold level, record in *. cbn [step jobs run requests].
    split_level; [done| | |].
    + intros j E. destruct (Hj j E) as (n & Hn & Hr & Hterm & _).
      exists n. refine (conj Hn (conj Hr (conj Hterm _))).
      intros H. by destruct (requests s).
    + eapply runner_level_weaken; [|exact Hrun]. intros H. by destruct (requests s).
    + apply Forall_app. split; [done|]. by apply Forall_singleton.
  - intros H. exists lo. split; [lia|]. by apply cancel_step_climbs.
Qed.

Lemma level_in_range (lo : Z) (s : system) (j : Job) :
  level jobId lo s -> record jobId s = Some j ->
  exists n, progress_or_0 j = Some n /\ 0 <= n <= 100.
Proof.
  intros (Hlo & Hj & _) E. destruct (Hj j E) as (n & Hn & Hr & _).
  exists n. split; [done|lia].
Qed.

Lemma nonterminal_progress_step (s : system) (l : list system) :
  nonterminal_progress jobId (s :: l)
  = match (record jobId s ≫= fun j =>
           if terminal j then None else progress_or_0 j) with
    | Some n => n :: nonterminal_progress jobId l
    | None => nonterminal_progress jobId l
    end.
Proof. reflexivity. Qed.

Lemma all_progress_step (s : system) (l : list system) :
  all_progress jobId (s :: l)
  = match record jobId s ≫= progress_or_0 with
    | Some n => n :: all_progress jobId l
    | None => all_progress jobId l
    end.
Proof. reflexivity. Qed.

Lemma Forall_ge_trans (lo lo' : Z) (l : list Z) :
  lo <= lo' -> Forall (fun n => lo' <= n) l -> Forall (fun n => lo <= n) l.
Proof. intros Hle H. eapply Forall_impl; [exact H|]. intros; simpl in *; lia. Qed.

(** After any schedule: every record found has a progress within the
    range, and the progress of the records that are not terminal never
    goes down. *)
Lemma trace_climbs (sched : list event) (lo : Z) (s : system) :
  level jobId lo s ->
  Forall (fun s' => forall j, record jobId s' = Some j ->
            exists n, progress_or_0 j = Some n /\ 0 <= n <= 100)
    (trace jobId s sched) /\
  Forall (fun n => lo <= n) (nonterminal_progress jobId (trace jobId s sched)) /\
  StronglySorted Z.le (nonterminal_progress jobId (trace jobId s sched)).
Proof.
  revert lo s. induction sched as [|e sched IH]; intros lo s Hlevel.
  - split_and!; constructor.
  - destruct (step_climbs lo s e Hlevel) as (lo' & Hle & Hlevel').
    destruct (IH lo' _ Hlevel') as (Hrange & Hlow & Hsorted).
    cbn [trace]. rewrite nonterminal_progress_step.
    split; [constructor; [intros j; by eapply level_in_range|done]|].
    destruct Hlevel' as (_ & Hj & _).
    destruct (record jobId (step jobId s e)) as [j|] eqn:E; cbn [mbind option_bind].
    2:{ split; [by eapply Forall_ge_trans|done]. }
    destruct (Hj j eq_refl) as (n & Hn & Hr & Hterm & _).
    destruct (terminal j) eqn:Ht.
    + split; [by eapply Forall_ge_trans|done].
    + rewrite Hn. rewrite (Hterm eq_refl) in *. split.
      * constructor; [lia|by eapply Forall_ge_trans].
      * by constructor.
Qed.

(** With no cancellation request at all, the progress of the records
    found never goes down, terminal or not. *)
Lemma trace_climbs_alone (sched : list event) (lo : Z) (s : system) :
  level jobId lo s -> requests s = [] ->
  Forall (fun e => is_runner_event e = true) sched ->
  Forall (fun n => lo <= n) (all_progress jobId (trace jobId s sched)) /\
  StronglySorted Z.le (all_progress jobId (trace jobId s sched)).
Proof.
  revert lo s. induction sched as [|e sched IH]; intros lo s Hlevel Hnone Hsched.
  - split; constructor.
  - apply Forall_cons in Hsched as [He Hsched].
    destruct e as [now result covers| |]; try discriminate He.
    destruct (step_climbs lo s (Runner now result covers) Hlevel)
      as (lo' & Hle & Hlevel').
    assert (requests (step jobId s (Runner now result covers)) = []) as Hnone'.
    { by rewrite requests_after_runner. }
    destruct (IH lo' _ Hlevel' Hnone' Hsched) as (Hlow & Hsorted).
    cbn [trace]. rewrite all_progress_step.
    destruct Hlevel' as (_ & Hj & _).
    destruct (record jobId (step jobId s (Runner now result covers))) as [j|] eqn:E;
      cbn [mbind option_bind].
    2:{ split; [by eapply Forall_ge_trans|done]. }
    destruct (Hj j eq_refl) as (n & Hn & Hr & _ & Halone).
    rewrite Hn. rewrite (Halone Hnone') in *. split.
    + constructor; [lia|by eapply Forall_ge_trans].
    + by constructor.
Qed.

End OneJob.

End OverlapProgress.

(* ===================================================================== *)
(** * The runners from their start, file accesses overlapping *)
(* ===================================================================== *)

Module OverlapRuns.

Import Status JobManagerFacts JobFiles JobFilesFacts Overlap OverlapInvariants
  OverlapExamples OverlapSteps OverlapFields OverlapProgress.
Import Pipeline(prog(..), fields, generateAppAsync, analyzeCodeAsync,
                modernizeCodeAsync).
Import Invariants(unfinished, calm, staged(..), climbs(..)).
Import Examples(request_data).

(** The record that the route handler creates holds what the request
    data hold, but for the id and the two time stamps. *)
Lemma start_creates (p : prog) (d : disk) (jobId : string) (jobData : Job)
    (now : jsstring) :
  exists j,
    record jobId (start p d jobId jobData now) = Some j /\
    forall k, k <> "createdAt" -> k <> "updatedAt" -> k <> "id" ->
      j !! k = jobData !! k.
Proof.
  unfold record, start, getJob, createJob. cbn [jobs fst].
  rewrite lookup_insert_eq. eexists. split; [reflexivity|].
  intros k H1 H2 H3. rewrite !lookup_insert_ne by done. rewrite lookup_spread.
  destruct (jobData !! k); [done|]. by rewrite lookup_singleton_ne.
Qed.

Lemma start_sound (p : prog) (d : disk) (jobId : string) (jobData : Job)
    (now : jsstring) :
  staged p -> calm jobData ->
  invariant [] jobId (start p d jobId jobData now).
Proof.
  intros Hp (Hr & He & Hc & Hf).
  destruct (start_creates p d jobId jobData now) as (j & Hj & Hk).
  assert (calm j) as Hcalm.
  { unfold calm, unfinished, is_status.
    rewrite !Hk by done. by split_and!. }
  split_and!.
  - intros j' E. rewrite Hj in E. injection E as <-.
    split; [by apply calm_sound|done].
  - by apply resume_sound.
  - constructor.
Qed.

Lemma start_climbs (p : prog) (d : disk) (jobId : string) (jobData : Job)
    (now : jsstring) :
  climbs 0 p -> jobData !! "progress" = None ->
  level jobId 0 (start p d jobId jobData now).
Proof.
  intros Hp Hnone.
  destruct (start_creates p d jobId jobData now) as (j & Hj & Hk).
  assert (progress_or_0 j = Some 0) as Hprogress.
  { unfold progress_or_0. by rewrite Hk, Hnone. }
  refine (conj _ (conj _ (conj _ _))).
  - lia.
  - intros j' E. rewrite Hj in E. injection E as <-. exists 0. by split_and!.
  - by apply resume_climbs.
  - constructor.
Qed.

(** C2 (as amended): the runners never read the stored status, and a
    cancellation request never interrupts what a runner is doing: the
    request and the steps of its handler leave the runner where it is.
    As long as each read of the job's file by the runner finds a record,
    the runner is, after any schedule, where its own events of that
    schedule alone take it.  A read of the runner that finds no record,
    the file being in the middle of a write of the handler, throws: the
    runner goes to its [catch] block, and from there to an unhandled
    rejection.  An update of the runner whose steps follow each other is
    written over whatever record the file holds, one with the status
    [cancelled] included, after which the next stage starts.  A request
    that finds the job neither completed nor failed, and whose steps
    follow each other, stores the status [cancelled] and is answered with
    200. *)
Theorem runner_ignores_cancellation (jobId : string) (s : system)
    (sched : list event) :
  (forall e, is_runner_event e = false -> run (step jobId s e) = run s) /\
  (lonely jobId s -> reads_find_record jobId s sched = true ->
   control (run (exec jobId s sched))
     = control (run (exec jobId s (List.filter is_runner_event sched)))) /\
  (forall in_catch updates next now result covers,
     run s = Reading in_catch updates next ->
     record jobId s = None ->
     run (step jobId s (Runner now result covers))
     = (if in_catch then Rejected (not_found jobId)
        else caught (not_found jobId) now) /\
     jobs (step jobId s (Runner now result covers)) = jobs s) /\
  (forall in_catch updates next status now1 now2 now3 r1 r2 r3 c1 c2 c3,
     is_Some (record jobId s) ->
     run s = Reading in_catch updates next ->
     updates !! "status" = Some status ->
     let update := [Runner now1 r1 c1; Runner now2 r2 c2; Runner now3 r3 c3] in
     file_field (jobs (exec jobId s update)) jobId "status" = Some status /\
     run (exec jobId s update) = if in_catch then Finished else resume next now3) /\
  (forall i job now1 now2 now3 now4 c1 c2 c3 c4,
     requests s !! i = Some Checking ->
     record jobId s = Some job ->
     is_status job "completed" || is_status job "failed" = false ->
     let handled :=
       [Cancel i now1 c1; Cancel i now2 c2; Cancel i now3 c3; Cancel i now4 c4] in
     file_field (jobs (exec jobId s handled)) jobId "status"
       = Some (text "cancelled") /\
     requests (exec jobId s handled) !! i = Some (Responded 200) /\
     run (exec jobId s handled) = run s).
Proof.
  split_and!.
  - intros e He. by apply other_steps_keep_runner.
  - intros Hl Hr. by apply runner_control_exec.
  - intros. by eapply read_without_record.
  - intros. by eapply update_written_over.
  - intros. by eapply cancellation_written.
Qed.

(** C2 fails as stated: the job is cancelled while the planning stage
    is in flight; the request is answered with 200, the file holds the
    status [cancelled] and the stage goes on.  When the stage returns, the
    runner's next update stores [generating] over [cancelled] and the
    generation stage starts; the run goes on to [completed]. *)
Lemma runner_overwrites_cancelled :
  requests (exec "J1" created (update_at "t1" ++ cancellation)) = [Responded 200] /\
  file_field (jobs (exec "J1" created (update_at "t1" ++ cancellation)))
    "J1" "status" = Some (text "cancelled") /\
  working_on (run (exec "J1" created (update_at "t1" ++ cancellation)))
    = Some "analyzeDescription" /\
  file_field
    (jobs (exec "J1" created
             (update_at "t1" ++ cancellation ++ stage_at "t3" (JObject []))))
    "J1" "status" = Some (text "generating") /\
  working_on
    (run (exec "J1" created
            (update_at "t1" ++ cancellation ++ stage_at "t3" (JObject []))))
    = Some "generateMultiPlatformApp" /\
  file_field (jobs (exec "J1" created cancelled_run)) "J1" "status"
    = Some (text "completed") /\
  run (exec "J1" created cancelled_run) = Finished.
Proof. by vm_compute. Qed.

Lemma runner_ignores_cancellation_witness :
  control (run (exec "J1" created cancelled_run))
  = control (run (exec "J1" created run_on)).
Proof.
  destruct (runner_ignores_cancellation "J1" created cancelled_run)
    as (_ & H & _). apply H.
  - apply start_lonely.
  - by vm_compute.
Defined.

(** The planning stage returns while a cancellation is being written:
    the runner's read finds no record, the run fails with the message of
    [updateJob], and the cancellation is answered with 200. *)
Example read_between_open_and_write :
  run (exec "J1" created torn_read)
    = caught (js "Job J1 not found") (js "t3") /\
  requests (exec "J1" created torn_read) = [Responded 200] /\
  file_field (jobs (exec "J1" created torn_read)) "J1" "status"
    = Some (text "cancelled").
Proof. by vm_compute. Qed.

Lemma runners_shape (p : prog) :
  p = generateAppAsync \/ p = analyzeCodeAsync \/ p = modernizeCodeAsync ->
  staged p /\ climbs 0 p.
Proof.
  intros [->|[->| ->]]; split;
    auto using TerminalFields.generateAppAsync_staged,
      TerminalFields.analyzeCodeAsync_staged,
      TerminalFields.modernizeCodeAsync_staged,
      Progress.generateAppAsync_climbs, Progress.analyzeCodeAsync_climbs,
      Progress.modernizeCodeAsync_climbs.
Qed.

(** C5 (as amended): whatever the schedule of the runner's steps and of
    the steps of cancellation requests, a record found in the job's file
    with the status [completed] has its result set and no error; one with
    the status [failed] has no result, and its error is the message with
    which the runner entered its [catch] block, which is not empty when no
    collaborator throws an empty message; and no record, a cancelled one
    included, has both a result and an error. *)
Theorem terminal_job_fields (p : prog) (d : disk) (jobId : string)
    (jobData : Job) (now : jsstring) (sched : list event) (job : Job) :
  p = generateAppAsync \/ p = analyzeCodeAsync \/ p = modernizeCodeAsync ->
  calm jobData ->
  record jobId (exec jobId (start p d jobId jobData now) sched) = Some job ->
  (is_status job "completed" = true ->
     is_Some (job !! "result") /\ job !! "error" = None) /\
  (is_status job "failed" = true ->
     job !! "result" = None /\
     exists m, job !! "error" = Some (JString m) /\
       catches jobId (start p d jobId jobData now) sched = [m] /\
       (Forall event_ok sched -> m <> [])) /\
  (job !! "result" = None \/ job !! "error" = None).
Proof.
  intros Hp Hdata Hjob. apply runners_shape in Hp as [Hp _].
  destruct (exec_sound jobId sched [] _
              (start_sound p d jobId jobData now Hp Hdata))
    as (Hj & _).
  destruct (Hj job Hjob) as [(Hc & Hf & Hs) _]. split_and!; [done| |done].
  intros H. destruct (Hf H) as (Hr & m & Hm & Hin). split; [done|].
  exists m. split_and!; [done|by apply catches_single|].
  intros Hok. by eapply catches_not_empty.
Qed.

(** C5 fails as stated: a job cancelled during its run is in a terminal
    state and has neither a result nor an error. *)
Lemma cancelled_job_has_neither :
  file_field (jobs (exec "J1" created (update_at "t1" ++ cancellation)))
    "J1" "status" = Some (text "cancelled") /\
  file_field (jobs (exec "J1" created (update_at "t1" ++ cancellation)))
    "J1" "result" = None /\
  file_field (jobs (exec "J1" created (update_at "t1" ++ cancellation)))
    "J1" "error" = None.
Proof. by vm_compute. Qed.

Lemma terminal_job_fields_witness :
  exists job,
    record "J1" (exec "J1" created planning_fails) = Some job /\
    (is_status job "failed" = true ->
       job !! "result" = None /\
       exists m, job !! "error" = Some (JString m) /\
         catches "J1" created planning_fails = [m] /\
         (Forall event_ok planning_fails -> m <> [])).
Proof.
  destruct (record "J1" (exec "J1" created planning_fails)) as [job|] eqn:E;
    [|by vm_compute in E].
  exists job. split; [done|].
  destruct (terminal_job_fields generateAppAsync ∅ "J1" request_data (js "t0")
              planning_fails job) as (_ & Hf & _).
  - by left.
  - by vm_compute.
  - exact E.
  - exact Hf.
Defined.

Example failed_run :
  file_field (jobs (exec "J1" created planning_fails)) "J1" "status"
    = Some (text "failed") /\
  file_field (jobs (exec "J1" created planning_fails)) "J1" "error"
    = Some (text "Planning analysis failed: rate limited") /\
  file_field (jobs (exec "J1" created planning_fails)) "J1" "result" = None /\
  catches "J1" created planning_fails
    = [js "Planning analysis failed: rate limited"].
Proof. by vm_compute. Qed.

(** C7 (as amended): from the creation of the job on and whatever the
    schedule, the progress of every record found in the job's file is
    absent or an integer, and counts as a number between 0 and 100; over
    the records found that are not terminal it never goes down; and in a
    run without cancellation requests it never goes down at all. *)
Theorem progress_monotone (p : prog) (d : disk) (jobId : string)
    (jobData : Job) (now : jsstring) (sched : list event) :
  p = generateAppAsync \/ p = analyzeCodeAsync \/ p = modernizeCodeAsync ->
  jobData !! "progress" = None ->
  Forall (fun s => forall j, record jobId s = Some j ->
            exists n, progress_or_0 j = Some n /\ 0 <= n <= 100)
    (start p d jobId jobData now
       :: trace jobId (start p d jobId jobData now) sched) /\
  StronglySorted Z.le
    (nonterminal_progress jobId
       (start p d jobId jobData now
          :: trace jobId (start p d jobId jobData now) sched)) /\
  (Forall (fun e => is_runner_event e = true) sched ->
   StronglySorted Z.le
     (all_progress jobId
        (start p d jobId jobData now
           :: trace jobId (start p d jobId jobData now) sched))).
Proof.
  intros Hp Hdata. apply runners_shape in Hp as [_ Hp].
  pose proof (start_climbs p d jobId jobData now Hp Hdata) as Hlevel.
  destruct (trace_climbs jobId sched 0 _ Hlevel) as (Hrange & Hlow & Hsorted).
  destruct (start_creates p d jobId jobData now) as (j & Hj & Hk).
  assert (progress_or_0 j = Some 0) as Hn.
  { unfold progress_or_0. by rewrite Hk, Hdata. }
  split_and!.
  - constructor; [|done]. intros j' E. rewrite Hj in E. injection E as <-.
    exists 0. by split.
  - rewrite nonterminal_progress_step, Hj. cbn [mbind option_bind].
    destruct (terminal j); [done|]. rewrite Hn. by constructor.
  - intros Hsched.
    destruct (trace_climbs_alone jobId sched 0 (start p d jobId jobData now))
      as (Hlow' & Hsorted'); [done|done|done|].
    rewrite all_progress_step, Hj. cbn [mbind option_bind]. rewrite Hn.
    by constructor.
Qed.

(** C7 fails as stated: a cancellation request reads the record of the
    job during the generation stage, at the progress 25; the stage
    returns and the runner writes the progress 80; then the handler of
    the request writes its record, and the progress is back at 25; the
    run goes on, and the job ends completed at 100. *)
Lemma cancellation_resets_progress :
  all_progress "J1" (created :: trace "J1" created late_cancellation)
  = [0; 0; 0; 0; 0; 25; 25; 25; 25; 25; 25; 80; 25; 25; 25; 100] /\
  file_field (jobs (exec "J1" created late_cancellation)) "J1" "status"
  = Some (text "completed").
Proof. by vm_compute. Qed.

Lemma progress_monotone_witness :
  StronglySorted Z.le
    (nonterminal_progress "J1"
       (created :: trace "J1" created late_cancellation)).
Proof.
  destruct (progress_monotone generateAppAsync ∅ "J1" request_data (js "t0")
              late_cancellation) as (_ & H & _).
  - by left.
  - by vm_compute.
  - exact H.
Defined.

Example progress_of_run :
  all_progress "J1" (created :: trace "J1" created run_on)
  = [0; 0; 0; 0; 0; 25; 25; 25; 80; 80; 80; 100].
Proof. by vm_compute. Qed.

End OverlapRuns.

(* ===================================================================== *)
(** * How a run ends, file accesses overlapping *)
(* ===================================================================== *)

Module OverlapEnds.

Import Status JobManagerFacts JobFiles JobFilesFacts Overlap OverlapInvariants
  OverlapExamples OverlapSteps OverlapRuns.
Import Pipeline(prog(..), fields, generateAppAsync, analyzeCodeAsync,
                modernizeCodeAsync).
Import RunShape(closes(..)).
Import Progress(terminal_merge).
Import Examples(request_data).

Lemma resume_ends (p : prog) (now : jsstring) :
  closes p -> ending (resume p now) /\ resume p now <> Finished.
Proof.
  intros H; destruct H as [u H|u k H Hk|name k H]; simpl; split; try done.
  - left. split; [done|]. unfold terminal. by rewrite H.
  - right. by split.
Qed.

Section OneJob.

Variable jobId : string.

Lemma step_ends (s : system) (e : event) :
  ends_terminal jobId s -> ends_terminal jobId (step jobId s e).
Proof.
  intros (Hend & Hfin & Hreq). unfold ends_terminal, record in *.
  destruct e as [now result covers| |i now covers].
  - (* the runner *)
    rewrite files_after_runner, runner_after_step, requests_after_runner.
    unfold runner_step.
    destruct (run s) as [h u k|h u k|h u k|name k| |m] eqn:Hrun;
      cbn [ending] in Hend; cbn [fst snd].
    + unfold updateJob_read.
      destruct (getJob (jobs s) jobId) as [j|] eqn:E; cbn [fst snd].
      * split_and!; [|done|done].
        destruct h; cbn [ending].
        -- by apply terminal_merge.
        -- destruct Hend as [[-> Ht]|[Hs Hk]].
           ++ left. split; [done|]. by apply terminal_merge.
           ++ right. split; [|done]. destruct Hs as [x Hx]. exists x.
              rewrite lookup_merge, decide_False by done. by rewrite Hx.
      * destruct h; cbn [fst snd]; by split_and!.
    + by split_and!.
    + destruct h.
      * split_and!; [done| |done]. intros _ j E. by apply getJob_write in E as ->.
      * destruct Hend as [[-> Ht]|[Hs Hk]].
        -- split_and!; [done| |done]. intros _ j E.
           by apply getJob_write in E as ->.
        -- destruct (resume_ends k now Hk) as [He Hne]. by split_and!.
    + destruct result as [v|m]; cbn [fst snd].
      * destruct (resume_ends (k v) now (Hend v)) as [He Hne]. by split_and!.
      * by split_and!.
    + by split_and!.
    + by split_and!.
  - (* a request arrives *)
    cbn [step run requests jobs]. split_and!; [done|done|].
    apply Forall_app. split; [done|]. by apply Forall_singleton.
  - (* a request goes on *)
    cbn [step]. destruct (requests s !! i) as [c|] eqn:Hc; [|done].
    pose proof (proj1 (Forall_lookup _ _) Hreq i c Hc) as Hok.
    unfold cancel_step. destruct c as [|u|u|u|code]; cbn [request_ending] in Hok.
    + destruct (getJob (jobs s) jobId) as [j|] eqn:E.
      * destruct (is_status j "completed" || is_status j "failed");
          cbn [jobs run requests]; rewrite E;
          (split_and!; [done|done|]); by apply Forall_insert.
      * cbn [jobs run requests]. rewrite E.
        split_and!; [done|done|]. by apply Forall_insert.
    + unfold updateJob_read.
      destruct (getJob (jobs s) jobId) as [j|] eqn:E; cbn [jobs run requests];
        rewrite E; (split_and!; [done|done|]); apply Forall_insert; try done.
      by apply terminal_merge.
    + cbn [jobs run requests]. rewrite getJob_open.
      split_and!; [done|done|]. by apply Forall_insert.
    + cbn [jobs run requests]. split_and!; [done| |by apply Forall_insert].
      intros _ j E. by apply getJob_write in E as ->.
    + cbn [jobs run requests]. split_and!; [done|done|]. by apply Forall_insert.
Qed.

Lemma exec_ends (sched : list event) (s : system) :
  ends_terminal jobId s -> ends_terminal jobId (exec jobId s sched).
Proof.
  revert s. induction sched as [|e sched IH]; intros s H; [done|].
  cbn [exec foldl]. by apply IH, step_ends.
Qed.





End OneJob.




Ltac closing_steps :=
  repeat first
    [ apply closes_final; intros ?; reflexivity
    | apply closes_update; [intros ?; by eexists|]
    | apply closes_work; intros ? ].

Lemma runners_close (p : prog) :
  p = generateAppAsync \/ p = analyzeCodeAsync \/ p = modernizeCodeAsync ->
  closes p.
Proof.
  intros [->|[->| ->]];
    [unfold generateAppAsync|unfold analyzeCodeAsync|unfold modernizeCodeAsync];
    closing_steps.
Qed.

(** Once the runner has returned, a record found in the file of the job
    has the status [completed], [failed] or [cancelled], whatever
    cancellation requests are handled before or afterwards. *)
Theorem returned_runner_terminal (p : prog) (d : disk) (jobId : string)
    (jobData : Job) (now : jsstring) (sched : list event) (job : Job) :
  p = generateAppAsync \/ p = analyzeCodeAsync \/ p = modernizeCodeAsync ->
  run (exec jobId (start p d jobId jobData now) sched) = Finished ->
  record jobId (exec jobId (start p d jobId jobData now) sched) = Some job ->
  terminal job = true.
Proof.
  intros Hp Hfin Hjob. apply runners_close in Hp.
  destruct (exec_ends jobId sched (start p d jobId jobData now))
    as (_ & H & _); [|by apply H].
  destruct (resume_ends p now Hp) as [He Hne].
  split_and!; [done|done|constructor].
Qed.

Lemma returned_runner_terminal_witness :
  exists job,
    record "J1" (exec "J1" created cancelled_run) = Some job /\
    terminal job = true.
Proof.
  destruct (record "J1" (exec "J1" created cancelled_run)) as [job|] eqn:E;
    [|by vm_compute in E].
  exists job. split; [done|].
  apply (returned_runner_terminal generateAppAsync ∅ "J1" request_data (js "t0")
           cancelled_run job); [by left|by vm_compute|exact E].
Defined.

End OverlapEnds.
